(** * The board engine of react-game-2048, embedded in Rocq

    A shallow embedding of [src/hooks/useGameBoard.ts] and of the helpers it
    takes from [src/utils/common.ts].  JavaScript numbers that hold grid
    coordinates, tile indices, tile values and scores are integers there and
    are modelled by [Z]; arrays are lists, [undefined] cells are [None].
    The module-level tile counter, [Date.now()] and [Math.random()] are read
    from an explicit [World] that is threaded through the allocating code. *)

From stdpp Require Import base numbers list strings pretty sorting.

Local Open Scope Z_scope.

(** ** Outcomes

    The source has no error handling of its own.  The only run-time failure
    it can raise is the [TypeError] of reading [.length] of [grid[0]] on a
    grid without rows; [Array(n)] raises a [RangeError] for a negative
    length.  [OutOfFuel] belongs to the embedding: the [while] loop of
    [moveInDirection] runs on a step budget here, and [slide_total] shows
    the budget is never exhausted. *)

Inductive result (A : Type) : Type :=
| Ok (a : A)
| TypeError
| RangeError
| OutOfFuel.

Arguments Ok {A} a.
Arguments TypeError {A}.
Arguments RangeError {A}.
Arguments OutOfFuel {A}.

Definition bind {A B : Type} (m : result A) (k : A → result B) : result B :=
  match m with
  | Ok a => k a
  | TypeError => TypeError
  | RangeError => RangeError
  | OutOfFuel => OutOfFuel
  end.

Notation "'let!' x ':=' m 'in' k" := (bind m (fun x => k))
  (at level 10, x pattern, m at level 100, k at level 200).

(** [arr.forEach] with a body that may fail: left to right, first failure
    wins. *)
Fixpoint forEach {A S : Type} (body : S → A → result S) (arr : list A) (s : S)
  : result S :=
  match arr with
  | [] => Ok s
  | a :: arr' => let! s' := body s a in forEach body arr' s'
  end.

(** ** Data model (useGameBoard.ts, lines 20-34) *)

Module Location.
Record t : Type := mk { r : Z; c : Z }.
End Location.

Module Vector.
Record t : Type := mk { r : Z; c : Z }.
End Vector.

Module Tile.
Record t : Type := mk {
  index : Z;
  id : string;
  r : Z;
  c : Z;
  isNew : bool;
  isMerging : bool;
  canMerge : bool;
  value : Z
}.
End Tile.

(** [Cell = Tile | undefined] and [Cell[][]]. *)
Abbreviation Cell := (option Tile.t) (only parsing).
Abbreviation Grid := (list (list (option Tile.t))) (only parsing).

(** Modelled from the spec: [utils/constants.ts] is not part of the sources;
    section 4.3 of the specification gives the four direction vectors as
    up [(-1,0)], down [(1,0)], left [(0,-1)] and right [(0,1)]. *)
Module DIRECTION_MAP.
Definition Up : Vector.t := Vector.mk (-1) 0.
Definition Down : Vector.t := Vector.mk 1 0.
Definition Left : Vector.t := Vector.mk 0 (-1).
Definition Right : Vector.t := Vector.mk 0 1.
End DIRECTION_MAP.

Definition cardinal (dir : Vector.t) : Prop :=
  dir = DIRECTION_MAP.Up ∨ dir = DIRECTION_MAP.Down ∨
  dir = DIRECTION_MAP.Left ∨ dir = DIRECTION_MAP.Right.

(** The five status literals used by [useGameBoard.ts] and [App.jsx]. *)
Inductive GameStatus : Type := running | win | lost | continue | restart.

(** ** utils/common.ts *)

(** [clamp = (d, min, max) => Math.max(Math.min(max, d), min)] *)
Definition clamp (d min max : Z) : Z := Z.max (Z.min max d) min.

(** [createIndexArray = (len) => Array.from(Array(len).keys())], for a
    length from 0 to [2^32 - 1], the lengths [Array(len)] accepts; for any
    other length the code raises a [RangeError], which this definition
    leaves out: it is for the lengths of a grid that exists. *)
Definition createIndexArray (len : Z) : list Z :=
  Z.of_nat <$> seq 0 (Z.to_nat len).

(** ** Array access with JavaScript numbers

    [arr[i]] is [undefined] for an index outside the array.  Every row index
    the engine uses is a traversal index or a clamped coordinate, hence inside
    a grid that has a row; column writes stay inside a rectangular grid
    ([setCell] leaves the grid as it is elsewhere, where JavaScript would
    grow the row: rectangular grids are the only ones the program builds). *)

Definition lookupZ {A : Type} (arr : list A) (i : Z) : option A :=
  if i <? 0 then None else arr !! Z.to_nat i.

Definition getCell (grid : Grid) (r c : Z) : Cell :=
  match lookupZ grid r with
  | Some row => match lookupZ row c with Some cell => cell | None => None end
  | None => None
  end.

Definition setCell (grid : Grid) (r c : Z) (cell : Cell) : Grid :=
  if (r <? 0) || (c <? 0) then grid
  else match grid !! Z.to_nat r with
       | Some row => <[Z.to_nat r := <[Z.to_nat c := cell]> row]> grid
       | None => grid
       end.

Definition lengthZ {A : Type} (arr : list A) : Z := Z.of_nat (length arr).

(** ** The move engine (useGameBoard.ts, lines 81-88 and 170-232) *)

Record TraversalMap : Type := { trav_rows : list Z; trav_cols : list Z }.

Definition createTraversalMap (rows cols : Z) (dir : Vector.t) : TraversalMap :=
  let rowsMap := createIndexArray rows in
  let colsMap := createIndexArray cols in
  {| trav_rows := if 0 <? Vector.r dir then reverse rowsMap else rowsMap;
     trav_cols := if 0 <? Vector.c dir then reverse colsMap else colsMap |}.

Record Pos : Type := {
  currRow : Z;
  currCol : Z;
  nextRow : Z;
  nextCol : Z
}.

(** The [while] loop of lines 189-203.  One unit of [fuel] pays for one
    iteration that reaches the loop body. *)
Fixpoint slide (fuel : nat) (newGrid : Grid) (dir : Vector.t)
    (totalRows totalCols : Z) (tile : Tile.t) (pos : Pos) : result Pos :=
  if negb (nextRow pos =? currRow pos) || negb (nextCol pos =? currCol pos)
  then
    match fuel with
    | O => OutOfFuel
    | S fuel' =>
        match getCell newGrid (nextRow pos) (nextCol pos) with
        | Some nextTile =>
            if (Tile.value nextTile =? Tile.value tile)
               && negb (Tile.canMerge nextTile)
            then Ok {| currRow := nextRow pos; currCol := nextCol pos;
                       nextRow := nextRow pos; nextCol := nextCol pos |}
            else Ok pos
        | None =>
            slide fuel' newGrid dir totalRows totalCols tile
              {| currRow := nextRow pos;
                 currCol := nextCol pos;
                 nextRow := clamp (nextRow pos + Vector.r dir) 0 (totalRows - 1);
                 nextCol := clamp (nextCol pos + Vector.c dir) 0 (totalCols - 1) |}
        end
    end
  else Ok pos.

Record MoveResult : Type := {
  mv_tiles : list Tile.t;
  mv_grid : Grid;
  mv_moveStack : list Z
}.

Definition startPos (dir : Vector.t) (totalRows totalCols row col : Z) : Pos :=
  {| currRow := row;
     currCol := col;
     nextRow := clamp (row + Vector.r dir) 0 (totalRows - 1);
     nextCol := clamp (col + Vector.c dir) 0 (totalCols - 1) |}.

(** [tile.value === currentTile?.value] *)
Definition sameValue (tile : Tile.t) (currentTile : Cell) : bool :=
  match currentTile with
  | Some t => Tile.value tile =? Tile.value t
  | None => false
  end.

(** [{ ...tile, r: currRow, c: currCol,
       canMerge: tile.value === currentTile?.value,
       isNew: false, isMerging: false }] (lines 208-215). *)
Definition updatedTile (tile : Tile.t) (currRow currCol : Z)
    (currentTile : Cell) : Tile.t :=
  {| Tile.index := Tile.index tile;
     Tile.id := Tile.id tile;
     Tile.r := currRow;
     Tile.c := currCol;
     Tile.isNew := false;
     Tile.isMerging := false;
     Tile.canMerge := sameValue tile currentTile;
     Tile.value := Tile.value tile |}.

(** [{ ...currentTile, isNew: false, isMerging: false }] (line 221). *)
Definition restingTile (currentTile : Tile.t) : Tile.t :=
  {| Tile.index := Tile.index currentTile;
     Tile.id := Tile.id currentTile;
     Tile.r := Tile.r currentTile;
     Tile.c := Tile.c currentTile;
     Tile.isNew := false;
     Tile.isMerging := false;
     Tile.canMerge := Tile.canMerge currentTile;
     Tile.value := Tile.value currentTile |}.

(** The body of the inner [forEach] (lines 180-223) for the cell
    [(row, col)]. *)
Definition moveCell (dir : Vector.t) (totalRows totalCols : Z) (row : Z)
    (acc : MoveResult) (col : Z) : result MoveResult :=
  let newGrid := mv_grid acc in
  match getCell newGrid row col with
  | None => Ok acc
  | Some tile =>
      let! pos := slide (Z.to_nat (totalRows + totalCols)) newGrid dir
                    totalRows totalCols tile
                    (startPos dir totalRows totalCols row col) in
      let currentTile := getCell newGrid (currRow pos) (currCol pos) in
      if negb (currRow pos =? row) || negb (currCol pos =? col) then
        let updated := updatedTile tile (currRow pos) (currCol pos) currentTile in
        Ok {| mv_tiles := mv_tiles acc ++ [updated];
              mv_grid :=
                setCell (setCell newGrid (currRow pos) (currCol pos)
                           (Some updated)) row col None;
              mv_moveStack := mv_moveStack acc ++ [Tile.index updated] |}
      else
        match currentTile with
        | Some ct =>
            Ok {| mv_tiles := mv_tiles acc ++ [restingTile ct];
                  mv_grid := newGrid;
                  mv_moveStack := mv_moveStack acc |}
        | None => Ok acc
        end
  end.

Definition moveRow (dir : Vector.t) (totalRows totalCols : Z) (cols : list Z)
    (acc : MoveResult) (row : Z) : result MoveResult :=
  forEach (moveCell dir totalRows totalCols row) cols acc.

Definition moveInDirection (grid : Grid) (dir : Vector.t) : result MoveResult :=
  match grid with
  | [] => TypeError
  | row0 :: _ =>
      let totalRows := lengthZ grid in
      let totalCols := lengthZ row0 in
      let traversal := createTraversalMap totalRows totalCols dir in
      forEach (moveRow dir totalRows totalCols (trav_cols traversal))
        (trav_rows traversal)
        {| mv_tiles := []; mv_grid := grid; mv_moveStack := [] |}
  end.

(** ** The world outside the engine

    [_tileIndex] is the module-level counter of [utils/common.ts].  [now] is
    the value [Date.now()] returns, in milliseconds; it changes only when the
    environment lets time pass ([advanceClock]).  The [k]-th call of
    [Math.random()] returns the fraction [randomSource k mod 2^53 / 2^53],
    a number in [0, 1). *)

Record World : Type := {
  _tileIndex : Z;
  now : Z;
  randomSource : nat → Z;
  randomCalls : nat
}.

Definition advanceClock (ms : Z) (w : World) : World :=
  {| _tileIndex := _tileIndex w; now := now w + ms;
     randomSource := randomSource w; randomCalls := randomCalls w |}.

(** [nextTileIndex = () => _tileIndex++] *)
Definition nextTileIndex (w : World) : Z * World :=
  (_tileIndex w,
   {| _tileIndex := _tileIndex w + 1; now := now w;
      randomSource := randomSource w; randomCalls := randomCalls w |}).

(** [resetTileIndex = () => { _tileIndex = 0; }] *)
Definition resetTileIndex (w : World) : World :=
  {| _tileIndex := 0; now := now w;
     randomSource := randomSource w; randomCalls := randomCalls w |}.

Definition randomDenominator : Z := 2 ^ 53.

(** [Math.random()], as the numerator of the fraction it returns. *)
Definition Math_random (w : World) : Z * World :=
  (randomSource w (randomCalls w) `mod` randomDenominator,
   {| _tileIndex := _tileIndex w; now := now w;
      randomSource := randomSource w; randomCalls := S (randomCalls w) |}).

(** [getId = (ind) => `${ind}_${Date.now()}`] *)
Definition getId (ind : Z) (w : World) : string :=
  pretty ind +:+ "_" +:+ pretty (now w).

(** [[shuffled[i], shuffled[j]] = [shuffled[j], shuffled[i]]] *)
Definition swap {A : Type} (i j : nat) (shuffled : list A) : list A :=
  match shuffled !! i, shuffled !! j with
  | Some x, Some y => <[j := x]> (<[i := y]> shuffled)
  | _, _ => shuffled
  end.

(** The loop of [shuffle], counting [i] down to 1;
    [j = Math.floor(Math.random() * (i + 1))]. *)
Fixpoint shuffleLoop {A : Type} (i : nat) (shuffled : list A) (w : World)
  : list A * World :=
  match i with
  | O => (shuffled, w)
  | S i' =>
      let '(x, w1) := Math_random w in
      let j := Z.to_nat ((x * (Z.of_nat i + 1)) `div` randomDenominator) in
      shuffleLoop i' (swap i j shuffled) w1
  end.

Definition shuffle {A : Type} (arr : list A) (w : World) : list A * World :=
  shuffleLoop (length arr - 1) arr w.

(** ** Grid construction and the spawner (lines 45-79) *)

(** [createRow = (rows, cb) => Array.from(Array(rows)).map((_, r) => cb(r))].
    [Array(rows)] raises a [RangeError] for a negative length, which
    [createRow] below models, and for a length from [2^32] on, which it
    does not: the definitions are for lengths below [2^32]. *)
Fixpoint mapResult {A B : Type} (cb : A → result B) (arr : list A)
  : result (list B) :=
  match arr with
  | [] => Ok []
  | a :: arr' =>
      let! b := cb a in
      let! bs := mapResult cb arr' in
      Ok (b :: bs)
  end.

Definition createRow {T : Type} (rows : Z) (cb : Z → result T)
  : result (list T) :=
  if rows <? 0 then RangeError else mapResult cb (createIndexArray rows).

Definition createEmptyGrid (rows cols : Z) : result Grid :=
  createRow rows (λ _, createRow cols (λ _, Ok (None : Cell))).

Definition createNewTile (r c : Z) (w : World) : Tile.t * World :=
  let '(index, w1) := nextTileIndex w in
  let id := getId index w1 in
  let '(x, w2) := Math_random w1 in
  ({| Tile.index := index;
      Tile.id := id;
      Tile.r := r;
      Tile.c := c;
      Tile.isNew := true;
      Tile.isMerging := false;
      Tile.canMerge := false;
      Tile.value := if 99 * randomDenominator <? 100 * x then 4 else 2 |},
   w2).

(** [arr.flatMap((x, i) => f(x, i))], counting [i] from [start]. *)
Fixpoint flatMapFrom {A B : Type} (start : Z) (f : A → Z → list B)
    (arr : list A) : list B :=
  match arr with
  | [] => []
  | a :: arr' => f a start ++ flatMapFrom (start + 1) f arr'
  end.

Definition getEmptyCellsLocation (grid : Grid) : list Location.t :=
  flatMapFrom 0 (λ row r,
    flatMapFrom 0 (λ (cell : Cell) c,
      match cell with
      | None => [Location.mk r c]
      | Some _ => []
      end) row) grid.

(** [.map(({ r, c }) => createNewTile(r, c))], left to right. *)
Fixpoint createTiles (cells : list Location.t) (w : World)
  : list Tile.t * World :=
  match cells with
  | [] => ([], w)
  | l :: cells' =>
      let '(tile, w1) := createNewTile (Location.r l) (Location.c l) w in
      let '(tiles, w2) := createTiles cells' w1 in
      (tile :: tiles, w2)
  end.

Definition createRandomTiles (emptyCells : list Location.t) (amount : Z)
    (w : World) : list Tile.t * World :=
  let tilesNumber :=
    if lengthZ emptyCells <? amount then lengthZ emptyCells else amount in
  if tilesNumber =? 0 then ([], w)
  else
    let '(shuffled, w1) := shuffle emptyCells w in
    createTiles (take (Z.to_nat tilesNumber) shuffled) w1.

(** [newTiles.forEach((tile) => { grid[tile.r][tile.c] = tile; })] *)
Definition placeTiles (grid : Grid) (newTiles : list Tile.t) : Grid :=
  foldl (λ g tile, setCell g (Tile.r tile) (Tile.c tile) (Some tile))
    grid newTiles.

(** ** The merge finalizer (lines 123-168) *)

Record MergeResult : Type := {
  mg_grid : Grid;
  mg_tiles : list Tile.t;
  mg_score : Z
}.

(** What the [row.map] callback builds for an occupied cell. *)
Definition mergedTile (tile : Tile.t) : Tile.t :=
  let newValue :=
    if Tile.canMerge tile then 2 * Tile.value tile else Tile.value tile in
  {| Tile.index := Tile.index tile;
     Tile.id := Tile.id tile;
     Tile.r := Tile.r tile;
     Tile.c := Tile.c tile;
     Tile.isNew := false;
     Tile.isMerging := Tile.canMerge tile;
     Tile.canMerge := false;
     Tile.value := newValue |}.

(** The callback of [row.map], with the [tiles] array and the [score]
    variable it updates as explicit state. *)
Definition mergeCell (acc : list Tile.t * Z) (cell : Cell)
  : (list Tile.t * Z) * Cell :=
  match cell with
  | Some tile =>
      let m := mergedTile tile in
      let '(tiles, score) := acc in
      ((tiles ++ [m],
        if Tile.canMerge tile then score + Tile.value m else score),
       Some m)
  | None => (acc, None)
  end.

(** [arr.map(cb)] for a callback with side effects on [S]. *)
Fixpoint mapAccum {S A B : Type} (cb : S → A → S * B) (acc : S) (arr : list A)
  : S * list B :=
  match arr with
  | [] => (acc, [])
  | a :: arr' =>
      let '(acc1, b) := cb acc a in
      let '(acc2, bs) := mapAccum cb acc1 arr' in
      (acc2, b :: bs)
  end.

Definition mergeAndCreateNewTiles (grid : Grid) (w : World)
  : result (MergeResult * World) :=
  match grid with
  | [] => TypeError
  | row0 :: _ =>
      let rows := lengthZ grid in
      let cols := lengthZ row0 in
      let '((tiles, score), newGrid) :=
        mapAccum (mapAccum mergeCell) ([], 0) grid in
      let emptyCells := getEmptyCellsLocation newGrid in
      let '(newTiles, w1) :=
        createRandomTiles emptyCells (if 24 <=? rows * cols then 2 else 1) w in
      Ok ({| mg_grid := placeTiles newGrid newTiles;
             mg_tiles := tiles ++ newTiles;
             mg_score := score |}, w1)
  end.

(** ** Full reset (lines 234-248) *)

Record ResetResult : Type := {
  rs_grid : Grid;
  rs_tiles : list Tile.t
}.

Definition resetGameBoard (rows cols : Z) (w : World)
  : result (ResetResult * World) :=
  let w0 := resetTileIndex w in
  let! grid := createEmptyGrid rows cols in
  let emptyCells := getEmptyCellsLocation grid in
  let '(newTiles, w1) :=
    createRandomTiles emptyCells (if 24 <=? rows * cols then 4 else 2) w0 in
  Ok ({| rs_grid := placeTiles grid newTiles; rs_tiles := newTiles |}, w1).

(** ** Ordering and the terminal-state detector (lines 90-121) *)

(** [tiles.sort((t1, t2) => t1.index - t2.index)]: [Array.prototype.sort]
    is stable, so tiles of equal index keep their order. *)
Fixpoint insertTile (t : Tile.t) (sorted : list Tile.t) : list Tile.t :=
  match sorted with
  | [] => [t]
  | x :: sorted' =>
      if Tile.index t <=? Tile.index x then t :: sorted
      else x :: insertTile t sorted'
  end.

Definition sortTiles (tiles : list Tile.t) : list Tile.t :=
  foldr insertTile [] tiles.

Definition isWin (tiles : list Tile.t) : bool :=
  existsb (λ t, Tile.value t =? 2048) tiles.

Definition dirs : list Vector.t :=
  [DIRECTION_MAP.Left; DIRECTION_MAP.Right;
   DIRECTION_MAP.Up; DIRECTION_MAP.Down].

(** The body of the inner [for] loop of [canGameContinue]: does looking from
    [tile] in direction [dir] make the function return [true]? *)
Definition canMoveTowards (grid : Grid) (totalRows totalCols : Z)
    (tile : Tile.t) (dir : Vector.t) : bool :=
  let nextRow := clamp (Tile.r tile + Vector.r dir) 0 (totalRows - 1) in
  let nextCol := clamp (Tile.c tile + Vector.c dir) 0 (totalCols - 1) in
  if negb (nextRow =? Tile.r tile) || negb (nextCol =? Tile.c tile) then
    match getCell grid nextRow nextCol with
    | None => true
    | Some t => Tile.value t =? Tile.value tile
    end
  else false.

Definition canGameContinue (grid : Grid) (tiles : list Tile.t) : result bool :=
  match grid with
  | [] => TypeError
  | row0 :: _ =>
      let totalRows := lengthZ grid in
      let totalCols := lengthZ row0 in
      if lengthZ tiles <? totalRows * totalCols then Ok true
      else Ok (existsb (λ tile,
                 existsb (canMoveTowards grid totalRows totalCols tile) dirs)
               tiles)
  end.

(** ** The hook (lines 250-332)

    The refs and state cells of [useGameBoard].  The host-side values the
    hook reads ([gameStatus]) or writes ([setGameStatus], [addScore]) are
    arguments and results of the functions below. *)

Record Hook : Type := {
  gridRef : Grid;
  tiles : list Tile.t;
  pendingStackRef : list Z;
  moving : bool;
  pauseRef : bool
}.

(** [onMove] (lines 264-280). *)
Definition onMove (dir : Vector.t) (h : Hook) : result Hook :=
  if (lengthZ (pendingStackRef h) =? 0) && negb (pauseRef h) then
    let! res := moveInDirection (gridRef h) dir in
    if 0 <? lengthZ (mv_moveStack res) then
      Ok {| gridRef := mv_grid res;
            tiles := sortTiles (mv_tiles res);
            pendingStackRef := mv_moveStack res;
            moving := true;
            pauseRef := pauseRef h |}
    else
      Ok {| gridRef := mv_grid res;
            tiles := tiles h;
            pendingStackRef := mv_moveStack res;
            moving := moving h;
            pauseRef := pauseRef h |}
  else Ok h.

(** [arr.pop()] drops the last element; on an empty array it does nothing. *)
Definition pop {A : Type} (arr : list A) : list A := removelast arr.

(** [onMovePending] (lines 282-285). *)
Definition onMovePending (h : Hook) : Hook :=
  let pending := pop (pendingStackRef h) in
  {| gridRef := gridRef h;
     tiles := tiles h;
     pendingStackRef := pending;
     moving := 0 <? lengthZ pending;
     pauseRef := pauseRef h |}.

(** The layout effect of lines 287-299.  React runs it after the first
    render and after every render in which [moving] differs from the render
    before ([settleDue]); it passes a score to [addScore] when it acts. *)
Definition settleDue (before after : Hook) : bool :=
  negb (eqb (moving before) (moving after)).

Definition settleEffect (h : Hook) (w : World)
  : result (Hook * option Z * World) :=
  if negb (moving h) then
    let! (res, w1) := mergeAndCreateNewTiles (gridRef h) w in
    Ok ({| gridRef := mg_grid res;
           tiles := sortTiles (mg_tiles res);
           pendingStackRef := pendingStackRef h;
           moving := moving h;
           pauseRef := pauseRef h |}, Some (mg_score res), w1)
  else Ok (h, None, w).

(** The layout effect of lines 301-303. *)
Definition pauseEffect (pause : bool) (h : Hook) : Hook :=
  {| gridRef := gridRef h;
     tiles := tiles h;
     pendingStackRef := pendingStackRef h;
     moving := moving h;
     pauseRef := pause |}.

(** The effect of lines 312-329.  The [option GameStatus] is the argument of
    the call of [setGameStatus], if the effect makes one. *)
Definition statusEffect (gameStatus : GameStatus) (h : Hook) (w : World)
  : result (Hook * option GameStatus * World) :=
  match gameStatus with
  | restart =>
      match gridRef h with
      | [] => TypeError
      | row0 :: _ =>
          let r := lengthZ (gridRef h) in
          let c := lengthZ row0 in
          let! (res, w1) := resetGameBoard r c w in
          Ok ({| gridRef := rs_grid res;
                 tiles := rs_tiles res;
                 pendingStackRef := pendingStackRef h;
                 moving := moving h;
                 pauseRef := pauseRef h |}, Some running, w1)
      end
  | _ =>
      if (match gameStatus with running => true | _ => false end)
         && isWin (tiles h)
      then Ok (h, Some win, w)
      else
        match gameStatus with
        | lost => Ok (h, None, w)
        | _ =>
            let! go := canGameContinue (gridRef h) (tiles h) in
            if negb go then Ok (h, Some lost, w) else Ok (h, None, w)
        end
  end.

(** ** Predicates on grids used by the specifications

    Decidable properties are boolean functions, so that they can be
    evaluated on concrete boards. *)

(** The tiles of a grid, row by row. *)
Definition gridTiles (grid : Grid) : list Tile.t := omap id (concat grid).

(** [rows] rows of [cols] cells each. *)
Definition rectangular (rows cols : Z) (grid : Grid) : bool :=
  (lengthZ grid =? rows) && forallb (λ row, lengthZ row =? cols) grid.

(** Every tile carries the coordinates of the cell that holds it. *)
Definition cellPositioned (i j : nat) (cell : Cell) : bool :=
  match cell with
  | Some t => (Tile.r t =? Z.of_nat i) && (Tile.c t =? Z.of_nat j)
  | None => true
  end.

Definition positioned (grid : Grid) : bool :=
  forallb (λ ir, forallb (λ jc, cellPositioned ir.1 jc.1 jc.2)
                   (imap pair ir.2))
    (imap pair grid).

Definition wellFormed (rows cols : Z) (grid : Grid) : bool :=
  (0 <? rows) && rectangular rows cols grid && positioned grid.

Definition position (t : Tile.t) : Z * Z := (Tile.r t, Tile.c t).

(** The invariant of the sliding loop: the current cell is on the board and
    [next] is one clamped step ahead of it. *)
Definition onBoard (dir : Vector.t) (totalRows totalCols : Z) (pos : Pos)
  : Prop :=
  0 ≤ currRow pos < totalRows ∧ 0 ≤ currCol pos < totalCols ∧
  nextRow pos = clamp (currRow pos + Vector.r dir) 0 (totalRows - 1) ∧
  nextCol pos = clamp (currCol pos + Vector.c dir) 0 (totalCols - 1).

(** How far the current cell is from the edge the tile heads for: the
    variant of the sliding loop. *)
Definition distance (dir : Vector.t) (totalRows totalCols : Z) (pos : Pos)
  : Z :=
  (if 0 <? Vector.r dir then totalRows - 1 - currRow pos
   else if Vector.r dir <? 0 then currRow pos else 0) +
  (if 0 <? Vector.c dir then totalCols - 1 - currCol pos
   else if Vector.c dir <? 0 then currCol pos else 0).

(** Building test grids: a settled tile of a given value sitting in its
    cell. *)
Definition tileAt (index r c value : Z) : Tile.t :=
  {| Tile.index := index; Tile.id := pretty index; Tile.r := r; Tile.c := c;
     Tile.isNew := false; Tile.isMerging := false; Tile.canMerge := false;
     Tile.value := value |}.

Definition row2222 : Grid :=
  [[Some (tileAt 0 0 0 2); Some (tileAt 1 0 1 2);
    Some (tileAt 2 0 2 2); Some (tileAt 3 0 3 2)]].

Definition world0 : World :=
  {| _tileIndex := 0; now := 1700000000000;
     randomSource := λ _, 0; randomCalls := 0 |}.

(** What every step of a move preserves: the shape of the grid, the
    position of each tile in it, and at most one reported tile per visited
    cell. *)
Definition moveInvariant (rows cols : Z) (k : nat) (acc : MoveResult) : Prop :=
  rectangular rows cols (mv_grid acc) = true ∧
  positioned (mv_grid acc) = true ∧
  (length (mv_tiles acc) ≤ k)%nat.

(** A tile that cannot leave its cell in direction [dir]: the next cell is
    off the board (clamping gives the cell itself) or holds a tile it cannot
    merge with. *)
Definition cellStuck (grid : Grid) (dir : Vector.t) (totalRows totalCols : Z)
    (row col : Z) : bool :=
  match getCell grid row col with
  | None => true
  | Some tile =>
      let nextRow := clamp (row + Vector.r dir) 0 (totalRows - 1) in
      let nextCol := clamp (col + Vector.c dir) 0 (totalCols - 1) in
      if negb (nextRow =? row) || negb (nextCol =? col) then
        match getCell grid nextRow nextCol with
        | Some nextTile =>
            negb ((Tile.value nextTile =? Tile.value tile)
                  && negb (Tile.canMerge nextTile))
        | None => false
        end
      else true
  end.

(** Every tile is pressed against the edge [dir] points to, and no two
    neighbours along [dir] can merge. *)
Definition pressed (grid : Grid) (dir : Vector.t) : bool :=
  match grid with
  | [] => false
  | row0 :: _ =>
      let totalRows := lengthZ grid in
      let totalCols := lengthZ row0 in
      forallb (λ row,
        forallb (cellStuck grid dir totalRows totalCols row)
          (createIndexArray totalCols))
        (createIndexArray totalRows)
  end.

(** A full column whose neighbours all differ, and a hook holding it. *)
Definition column248 : Grid :=
  [[Some (tileAt 0 0 0 2)]; [Some (tileAt 1 1 0 4)]; [Some (tileAt 2 2 0 8)]].

Definition hookOf (grid : Grid) : Hook :=
  {| gridRef := grid; tiles := gridTiles grid; pendingStackRef := [];
     moving := false; pauseRef := false |}.

(** A hook in the middle of a move (two tiles still in flight), and a paused
    one. *)
Definition hookInFlight : Hook :=
  {| gridRef := row2222; tiles := gridTiles row2222;
     pendingStackRef := [1; 3]; moving := true; pauseRef := false |}.

Definition hookPaused : Hook :=
  {| gridRef := row2222; tiles := gridTiles row2222;
     pendingStackRef := []; moving := false; pauseRef := true |}.

(** A board of one cell cannot continue; one holding 2048 is also a win. *)
Definition board2 : Grid := [[Some (tileAt 0 0 0 2)]].
Definition board2048 : Grid := [[Some (tileAt 0 0 0 2048)]].

(** [sumZ] adds up a list of numbers. *)
Definition sumZ (l : list Z) : Z := foldr Z.add 0 l.

(** The score of a settle cycle as the specification words it: the sum of
    the doubled values of the tiles whose [canMerge] flag is set. *)
Definition mergedValueSum (tiles : list Tile.t) : Z :=
  sumZ ((λ t, if Tile.canMerge t then 2 * Tile.value t else 0) <$> tiles).

(** A tile as the spawner makes it: new, not merging, not mergeable, worth 2
    or 4. *)
Definition freshTile (t : Tile.t) : Prop :=
  Tile.isNew t = true ∧ Tile.isMerging t = false ∧ Tile.canMerge t = false ∧
  (Tile.value t = 2 ∨ Tile.value t = 4).

(** A row after a merge to the left: two merge targets, two empty cells. *)
Definition rowMergedLeft : Grid :=
  [[Some (updatedTile (tileAt 1 0 1 2) 0 0 (Some (tileAt 0 0 0 2)));
    Some (updatedTile (tileAt 3 0 3 2) 0 1 (Some (tileAt 2 0 1 2)));
    None; None]].

(** The state of the hook at its first render (lines 258-262), and the
    effect of lines 305-310, which React runs after the first render and
    whenever [rows] or [cols] change. *)
Definition initialHook (rows cols : Z) (pause : bool) : result Hook :=
  let! grid := createEmptyGrid rows cols in
  Ok {| gridRef := grid; tiles := []; pendingStackRef := [];
        moving := false; pauseRef := pause |}.

Definition boardEffect (rows cols : Z) (h : Hook) (w : World)
  : result (Hook * option GameStatus * World) :=
  let! (res, w1) := resetGameBoard rows cols w in
  Ok ({| gridRef := rs_grid res;
         tiles := rs_tiles res;
         pendingStackRef := pendingStackRef h;
         moving := moving h;
         pauseRef := pauseRef h |}, Some running, w1).

(** Mounting the hook: first render, then the layout effects, then the
    effects, with no time passing in between. *)
Definition mount (rows cols : Z) (pause : bool) (w : World)
  : result (Hook * Hook * World) :=
  let! h0 := initialHook rows cols pause in
  let! (h1, _, w1) := settleEffect h0 w in
  let! (h2, _, w2) := boardEffect rows cols (pauseEffect pause h1) w1 in
  Ok (h1, h2, w2).

(** A world whose random numbers are 0 for the first sixteen draws and 1/2
    afterwards. *)
Definition world1 : World :=
  {| _tileIndex := 0; now := 1700000000000;
     randomSource := λ k, if (k <? 16)%nat then 0 else 2 ^ 52;
     randomCalls := 0 |}.

(** The words of the loss condition.  A grid is full when every cell of the
    board holds a tile; the axis neighbours of [(r, c)] are the two cells
    next to it in its row and the two next to it in its column; a tile
    sitting at [(r, c)] has an open neighbour when an axis neighbour that
    lies on the board is empty or holds a tile of the same value. *)
Definition fullGrid (rows cols : Z) (grid : Grid) : Prop :=
  ∀ r c, 0 ≤ r < rows → 0 ≤ c < cols → getCell grid r c ≠ None.

Definition axisNeighbour (r c r' c' : Z) : Prop :=
  (r' = r ∧ (c' = c - 1 ∨ c' = c + 1)) ∨
  (c' = c ∧ (r' = r - 1 ∨ r' = r + 1)).

Definition openNeighbour (grid : Grid) (rows cols : Z) (r c value : Z)
  : Prop :=
  ∃ r' c', axisNeighbour r c r' c' ∧
    0 ≤ r' < rows ∧ 0 ≤ c' < cols ∧
    (getCell grid r' c' = None ∨
     ∃ t, getCell grid r' c' = Some t ∧ Tile.value t = value).

(** A full 2 x 2 board without equal neighbours, the same board with one
    pair of equal neighbours, and a board with an empty cell. *)
Definition boardStuck : Grid :=
  [[Some (tileAt 0 0 0 2); Some (tileAt 1 0 1 4)];
   [Some (tileAt 2 1 0 4); Some (tileAt 3 1 1 2)]].

Definition boardPair : Grid :=
  [[Some (tileAt 0 0 0 2); Some (tileAt 1 0 1 4)];
   [Some (tileAt 2 1 0 4); Some (tileAt 3 1 1 4)]].

Definition boardGap : Grid :=
  [[Some (tileAt 0 0 0 2); Some (tileAt 1 0 1 4)];
   [Some (tileAt 2 1 0 8); None]].

(** A settled grid: no tile carries a pending merge. *)
Definition settled (grid : Grid) : bool :=
  forallb (λ t, negb (Tile.canMerge t)) (gridTiles grid).

(** The tiles of a grid that are merge targets, and sums over the tiles of
    a grid. *)
Definition mergeTargets (grid : Grid) : list Tile.t :=
  filter (λ t, Tile.canMerge t = true) (gridTiles grid).

Definition cellWeight (wt : Tile.t → Z) (cell : Cell) : Z :=
  match cell with
  | Some t => wt t
  | None => 0
  end.

Definition gridWeight (wt : Tile.t → Z) (grid : Grid) : Z :=
  sumZ (wt <$> gridTiles grid).

(** A tile counts once, a merge target twice; a tile weighs its value, a
    merge target twice its value.  A move keeps both sums. *)
Definition headCount (t : Tile.t) : Z := if Tile.canMerge t then 2 else 1.
Definition pendingValue (t : Tile.t) : Z :=
  if Tile.canMerge t then 2 * Tile.value t else Tile.value t.

(** [x] comes after [a] in the traversal of an axis along which the move has
    component [d]: the traversal runs against the move. *)
Definition behind (d a x : Z) : Prop := if 0 <? d then x < a else a < x.

(** The cells a move has yet to visit hold what they held at its start:
    the rows [rowsLeft], and the columns [colsLeft] of the row [row]. *)
Definition undisturbed (grid : Grid) (cols : Z) (rowsLeft : list Z) (row : Z)
    (colsLeft : list Z) (newGrid : Grid) : Prop :=
  ∀ r c, (r ∈ rowsLeft ∧ 0 ≤ c < cols) ∨ (r = row ∧ c ∈ colsLeft) →
         getCell newGrid r c = getCell grid r c.

Definition conserving (wt : Tile.t → Z) (grid : Grid) (rows cols : Z)
    (rowsLeft : list Z) (row : Z) (colsLeft : list Z) (acc : MoveResult)
  : Prop :=
  rectangular rows cols (mv_grid acc) = true ∧
  undisturbed grid cols rowsLeft row colsLeft (mv_grid acc) ∧
  gridWeight wt (mv_grid acc) = gridWeight wt grid.

(** A weight a merge adds up: a moved tile weighs what the tile weighed
    before, plus what the tile it landed on weighed. *)
Definition additive (wt : Tile.t → Z) : Prop :=
  ∀ tile r c target,
    Tile.canMerge tile = false →
    (∀ t, target = Some t →
          Tile.canMerge t = false ∧ Tile.value t = Tile.value tile) →
    wt (updatedTile tile r c target) = wt tile + cellWeight wt target.

(** One whole cycle of the hook: a directional input, one completion signal
    for each tile that moved, and the settle effect if it is due. *)
Definition moveAndSettle (dir : Vector.t) (h : Hook) (w : World)
  : result (Hook * option Z * World) :=
  let! h1 := onMove dir h in
  let h2 := Nat.iter (length (pendingStackRef h1)) onMovePending h1 in
  if settleDue h1 h2 then settleEffect h2 w else Ok (h2, None, w).

(** What a cycle shows: the values on the board, the pending stack, and the
    score passed to [addScore]. *)
Definition cycleSummary (r : result (Hook * option Z * World))
  : option (list (list (option Z)) * list Z * option Z) :=
  match r with
  | Ok (h, score, _) =>
      Some ((λ row : list Cell, option_map Tile.value <$> row) <$> gridRef h,
            pendingStackRef h, score)
  | _ => None
  end.

(** The order [sortTiles] sorts by. *)
Definition byIndex (t1 t2 : Tile.t) : Prop := Tile.index t1 ≤ Tile.index t2.

(** The cell a tile says it is in. *)
Definition locationOf (t : Tile.t) : Location.t :=
  Location.mk (Tile.r t) (Tile.c t).

(** What a move reports about its tiles: the animation flags are cleared,
    and the move stack lists indices of reported tiles, in their order. *)
Definition reporting (acc : MoveResult) : Prop :=
  Forall (λ t, Tile.isNew t = false ∧ Tile.isMerging t = false)
    (mv_tiles acc) ∧
  mv_moveStack acc `sublist_of` (Tile.index <$> mv_tiles acc).

(** What makes a tile the same tile across moves: its index, its identifier
    and its value. *)
Definition identityOf (t : Tile.t) : Z * string * Z :=
  (Tile.index t, Tile.id t, Tile.value t).

(** Every tile of [newGrid] is a tile of [grid], possibly somewhere else
    and with other flags. *)
Definition survivorsOf (grid newGrid : Grid) : Prop :=
  ∀ r c t, getCell newGrid r c = Some t →
           ∃ t0, t0 ∈ gridTiles grid ∧ identityOf t = identityOf t0.

(** A power of two, at least 2. *)
Definition powerOfTwo (v : Z) : bool := (2 <=? v) && (v =? 2 ^ Z.log2 v).

Definition valuesOk (grid : Grid) : bool :=
  forallb (λ t, powerOfTwo (Tile.value t)) (gridTiles grid).

(** A two by two board with a pair to merge in its first row. *)
Definition board248 : Grid :=
  [[Some (tileAt 0 0 0 2); Some (tileAt 1 0 1 2)];
   [Some (tileAt 2 1 0 4); Some (tileAt 3 1 1 8)]].

(** The hook at rest between two moves: a well-formed grid without merge
    marks, the tile list holding exactly the tiles of the grid, no slide
    pending, not moving, not paused. *)
Definition idle (rows cols : Z) (h : Hook) : Prop :=
  wellFormed rows cols (gridRef h) = true ∧
  settled (gridRef h) = true ∧
  tiles h ≡ₚ gridTiles (gridRef h) ∧
  pendingStackRef h = [] ∧
  moving h = false ∧
  pauseRef h = false.

(** The tiles of row [row] in the columns [cols], in that order, and the
    tiles of the rows [rows], each read through [cols]. *)
Definition readRow (grid : Grid) (row : Z) (cols : list Z) : list Tile.t :=
  omap (getCell grid row) cols.

Definition readRows (grid : Grid) (rows cols : list Z) : list Tile.t :=
  rows ≫= λ row, readRow grid row cols.

(** The loop invariant of the traversal for the reported tiles: the cells
    still to visit are as in [grid], and the tiles reported so far, then the
    tiles still to visit, read as [order]. *)
Definition tracking (grid : Grid) (rows cols : Z) (order : list (Z * string * Z))
    (travCols rowsLeft : list Z) (row : Z) (colsLeft : list Z)
    (acc : MoveResult) : Prop :=
  rectangular rows cols (mv_grid acc) = true ∧
  undisturbed grid cols rowsLeft row colsLeft (mv_grid acc) ∧
  identityOf <$> (mv_tiles acc ++ readRow grid row colsLeft
                    ++ readRows grid rowsLeft travCols) = order.

(** [getTileColor = (v) => `tile${clamp(v, 2, 2048)}`] (common.ts, line 31),
    for an integer [v]. *)
Definition getTileColor (v : Z) : string := "tile" +:+ pretty (clamp v 2 2048).

(** A hook in the middle of a move, for the restart. *)
Definition hookMidMove : Hook :=
  {| gridRef := board248; tiles := gridTiles board248;
     pendingStackRef := [1; 3]; moving := true; pauseRef := false |}.

(** * Properties *)

(** ** Arithmetic of [clamp] and array access *)

Lemma clamp_range d n : 0 < n → 0 ≤ clamp d 0 (n - 1) < n.
Proof. unfold clamp. lia. Qed.

Lemma clamp_id d n : 0 ≤ d < n → clamp d 0 (n - 1) = d.
Proof. unfold clamp. lia. Qed.

Lemma lookupZ_Some {A} (arr : list A) i x :
  lookupZ arr i = Some x ↔ 0 ≤ i ∧ arr !! Z.to_nat i = Some x.
Proof.
  unfold lookupZ. destruct (Z.ltb_spec i 0); split; try lia; intuition congruence.
Qed.

Lemma lookupZ_of_nat {A} (arr : list A) (n : nat) :
  lookupZ arr (Z.of_nat n) = arr !! n.
Proof.
  unfold lookupZ. destruct (Z.ltb_spec (Z.of_nat n) 0); [lia|].
  by rewrite Nat2Z.id.
Qed.

Lemma lookupZ_lt {A} (arr : list A) i :
  0 ≤ i < lengthZ arr → ∃ x, lookupZ arr i = Some x.
Proof.
  unfold lengthZ. intros Hi.
  destruct (lookup_lt_is_Some_2 arr (Z.to_nat i)) as [x Hx]; [lia|].
  exists x. apply lookupZ_Some. split; [lia|done].
Qed.

Lemma lookupZ_range {A} (arr : list A) i x :
  lookupZ arr i = Some x → 0 ≤ i < lengthZ arr.
Proof.
  intros [Hi Hx]%lookupZ_Some. apply lookup_lt_Some in Hx.
  unfold lengthZ. lia.
Qed.

Lemma getCell_Some grid r c t :
  getCell grid r c = Some t ↔
  ∃ row, lookupZ grid r = Some row ∧ lookupZ row c = Some (Some t).
Proof.
  unfold getCell. split.
  - destruct (lookupZ grid r) as [row|]; [|done].
    destruct (lookupZ row c) as [cell|] eqn:Hc; [|done].
    intros ->. eauto.
  - intros (row & -> & ->). done.
Qed.

Lemma getCell_of_nat grid (i j : nat) :
  getCell grid (Z.of_nat i) (Z.of_nat j) =
  match grid !! i with
  | Some row => match row !! j with Some cell => cell | None => None end
  | None => None
  end.
Proof.
  unfold getCell. rewrite lookupZ_of_nat.
  destruct (grid !! i); [|done]. by rewrite lookupZ_of_nat.
Qed.

(** Prop-level readings of the boolean predicates. *)

Lemma rectangular_spec rows cols grid :
  rectangular rows cols grid = true ↔
  lengthZ grid = rows ∧ ∀ i row, grid !! i = Some row → lengthZ row = cols.
Proof.
  unfold rectangular. rewrite andb_true_iff, Z.eqb_eq.
  rewrite <- Is_true_true, forallb_True, Forall_lookup.
  split; intros [? H]; (split; [done|]); intros i row Hrow;
    specialize (H i row Hrow).
  - by apply Z.eqb_eq, Is_true_true.
  - by apply Is_true_true, Z.eqb_eq.
Qed.

Lemma positioned_spec grid :
  positioned grid = true ↔
  ∀ (i j : nat) row t, grid !! i = Some row → row !! j = Some (Some t) →
    Tile.r t = Z.of_nat i ∧ Tile.c t = Z.of_nat j.
Proof.
  unfold positioned. rewrite <- Is_true_true, forallb_True, Forall_lookup.
  split.
  - intros H i j row t Hrow Hcell.
    specialize (H i (i, row)). rewrite list_lookup_imap, Hrow in H.
    specialize (H eq_refl). simpl in H.
    rewrite forallb_True, Forall_lookup in H.
    specialize (H j (j, Some t)). rewrite list_lookup_imap, Hcell in H.
    specialize (H eq_refl). simpl in H.
    apply Is_true_true, andb_true_iff in H. lia.
  - intros H i [i' row] Hrow. rewrite list_lookup_imap in Hrow.
    destruct (grid !! i) as [row'|] eqn:Hi; simplify_eq/=.
    rewrite forallb_True, Forall_lookup. intros j [j' cell] Hcell.
    rewrite list_lookup_imap in Hcell.
    destruct (row !! j) as [cell'|] eqn:Hj; simplify_eq/=.
    destruct cell as [t|]; simpl; [|done].
    destruct (H _ _ _ _ Hi Hj) as [-> ->].
    rewrite !Z.eqb_refl. done.
Qed.

Lemma positioned_getCell grid :
  positioned grid = true ↔
  ∀ r c t, getCell grid r c = Some t → Tile.r t = r ∧ Tile.c t = c.
Proof.
  rewrite positioned_spec. split.
  - intros H r c t (row & [Hr Hrow]%lookupZ_Some & [Hc Hcell]%lookupZ_Some)%getCell_Some.
    destruct (H _ _ _ _ Hrow Hcell). lia.
  - intros H i j row t Hrow Hcell.
    apply (H (Z.of_nat i) (Z.of_nat j) t).
    rewrite getCell_of_nat, Hrow, Hcell. done.
Qed.

(** ** Writing a cell *)

Lemma setCell_rectangular rows cols grid r c cell :
  rectangular rows cols grid = true →
  rectangular rows cols (setCell grid r c cell) = true.
Proof.
  rewrite !rectangular_spec. intros [Hlen Hrows]. unfold setCell.
  destruct ((r <? 0) || (c <? 0)); [done|].
  destruct (grid !! Z.to_nat r) as [row|] eqn:Hrow; [|done].
  unfold lengthZ in *. rewrite length_insert. split; [done|].
  intros i row'. rewrite list_lookup_insert.
  case_decide as Hi.
  - intros [= <-]. rewrite length_insert. eauto.
  - eauto.
Qed.

Lemma getCell_setCell rows cols grid r c cell r' c' :
  rectangular rows cols grid = true →
  0 ≤ r < rows → 0 ≤ c < cols →
  getCell (setCell grid r c cell) r' c' =
  if (r' =? r) && (c' =? c) then cell else getCell grid r' c'.
Proof.
  rewrite rectangular_spec. intros [Hlen Hrows] Hr Hc.
  unfold setCell.
  destruct (Z.ltb_spec r 0); [lia|]. destruct (Z.ltb_spec c 0); [lia|].
  simpl. unfold lengthZ in *.
  destruct (lookup_lt_is_Some_2 grid (Z.to_nat r)) as [row Hrow]; [lia|].
  rewrite Hrow. pose proof (Hrows _ _ Hrow) as Hlenrow.
  unfold getCell, lookupZ.
  destruct (Z.ltb_spec r' 0).
  { destruct (Z.eqb_spec r' r); [lia|done]. }
  rewrite list_lookup_insert.
  case_decide as Hi.
  - destruct (Z.eqb_spec r' r); [|lia]. subst r'. rewrite Hrow. simpl.
    destruct (Z.ltb_spec c' 0).
    { destruct (Z.eqb_spec c' c); [lia|done]. }
    rewrite list_lookup_insert.
    case_decide as Hj.
    + destruct (Z.eqb_spec c' c); [done|lia].
    + destruct (Z.eqb_spec c' c); [|done]. subst c'. lia.
  - destruct (Z.eqb_spec r' r); [|done]. subst r'. lia.
Qed.

Lemma setCell_positioned rows cols grid r c cell :
  rectangular rows cols grid = true →
  0 ≤ r < rows → 0 ≤ c < cols →
  positioned grid = true →
  (∀ t, cell = Some t → Tile.r t = r ∧ Tile.c t = c) →
  positioned (setCell grid r c cell) = true.
Proof.
  intros Hrect Hr Hc Hpos Hcell. apply positioned_getCell.
  pose proof (proj1 (positioned_getCell grid) Hpos) as Hold.
  intros r' c' t. rewrite (getCell_setCell rows cols) by done.
  destruct (Z.eqb_spec r' r); destruct (Z.eqb_spec c' c); simpl; subst; eauto.
Qed.

(** ** The sliding loop *)

Section slide_facts.
Variables (newGrid : Grid) (dir : Vector.t) (totalRows totalCols : Z).
Variable tile : Tile.t.

Lemma slide_total fuel pos :
  onBoard dir totalRows totalCols pos →
  distance dir totalRows totalCols pos < Z.of_nat fuel →
  ∃ pos', slide fuel newGrid dir totalRows totalCols tile pos = Ok pos' ∧
          0 ≤ currRow pos' < totalRows ∧ 0 ≤ currCol pos' < totalCols.
Proof.
  revert pos. induction fuel as [|fuel IH]; intros pos Hon Hd.
  - exfalso. destruct Hon as (? & ? & _). unfold distance in Hd.
    destruct (0 <? Vector.r dir), (Vector.r dir <? 0),
      (0 <? Vector.c dir), (Vector.c dir <? 0); lia.
  - simpl.
    destruct (negb (nextRow pos =? currRow pos)
              || negb (nextCol pos =? currCol pos)) eqn:Hgo.
    2:{ exists pos. destruct Hon as (? & ? & _). done. }
    destruct Hon as (Hr & Hc & Hnr & Hnc).
    assert (0 ≤ nextRow pos < totalRows) as Hr'
      by (rewrite Hnr; apply clamp_range; lia).
    assert (0 ≤ nextCol pos < totalCols) as Hc'
      by (rewrite Hnc; apply clamp_range; lia).
    destruct (getCell newGrid (nextRow pos) (nextCol pos)) as [nextTile|].
    + destruct ((Tile.value nextTile =? Tile.value tile)
                && negb (Tile.canMerge nextTile)); eauto.
    + apply IH.
      * repeat split; simpl; lia.
      * apply orb_true_iff in Hgo.
        unfold distance in *. simpl. unfold clamp in *.
        destruct (Z.ltb_spec 0 (Vector.r dir)),
          (Z.ltb_spec (Vector.r dir) 0),
          (Z.ltb_spec 0 (Vector.c dir)),
          (Z.ltb_spec (Vector.c dir) 0);
          destruct Hgo as [Hgo|Hgo];
          apply negb_true_iff, Z.eqb_neq in Hgo; lia.
Qed.

(** Where the loop can stop: on the cell it started from, on an empty
    cell, or on a tile of the same value that no earlier tile of this move
    has merged into. *)
Lemma slide_landing fuel pos pos' :
  slide fuel newGrid dir totalRows totalCols tile pos = Ok pos' →
  (currRow pos' = currRow pos ∧ currCol pos' = currCol pos) ∨
  getCell newGrid (currRow pos') (currCol pos') = None ∨
  ∃ target, getCell newGrid (currRow pos') (currCol pos') = Some target ∧
            Tile.value target = Tile.value tile ∧
            Tile.canMerge target = false.
Proof.
  revert pos. induction fuel as [|fuel IH]; intros pos; simpl.
  - destruct (negb _ || negb _); [done|]. intros [= ->]. auto.
  - destruct (negb _ || negb _); [|intros [= ->]; auto].
    destruct (getCell newGrid (nextRow pos) (nextCol pos))
      as [nextTile|] eqn:Hnext.
    + destruct ((Tile.value nextTile =? Tile.value tile)
                && negb (Tile.canMerge nextTile)) eqn:Hm.
      * intros [= <-]. simpl. right; right. exists nextTile.
        apply andb_true_iff in Hm as [Hv Hf].
        apply Z.eqb_eq in Hv. apply negb_true_iff in Hf. done.
      * intros [= ->]. auto.
    + intros Hs. destruct (IH _ Hs) as [[Hr Hc]|H]; [|auto].
      simpl in *. right; left. by rewrite Hr, Hc.
Qed.
End slide_facts.

(** ** Iteration *)

Lemma elem_of_createIndexArray x len : x ∈ createIndexArray len ↔ 0 ≤ x < len.
Proof.
  unfold createIndexArray. rewrite list_elem_of_fmap. split.
  - intros (n & -> & Hn%elem_of_seq). lia.
  - intros Hx. exists (Z.to_nat x). split; [lia|]. apply elem_of_seq. lia.
Qed.

Lemma length_createIndexArray len : length (createIndexArray len) = Z.to_nat len.
Proof. unfold createIndexArray. by rewrite length_fmap, length_seq. Qed.

Lemma elem_of_trav_rows x rows cols dir :
  x ∈ trav_rows (createTraversalMap rows cols dir) ↔ 0 ≤ x < rows.
Proof.
  simpl. destruct (0 <? Vector.r dir); rewrite ?elem_of_reverse;
    apply elem_of_createIndexArray.
Qed.

Lemma elem_of_trav_cols x rows cols dir :
  x ∈ trav_cols (createTraversalMap rows cols dir) ↔ 0 ≤ x < cols.
Proof.
  simpl. destruct (0 <? Vector.c dir); rewrite ?elem_of_reverse;
    apply elem_of_createIndexArray.
Qed.

Lemma length_trav_rows rows cols dir :
  length (trav_rows (createTraversalMap rows cols dir)) = Z.to_nat rows.
Proof.
  simpl. destruct (0 <? Vector.r dir); rewrite ?length_reverse;
    apply length_createIndexArray.
Qed.

Lemma length_trav_cols rows cols dir :
  length (trav_cols (createTraversalMap rows cols dir)) = Z.to_nat cols.
Proof.
  simpl. destruct (0 <? Vector.c dir); rewrite ?length_reverse;
    apply length_createIndexArray.
Qed.

(** An invariant that every step of a [forEach] re-establishes holds at its
    end, and the [forEach] does not fail.  The invariant may count the steps
    taken, [w] for each element. *)
Lemma forEach_invariant {A S} (body : S → A → result S) (I : nat → S → Prop)
    (w : nat) arr s n :
  (∀ k s a, a ∈ arr → I k s → ∃ s', body s a = Ok s' ∧ I (k + w)%nat s') →
  I n s →
  ∃ s', forEach body arr s = Ok s' ∧ I (n + length arr * w)%nat s'.
Proof.
  revert s n. induction arr as [|a arr IH]; intros s n Hbody HI; simpl.
  - exists s. split; [done|]. by replace (n + 0)%nat with n by lia.
  - destruct (Hbody n s a) as (s1 & -> & HI1); [left|done|]. simpl.
    destruct (IH s1 (n + w)%nat) as (s' & -> & HI'); [|done|].
    + intros k s0 a0 Ha0. apply Hbody. by right.
    + exists s'. split; [done|].
      by replace (n + (w + length arr * w))%nat
        with (n + w + length arr * w)%nat by lia.
Qed.

(** The sliding loop started from a cell of the board finishes within its
    budget, on a cell of the board. *)
Lemma moveCell_slides dir totalRows totalCols row col newGrid tile :
  0 ≤ row < totalRows → 0 ≤ col < totalCols →
  ∃ pos,
    slide (Z.to_nat (totalRows + totalCols)) newGrid dir totalRows totalCols
      tile (startPos dir totalRows totalCols row col) = Ok pos ∧
    0 ≤ currRow pos < totalRows ∧ 0 ≤ currCol pos < totalCols.
Proof.
  intros Hr Hc. apply slide_total.
  - unfold onBoard, startPos. simpl. lia.
  - unfold distance, startPos. simpl.
    destruct (0 <? Vector.r dir), (Vector.r dir <? 0),
      (0 <? Vector.c dir), (Vector.c dir <? 0); lia.
Qed.

(** A move on a grid that has a row always returns: the only failure of
    [moveInDirection] is the [TypeError] on a grid without rows. *)
Lemma moveCell_total dir rows cols row col acc :
  0 ≤ row < rows → 0 ≤ col < cols →
  ∃ acc', moveCell dir rows cols row acc col = Ok acc'.
Proof.
  intros Hr Hc. unfold moveCell.
  destruct (getCell (mv_grid acc) row col) as [tile|]; [|eauto].
  destruct (moveCell_slides dir rows cols row col (mv_grid acc) tile)
    as (pos & -> & _); [done..|]. simpl.
  destruct (negb _ || negb _); [eauto|].
  destruct (getCell (mv_grid acc) (currRow pos) (currCol pos)); eauto.
Qed.

Lemma moveInDirection_total grid dir :
  0 < lengthZ grid → ∃ res, moveInDirection grid dir = Ok res.
Proof.
  intros Hlen. destruct grid as [|row0 grid']; [done|].
  unfold moveInDirection.
  set (rows := lengthZ (row0 :: grid')). set (cols := lengthZ row0).
  destruct (forEach_invariant
              (moveRow dir rows cols
                 (trav_cols (createTraversalMap rows cols dir)))
              (λ _ _, True) 0
              (trav_rows (createTraversalMap rows cols dir))
              {| mv_tiles := []; mv_grid := row0 :: grid';
                 mv_moveStack := [] |} 0)
    as (res & Hrun & _); [|done|by exists res].
  intros _ acc row Hrow%elem_of_trav_rows _. unfold moveRow.
  destruct (forEach_invariant (moveCell dir rows cols row) (λ _ _, True) 0
              (trav_cols (createTraversalMap rows cols dir)) acc 0)
    as (acc' & Hrun & _); [|done|by exists acc'].
  intros _ acc0 col Hcol%elem_of_trav_cols _.
  destruct (moveCell_total dir rows cols row col acc0) as [acc1 Hacc1];
    [done..|].
  by exists acc1.
Qed.

(** ** The grid stays well formed through a move *)

Lemma moveCell_wellFormed dir rows cols row col k acc :
  0 ≤ row < rows → 0 ≤ col < cols →
  moveInvariant rows cols k acc →
  ∃ acc', moveCell dir rows cols row acc col = Ok acc' ∧
          moveInvariant rows cols (k + 1) acc'.
Proof.
  intros Hr Hc (Hrect & Hpos & Hlen). unfold moveCell.
  destruct (getCell (mv_grid acc) row col) as [tile|] eqn:Htile.
  2:{ exists acc. repeat split; [done..|lia]. }
  destruct (moveCell_slides dir rows cols row col (mv_grid acc) tile)
    as (pos & -> & Hpr & Hpc); [done..|]. simpl.
  destruct (negb (currRow pos =? row) || negb (currCol pos =? col)).
  - eexists. split; [done|]. repeat split; simpl.
    + by do 2 apply setCell_rectangular.
    + apply (setCell_positioned rows cols); [|done|done| |done].
      * by apply setCell_rectangular.
      * by apply (setCell_positioned rows cols); [done..|intros ? [= <-]].
    + rewrite length_app. simpl. lia.
  - destruct (getCell (mv_grid acc) (currRow pos) (currCol pos)).
    + eexists. split; [done|]. repeat split; simpl; [done..|].
      rewrite length_app. simpl. lia.
    + exists acc. repeat split; [done..|lia].
Qed.

Lemma wellFormed_spec rows cols grid :
  wellFormed rows cols grid = true ↔
  0 < rows ∧ rectangular rows cols grid = true ∧ positioned grid = true.
Proof.
  unfold wellFormed. rewrite !andb_true_iff, Z.ltb_lt. tauto.
Qed.

Lemma rectangular_head rows cols row0 grid :
  rectangular rows cols (row0 :: grid) = true →
  lengthZ (row0 :: grid) = rows ∧ lengthZ row0 = cols.
Proof.
  intros [Hlen Hrows]%rectangular_spec. split; [done|].
  by apply (Hrows 0%nat).
Qed.

Lemma moveRow_wellFormed dir rows cols rows' row k acc :
  0 ≤ row < rows →
  moveInvariant rows cols k acc →
  ∃ acc',
    moveRow dir rows cols (trav_cols (createTraversalMap rows' cols dir))
      acc row = Ok acc' ∧
    moveInvariant rows cols (k + Z.to_nat cols) acc'.
Proof.
  intros Hr Hinv. unfold moveRow.
  destruct (forEach_invariant (moveCell dir rows cols row)
              (moveInvariant rows cols) 1
              (trav_cols (createTraversalMap rows' cols dir)) acc k)
    as (acc' & Hrun & Hinv'); [|done|].
  - intros k' s col Hcol%elem_of_trav_cols Hs.
    by apply moveCell_wellFormed.
  - exists acc'. split; [done|].
    by rewrite length_trav_cols, Nat.mul_1_r in Hinv'.
Qed.

Lemma moveInDirection_wellFormed rows cols grid dir :
  wellFormed rows cols grid = true →
  ∃ res, moveInDirection grid dir = Ok res ∧
         wellFormed rows cols (mv_grid res) = true ∧
         lengthZ (mv_tiles res) ≤ rows * cols.
Proof.
  intros (Hrows & Hrect & Hpos)%wellFormed_spec.
  destruct grid as [|row0 grid'].
  { apply rectangular_spec in Hrect as [Hlen _]. unfold lengthZ in Hlen.
    simpl in Hlen. lia. }
  destruct (rectangular_head _ _ _ _ Hrect) as [Hlen Hlen0].
  unfold moveInDirection. rewrite Hlen, Hlen0.
  destruct (forEach_invariant
              (moveRow dir rows cols
                 (trav_cols (createTraversalMap rows cols dir)))
              (λ k, moveInvariant rows cols (k * Z.to_nat cols))
              1 (trav_rows (createTraversalMap rows cols dir))
              {| mv_tiles := []; mv_grid := row0 :: grid'; mv_moveStack := [] |}
              0)
    as (res & Hrun & Hrect' & Hpos' & Hcount).
  - intros k s row Hrow%elem_of_trav_rows Hs.
    destruct (moveRow_wellFormed dir rows cols rows row _ s Hrow Hs)
      as (s' & Hs' & Hinv').
    exists s'. split; [done|].
    by replace ((k + 1) * Z.to_nat cols)%nat
      with (k * Z.to_nat cols + Z.to_nat cols)%nat by lia.
  - repeat split; simpl; [done..|lia].
  - exists res. split; [done|]. split.
    + apply wellFormed_spec. done.
    + rewrite length_trav_rows in Hcount. unfold lengthZ.
      assert (0 ≤ cols) by (unfold lengthZ in Hlen0; lia). nia.
Qed.

(** ** The tiles of a well-formed grid *)

Lemma gridTiles_cons row grid :
  gridTiles (row :: grid) = omap id row ++ gridTiles grid.
Proof. unfold gridTiles. simpl. by rewrite omap_app. Qed.

Lemma length_omap_le {A B} (f : A → option B) l :
  (length (omap f l) ≤ length l)%nat.
Proof.
  unfold omap. induction l as [|x l IH]; simpl; [lia|].
  destruct (f x); simpl; lia.
Qed.

Lemma omap_id_cons {A} (cell : option A) (row : list (option A)) :
  omap id (cell :: row) =
  match cell with Some t => t :: omap id row | None => omap id row end.
Proof. done. Qed.

Lemma length_gridTiles rows cols grid :
  rectangular rows cols grid = true →
  lengthZ (gridTiles grid) ≤ rows * cols.
Proof.
  intros [Hlen Hrows]%rectangular_spec. subst rows.
  induction grid as [|row grid IH].
  - unfold gridTiles, lengthZ. simpl. lia.
  - rewrite gridTiles_cons. unfold lengthZ in *. rewrite length_app. simpl.
    pose proof (length_omap_le id row).
    pose proof (Hrows 0%nat row eq_refl).
    assert (Z.of_nat (length (gridTiles grid)) ≤ Z.of_nat (length grid) * cols).
    { apply IH. intros i row' Hi. by apply (Hrows (S i)). }
    lia.
Qed.

Lemma rowTiles_positions (r : Z) (o : nat) (row : list Cell) :
  (∀ j t, row !! j = Some (Some t) →
          Tile.r t = r ∧ Tile.c t = Z.of_nat (o + j)) →
  NoDup (position <$> omap id row) ∧
  ∀ t, t ∈ omap id row → Tile.r t = r ∧ Z.of_nat o ≤ Tile.c t.
Proof.
  revert o. induction row as [|cell row IH]; intros o Hrow.
  - split; [constructor|]. intros t Ht. by apply elem_of_nil in Ht.
  - destruct (IH (S o)) as [Hnd Hin].
    { intros j t Hj. destruct (Hrow (S j) t Hj) as [? ?]. split; [done|lia]. }
    rewrite omap_id_cons. destruct cell as [t0|].
    + destruct (Hrow 0%nat t0 eq_refl) as [Hr0 Hc0]. split.
      * rewrite fmap_cons. apply NoDup_cons. split; [|done].
        intros (t & Heq & Ht)%list_elem_of_fmap.
        destruct (Hin t Ht) as [_ Hc]. unfold position in Heq.
        injection Heq as _ Hcc. lia.
      * intros t [->|Ht]%elem_of_cons; [split; [done|lia]|].
        destruct (Hin t Ht). split; [done|lia].
    + split; [done|]. intros t Ht. destruct (Hin t Ht). split; [done|lia].
Qed.

Lemma gridTiles_positions (o : nat) (grid : Grid) :
  (∀ i j row t, grid !! i = Some row → row !! j = Some (Some t) →
                Tile.r t = Z.of_nat (o + i) ∧ Tile.c t = Z.of_nat j) →
  NoDup (position <$> gridTiles grid) ∧
  ∀ t, t ∈ gridTiles grid → Z.of_nat o ≤ Tile.r t.
Proof.
  revert o. induction grid as [|row grid IH]; intros o Hgrid.
  - split; [constructor|]. intros t Ht. by apply elem_of_nil in Ht.
  - rewrite gridTiles_cons.
    destruct (IH (S o)) as [Hnd Hin].
    { intros i j row' t Hi Hj. destruct (Hgrid (S i) j row' t Hi Hj).
      split; [lia|done]. }
    destruct (rowTiles_positions (Z.of_nat o) 0 row) as [Hnd0 Hin0].
    { intros j t Hj. destruct (Hgrid 0%nat j row t eq_refl Hj).
      split; [lia|done]. }
    split.
    + rewrite fmap_app. apply NoDup_app. split; [done|]. split; [|done].
      intros p (t & -> & Ht)%list_elem_of_fmap (t' & Heq & Ht')%list_elem_of_fmap.
      destruct (Hin0 t Ht) as [Hr _]. pose proof (Hin t' Ht').
      unfold position in Heq. injection Heq as Hrr _. lia.
    + intros t [Ht|Ht]%elem_of_app.
      * destruct (Hin0 t Ht). lia.
      * pose proof (Hin t Ht). lia.
Qed.

Lemma positioned_NoDup grid :
  positioned grid = true → NoDup (position <$> gridTiles grid).
Proof.
  intros Hpos. apply (gridTiles_positions 0).
  by apply positioned_spec.
Qed.

(** C3: after [moveInDirection] on a well-formed grid, for every direction
    vector (the four cardinal ones among them), the move succeeds, the grid
    is still well formed, neither the tiles of the grid nor the reported
    tiles are more than [rows * cols], the positions of the tiles of the
    grid are pairwise distinct, and each tile of the grid carries the
    position of its cell. *)
Theorem moveInDirection_one_tile_per_cell rows cols grid dir :
  wellFormed rows cols grid = true →
  ∃ res, moveInDirection grid dir = Ok res ∧
         wellFormed rows cols (mv_grid res) = true ∧
         lengthZ (gridTiles (mv_grid res)) ≤ rows * cols ∧
         lengthZ (mv_tiles res) ≤ rows * cols ∧
         NoDup (position <$> gridTiles (mv_grid res)) ∧
         ∀ r c t, getCell (mv_grid res) r c = Some t → position t = (r, c).
Proof.
  intros Hwf.
  destruct (moveInDirection_wellFormed rows cols grid dir Hwf)
    as (res & Hrun & Hwf' & Hcount).
  exists res. split; [done|]. split; [done|].
  apply wellFormed_spec in Hwf' as (_ & Hrect & Hpos).
  repeat split.
  - by apply length_gridTiles.
  - done.
  - by apply positioned_NoDup.
  - intros r c t Ht. unfold position.
    by destruct (proj1 (positioned_getCell _) Hpos r c t Ht) as [-> ->].
Qed.

Lemma moveInDirection_one_tile_per_cell_witness :
  wellFormed 1 4 row2222 = true ∧
  ∃ res, moveInDirection row2222 DIRECTION_MAP.Left = Ok res ∧
         wellFormed 1 4 (mv_grid res) = true ∧
         lengthZ (gridTiles (mv_grid res)) ≤ 1 * 4 ∧
         lengthZ (mv_tiles res) ≤ 1 * 4 ∧
         NoDup (position <$> gridTiles (mv_grid res)) ∧
         ∀ r c t, getCell (mv_grid res) r c = Some t → position t = (r, c).
Proof.
  split; [reflexivity|].
  apply (moveInDirection_one_tile_per_cell 1 4 row2222 DIRECTION_MAP.Left).
  reflexivity.
Defined.

(** The tiles a move reports (as opposed to those of its grid) do share
    positions: a tile and the tile it slid onto are both reported, at the
    same cell, until the merge is finalized. *)
Lemma moveInDirection_reported_tiles_overlap :
  ∃ res, moveInDirection row2222 DIRECTION_MAP.Left = Ok res ∧
         position <$> mv_tiles res = [(0, 0); (0, 0); (0, 1); (0, 1)].
Proof. eexists. split; [reflexivity|]. reflexivity. Qed.

(** ** A move that moves nothing *)

Lemma pressed_spec row0 grid dir row col :
  pressed (row0 :: grid) dir = true →
  0 ≤ row < lengthZ (row0 :: grid) → 0 ≤ col < lengthZ row0 →
  cellStuck (row0 :: grid) dir (lengthZ (row0 :: grid)) (lengthZ row0)
    row col = true.
Proof.
  unfold pressed. rewrite <- Is_true_true, forallb_True, Forall_forall.
  intros H Hr Hc.
  specialize (H row (proj2 (elem_of_createIndexArray _ _) Hr)).
  rewrite forallb_True, Forall_forall in H.
  apply Is_true_true, H, elem_of_createIndexArray, Hc.
Qed.

Lemma moveCell_stuck grid dir rows cols row col acc :
  0 ≤ row < rows → 0 ≤ col < cols →
  cellStuck grid dir rows cols row col = true →
  mv_grid acc = grid ∧ mv_moveStack acc = [] →
  ∃ acc', moveCell dir rows cols row acc col = Ok acc' ∧
          mv_grid acc' = grid ∧ mv_moveStack acc' = [].
Proof.
  intros Hr Hc Hstuck [Hg Hm]. unfold moveCell, cellStuck in *. rewrite Hg.
  destruct (getCell grid row col) as [tile|] eqn:Htile; [|by exists acc].
  destruct (Z.to_nat (rows + cols)) as [|fuel] eqn:Hfuel; [lia|].
  unfold slide, startPos; fold slide; simpl.
  destruct (negb (clamp (row + Vector.r dir) 0 (rows - 1) =? row)
            || negb (clamp (col + Vector.c dir) 0 (cols - 1) =? col)).
  - destruct (getCell grid (clamp (row + Vector.r dir) 0 (rows - 1))
                (clamp (col + Vector.c dir) 0 (cols - 1))) as [nextTile|];
      [|done].
    apply negb_true_iff in Hstuck. rewrite Hstuck. simpl.
    rewrite !Z.eqb_refl, Htile. simpl. eauto.
  - simpl. rewrite !Z.eqb_refl, Htile. simpl. eauto.
Qed.

Lemma moveInDirection_pressed grid dir :
  pressed grid dir = true →
  ∃ res, moveInDirection grid dir = Ok res ∧
         mv_grid res = grid ∧ mv_moveStack res = [].
Proof.
  intros Hp. destruct grid as [|row0 grid']; [done|].
  unfold moveInDirection.
  set (grid := row0 :: grid') in *.
  set (rows := lengthZ grid). set (cols := lengthZ row0).
  destruct (forEach_invariant
              (moveRow dir rows cols
                 (trav_cols (createTraversalMap rows cols dir)))
              (λ _ acc, mv_grid acc = grid ∧ mv_moveStack acc = [])
              0 (trav_rows (createTraversalMap rows cols dir))
              {| mv_tiles := []; mv_grid := grid; mv_moveStack := [] |} 0)
    as (res & Hrun & Hres); [|done|by exists res].
  intros _ acc row Hrow%elem_of_trav_rows Hacc. unfold moveRow.
  destruct (forEach_invariant (moveCell dir rows cols row)
              (λ _ acc, mv_grid acc = grid ∧ mv_moveStack acc = [])
              0 (trav_cols (createTraversalMap rows cols dir)) acc 0)
    as (acc' & Hrun & Hres); [|done|by exists acc'].
  intros _ acc0 col Hcol%elem_of_trav_cols Hacc0.
  apply moveCell_stuck; [done..| |done].
  by apply pressed_spec.
Qed.

(** C9: when every tile is pressed against the edge the direction points to
    and no neighbours along it can merge, [moveInDirection] returns the grid
    it was given and an empty move list, and [onMove] leaves the hook as it
    was: [moving] keeps its value, so the settle effect is not due. *)
Theorem pressed_board_does_not_move grid dir :
  pressed grid dir = true →
  (∃ res, moveInDirection grid dir = Ok res ∧
          mv_grid res = grid ∧ mv_moveStack res = []) ∧
  ∀ h, gridRef h = grid →
       onMove dir h = Ok h ∧ settleDue h h = false.
Proof.
  intros Hp.
  destruct (moveInDirection_pressed grid dir Hp) as (res & Hrun & Hg & Hm).
  split; [eauto|].
  intros h <-. split; [|unfold settleDue; by destruct (moving h)].
  unfold onMove.
  destruct (Z.eqb_spec (lengthZ (pendingStackRef h)) 0) as [Hpend|];
    [|done].
  destruct (pauseRef h) eqn:Hpause; [done|]. simpl.
  rewrite Hrun. simpl. rewrite Hm, Hg. simpl.
  destruct h as [g ts pend mv pr]. simpl in *. subst pr.
  destruct pend; [done|]. unfold lengthZ in Hpend. simpl in Hpend. lia.
Qed.

Lemma pressed_board_does_not_move_witness :
  pressed column248 DIRECTION_MAP.Up = true ∧
  (∃ res, moveInDirection column248 DIRECTION_MAP.Up = Ok res ∧
          mv_grid res = column248 ∧ mv_moveStack res = []) ∧
  ∀ h, gridRef h = column248 →
       onMove DIRECTION_MAP.Up h = Ok h ∧ settleDue h h = false.
Proof.
  split; [reflexivity|].
  apply (pressed_board_does_not_move column248 DIRECTION_MAP.Up).
  reflexivity.
Defined.

(** ** Input gating and the pending stack *)

(** C6: a directional input that arrives while the pending stack is not
    empty, or while the pause flag is set, returns the hook as it is: the
    grid, the tile list, the pending stack and the [moving] flag are those
    of before, and nothing of the input is kept for later. *)
Theorem onMove_dropped dir h :
  lengthZ (pendingStackRef h) ≠ 0 ∨ pauseRef h = true →
  onMove dir h = Ok h.
Proof.
  intros [Hpend|Hpause]; unfold onMove.
  - by destruct (Z.eqb_spec (lengthZ (pendingStackRef h)) 0).
  - rewrite Hpause. by rewrite andb_false_r.
Qed.

Lemma onMove_dropped_witness :
  (lengthZ (pendingStackRef hookInFlight) ≠ 0 ∧
   onMove DIRECTION_MAP.Left hookInFlight = Ok hookInFlight) ∧
  (pauseRef hookPaused = true ∧
   onMove DIRECTION_MAP.Left hookPaused = Ok hookPaused).
Proof.
  split; split.
  - vm_compute. discriminate.
  - apply (onMove_dropped DIRECTION_MAP.Left hookInFlight). left.
    vm_compute. discriminate.
  - reflexivity.
  - apply (onMove_dropped DIRECTION_MAP.Left hookPaused). right. reflexivity.
Defined.

Lemma length_pop {A} (arr : list A) : length (pop arr) = pred (length arr).
Proof.
  unfold pop. rewrite removelast_firstn_len, length_take. lia.
Qed.

Lemma onMovePending_iter_length n h :
  lengthZ (pendingStackRef (Nat.iter n onMovePending h)) =
  Z.max 0 (lengthZ (pendingStackRef h) - Z.of_nat n).
Proof.
  induction n as [|n IH].
  - simpl. unfold lengthZ. lia.
  - rewrite Nat.iter_succ. unfold onMovePending at 1. simpl.
    unfold lengthZ in *. rewrite length_pop. lia.
Qed.

(** C10: the pending count never goes below zero.  After [n] completion
    signals the pending stack holds [max 0 (len - n)] entries, whatever [n]
    is; a signal on an empty stack leaves it empty and sets [moving] to
    false, and touches nothing else. *)
Theorem onMovePending_never_negative n h :
  0 ≤ lengthZ (pendingStackRef (Nat.iter n onMovePending h)) ∧
  lengthZ (pendingStackRef (Nat.iter n onMovePending h)) =
    Z.max 0 (lengthZ (pendingStackRef h) - Z.of_nat n) ∧
  (pendingStackRef h = [] →
   pendingStackRef (onMovePending h) = [] ∧
   moving (onMovePending h) = false ∧
   gridRef (onMovePending h) = gridRef h ∧
   tiles (onMovePending h) = tiles h).
Proof.
  split; [|split].
  - rewrite onMovePending_iter_length. lia.
  - apply onMovePending_iter_length.
  - intros Hempty. unfold onMovePending. rewrite Hempty. done.
Qed.

Lemma onMovePending_never_negative_witness :
  pendingStackRef hookPaused = [] ∧
  pendingStackRef (onMovePending hookPaused) = [] ∧
  moving (onMovePending hookPaused) = false ∧
  lengthZ (pendingStackRef (Nat.iter 5 onMovePending hookInFlight)) = 0.
Proof.
  pose proof (onMovePending_never_negative 5 hookInFlight) as (_ & H5 & _).
  pose proof (onMovePending_never_negative 0 hookPaused) as (_ & _ & H0).
  split; [reflexivity|].
  destruct (H0 eq_refl) as (Hp & Hm & _).
  split; [exact Hp|]. split; [exact Hm|].
  rewrite H5. reflexivity.
Defined.

(** ** Status transitions *)

Lemma statusEffect_restart h w h' s w' :
  statusEffect restart h w = Ok (h', s, w') → s = Some running.
Proof.
  unfold statusEffect. destruct (gridRef h) as [|row0 grid]; [done|].
  destruct (resetGameBoard _ _ w) as [[res w1]| | |]; simpl; [|done..].
  by intros [= _ <- _].
Qed.

(** C4, as the code has it: the effect sets the status to [win] exactly
    when the status is [running] and a tile holds 2048; it sets the status to
    [lost] exactly when the status is [running] without a win, [win] or
    [continue], and the board cannot continue.  The loss check is guarded by
    [gameStatus !== 'lost'], not by [gameStatus === 'running']. *)
Theorem statusEffect_transitions s h w h' w' :
  (statusEffect s h w = Ok (h', Some win, w') ↔
   s = running ∧ isWin (tiles h) = true ∧ h' = h ∧ w' = w) ∧
  (statusEffect s h w = Ok (h', Some lost, w') ↔
   ((s = running ∧ isWin (tiles h) = false) ∨ s = win ∨ s = continue) ∧
   canGameContinue (gridRef h) (tiles h) = Ok false ∧ h' = h ∧ w' = w).
Proof.
  destruct s.
  5:{ split; split.
      - by intros [=]%statusEffect_restart.
      - by intros ([=] & _).
      - by intros [=]%statusEffect_restart.
      - intros ([[[=] _]|[[=]|[=]]] & _). }
  all: simpl; destruct (isWin (tiles h)); simpl;
    try (destruct (canGameContinue (gridRef h) (tiles h)) as [[]| | |]);
    simpl; (split; split; [intros [=]; subst|intros H|intros [=]; subst|intros H]);
    try (destruct H as ([[? ?]|[?|?]] & ? & ? & ?));
    try (destruct H as (? & ? & ? & ?)); subst;
    try done; auto 10.
Qed.

(** C4 as the specification words it fails: a board that cannot continue makes the effect set
    [lost] when the status is [continue], and when it is [win]. *)
Lemma lost_only_from_running_counterexample :
  ¬ (∀ s h w h' w',
       statusEffect s h w = Ok (h', Some lost, w') → s = running).
Proof.
  intros H.
  pose proof (H continue (hookOf board2) world0 (hookOf board2) world0
                eq_refl) as Hc.
  discriminate Hc.
Qed.

Lemma lost_from_win :
  statusEffect win (hookOf board2048) world0
  = Ok (hookOf board2048, Some lost, world0).
Proof. reflexivity. Qed.

(** ** The merge finalizer *)

Lemma sumZ_app l k : sumZ (l ++ k) = sumZ l + sumZ k.
Proof. unfold sumZ. induction l as [|x l IH]; simpl; lia. Qed.

Lemma mergedValueSum_app l k :
  mergedValueSum (l ++ k) = mergedValueSum l + mergedValueSum k.
Proof. unfold mergedValueSum. by rewrite fmap_app, sumZ_app. Qed.

Lemma mergeRow_spec tiles score (row : list Cell) :
  mapAccum mergeCell (tiles, score) row =
  ((tiles ++ (mergedTile <$> omap id row),
    score + mergedValueSum (omap id row)),
   option_map mergedTile <$> row).
Proof.
  revert tiles score. induction row as [|cell row IH]; intros tiles score.
  - simpl. rewrite app_nil_r. f_equal. f_equal. unfold mergedValueSum. simpl. lia.
  - rewrite omap_id_cons. destruct cell as [t|]; simpl; rewrite IH.
    + rewrite <- app_assoc. simpl. f_equal. f_equal.
      change (t :: omap id row) with ([t] ++ omap id row).
      rewrite mergedValueSum_app. unfold mergedValueSum at 2. simpl.
      destruct (Tile.canMerge t); lia.
    + done.
Qed.

Lemma mergeGrid_spec tiles score (grid : Grid) :
  mapAccum (mapAccum mergeCell) (tiles, score) grid =
  ((tiles ++ (mergedTile <$> gridTiles grid),
    score + mergedValueSum (gridTiles grid)),
   (λ row : list Cell, option_map mergedTile <$> row) <$> grid).
Proof.
  revert tiles score. induction grid as [|row grid IH]; intros tiles score.
  - simpl. rewrite app_nil_r. f_equal. f_equal.
    unfold mergedValueSum, gridTiles. simpl. lia.
  - simpl. rewrite mergeRow_spec, IH, gridTiles_cons.
    rewrite fmap_app, <- app_assoc, mergedValueSum_app.
    f_equal. f_equal. lia.
Qed.

Lemma createNewTile_fresh r c w : freshTile (createNewTile r c w).1.
Proof.
  unfold createNewTile, freshTile. simpl.
  destruct (_ <? _); auto.
Qed.

Lemma createTiles_cons l cells w :
  createTiles (l :: cells) w =
  let '(tile, w1) := createNewTile (Location.r l) (Location.c l) w in
  let '(tiles, w2) := createTiles cells w1 in
  (tile :: tiles, w2).
Proof. done. Qed.

Lemma createTiles_fresh cells w : Forall freshTile (createTiles cells w).1.
Proof.
  revert w. induction cells as [|l cells IH]; intros w.
  - constructor.
  - rewrite createTiles_cons.
    pose proof (createNewTile_fresh (Location.r l) (Location.c l) w) as Hf.
    destruct (createNewTile (Location.r l) (Location.c l) w) as [t w1].
    specialize (IH w1). destruct (createTiles cells w1) as [ts w2].
    simpl in *. by constructor.
Qed.

Lemma createRandomTiles_fresh cells amount w :
  Forall freshTile (createRandomTiles cells amount w).1.
Proof.
  unfold createRandomTiles.
  destruct (_ =? 0); [constructor|].
  destruct (shuffle cells w) as [shuffled w1]. apply createTiles_fresh.
Qed.

(** What the finalizer returns on a grid that has a row. *)
Lemma mergeAndCreateNewTiles_spec grid w :
  0 < lengthZ grid →
  ∃ res w' newTiles,
    mergeAndCreateNewTiles grid w = Ok (res, w') ∧
    mg_score res = mergedValueSum (gridTiles grid) ∧
    mg_tiles res = (mergedTile <$> gridTiles grid) ++ newTiles ∧
    Forall freshTile newTiles.
Proof.
  intros Hlen. destruct grid as [|row0 grid']; [done|].
  unfold mergeAndCreateNewTiles. rewrite mergeGrid_spec.
  match goal with
  | |- context [createRandomTiles ?cells ?amount w] =>
      pose proof (createRandomTiles_fresh cells amount w) as Hfresh;
      destruct (createRandomTiles cells amount w) as [newTiles w1]
  end.
  eexists _, w1, newTiles. split; [done|]. simpl. split; [lia|]. done.
Qed.

Lemma mergedValueSum_merging tiles :
  sumZ (Tile.value <$> filter (λ t, Tile.isMerging t = true)
                         (mergedTile <$> tiles))
  = mergedValueSum tiles.
Proof.
  unfold mergedValueSum. induction tiles as [|t tiles IH]; [done|].
  rewrite !fmap_cons, filter_cons. simpl.
  destruct (Tile.canMerge t) eqn:Hflag; case_decide; try done.
  rewrite fmap_cons. simpl. rewrite IH, Hflag. lia.
Qed.

Lemma fresh_not_merging newTiles :
  Forall freshTile newTiles →
  filter (λ t, Tile.isMerging t = true) newTiles = [].
Proof.
  induction 1 as [|t ts (_ & Hm & _) _ IH]; [done|].
  rewrite filter_cons, IH. case_decide; [congruence|done].
Qed.

(** C8: the score returned by a settle cycle is the sum of the doubled
    values of the tiles whose [canMerge] flag was set, and nothing else:
    the tiles it returns are the merged old tiles followed by the spawned
    ones, the spawned ones are not merging, and the score is the sum of the
    values of the returned tiles that are merging. *)
Theorem settle_score_is_merged_sum grid w :
  0 < lengthZ grid →
  ∃ res w' newTiles,
    mergeAndCreateNewTiles grid w = Ok (res, w') ∧
    mg_score res = mergedValueSum (gridTiles grid) ∧
    mg_tiles res = (mergedTile <$> gridTiles grid) ++ newTiles ∧
    Forall freshTile newTiles ∧
    mg_score res =
      sumZ (Tile.value <$> filter (λ t, Tile.isMerging t = true)
                             (mg_tiles res)).
Proof.
  intros Hlen.
  destruct (mergeAndCreateNewTiles_spec grid w Hlen)
    as (res & w' & newTiles & Hrun & Hscore & Htiles & Hfresh).
  exists res, w', newTiles. repeat (split; [done|]).
  rewrite Htiles, filter_app, (fresh_not_merging newTiles Hfresh), app_nil_r.
  by rewrite mergedValueSum_merging.
Qed.

Lemma settle_score_is_merged_sum_witness :
  0 < lengthZ rowMergedLeft ∧
  mergedValueSum (gridTiles rowMergedLeft) = 8 ∧
  ∃ res w' newTiles,
    mergeAndCreateNewTiles rowMergedLeft world0 = Ok (res, w') ∧
    mg_score res = mergedValueSum (gridTiles rowMergedLeft) ∧
    mg_tiles res = (mergedTile <$> gridTiles rowMergedLeft) ++ newTiles ∧
    Forall freshTile newTiles ∧
    mg_score res =
      sumZ (Tile.value <$> filter (λ t, Tile.isMerging t = true)
                             (mg_tiles res)).
Proof.
  split; [reflexivity|]. split; [reflexivity|].
  apply (settle_score_is_merged_sum rowMergedLeft world0). reflexivity.
Defined.

(** ** How many tiles the spawner makes *)

Lemma length_swap {A} i j (l : list A) : length (swap i j l) = length l.
Proof.
  unfold swap. destruct (l !! i), (l !! j); try done.
  by rewrite !length_insert.
Qed.

Lemma length_shuffleLoop {A} i (l : list A) w :
  length (shuffleLoop i l w).1 = length l.
Proof.
  revert l w. induction i as [|i IH]; intros l w; [done|].
  unfold shuffleLoop; fold (@shuffleLoop A).
  destruct (Math_random w) as [x w1]. rewrite IH. apply length_swap.
Qed.

Lemma length_createTiles cells w :
  length (createTiles cells w).1 = length cells.
Proof.
  revert w. induction cells as [|l cells IH]; intros w; [done|].
  rewrite createTiles_cons.
  destruct (createNewTile (Location.r l) (Location.c l) w) as [t w1].
  specialize (IH w1). destruct (createTiles cells w1) as [ts w2].
  simpl in *. by rewrite IH.
Qed.

Lemma length_createRandomTiles cells amount w :
  0 ≤ amount →
  lengthZ (createRandomTiles cells amount w).1 = Z.min amount (lengthZ cells).
Proof.
  intros Hamount. unfold createRandomTiles.
  set (tilesNumber :=
         if lengthZ cells <? amount then lengthZ cells else amount).
  assert (tilesNumber = Z.min amount (lengthZ cells)) as Hn.
  { unfold tilesNumber. destruct (Z.ltb_spec (lengthZ cells) amount); lia. }
  destruct (Z.eqb_spec tilesNumber 0) as [H0|H0].
  - unfold lengthZ in *. simpl. lia.
  - pose proof (length_shuffleLoop (length cells - 1) cells w) as Hsh.
    unfold shuffle. destruct (shuffleLoop (length cells - 1) cells w)
      as [shuffled w1]. simpl in Hsh.
    unfold lengthZ in *. rewrite length_createTiles, length_take. lia.
Qed.

Lemma mapResult_const {A B} (b : B) (arr : list A) :
  mapResult (λ _, Ok b) arr = Ok (replicate (length arr) b).
Proof. induction arr as [|a arr IH]; simpl; [done|]. by rewrite IH. Qed.

Lemma createEmptyGrid_spec rows cols :
  0 ≤ rows → 0 ≤ cols →
  createEmptyGrid rows cols
  = Ok (replicate (Z.to_nat rows) (replicate (Z.to_nat cols) None)).
Proof.
  intros Hr Hc. unfold createEmptyGrid, createRow.
  destruct (Z.ltb_spec rows 0); [lia|]. destruct (Z.ltb_spec cols 0); [lia|].
  rewrite mapResult_const, length_createIndexArray.
  by rewrite mapResult_const, length_createIndexArray.
Qed.

(** Empty cells and tiles together make up the grid. *)
Lemma length_emptyCells_row r start (row : list Cell) :
  (length (flatMapFrom start (λ (cell : Cell) c,
             match cell with
             | None => [Location.mk r c]
             | Some _ => []
             end) row)
   + length (omap id row))%nat = length row.
Proof.
  revert start. induction row as [|cell row IH]; intros start; [done|].
  rewrite omap_id_cons. simpl. rewrite length_app.
  specialize (IH (start + 1)). destruct cell; simpl; lia.
Qed.

Lemma length_emptyCells_from start rows cols (grid : Grid) :
  rectangular rows cols grid = true →
  Z.of_nat (length (flatMapFrom start (λ row r,
              flatMapFrom 0 (λ (cell : Cell) c,
                match cell with
                | None => [Location.mk r c]
                | Some _ => []
                end) row) grid))
  + lengthZ (gridTiles grid) = rows * cols.
Proof.
  intros [Hlen Hrows]%rectangular_spec. subst rows.
  revert start. induction grid as [|row grid IH]; intros start.
  - unfold lengthZ. simpl. lia.
  - rewrite gridTiles_cons. unfold lengthZ in *. simpl.
    rewrite !length_app.
    pose proof (length_emptyCells_row start 0 row) as Hrow.
    pose proof (Hrows 0%nat row eq_refl) as Hcols.
    specialize (IH (λ i row' Hi, Hrows (S i) row' Hi) (start + 1)).
    lia.
Qed.

Lemma length_getEmptyCellsLocation rows cols grid :
  rectangular rows cols grid = true →
  lengthZ (getEmptyCellsLocation grid) = rows * cols - lengthZ (gridTiles grid).
Proof.
  intros Hrect. pose proof (length_emptyCells_from 0 rows cols grid Hrect).
  unfold getEmptyCellsLocation, lengthZ in *. lia.
Qed.

(** Merging changes tiles, not which cells are occupied. *)
Lemma flatMapFrom_ext {A B} start (f g : A → Z → list B) arr :
  (∀ a i, a ∈ arr → f a i = g a i) →
  flatMapFrom start f arr = flatMapFrom start g arr.
Proof.
  revert start. induction arr as [|a arr IH]; intros start Hfg; [done|].
  simpl. rewrite Hfg by left. f_equal. apply IH.
  intros a' i Ha'. apply Hfg. by right.
Qed.

Lemma flatMapFrom_fmap {A A' B} start (h : A → A') (f : A' → Z → list B) arr :
  flatMapFrom start f (h <$> arr) = flatMapFrom start (λ a i, f (h a) i) arr.
Proof.
  revert start. induction arr as [|a arr IH]; intros start; [done|].
  simpl. by rewrite IH.
Qed.

Lemma getEmptyCellsLocation_merged (grid : Grid) :
  getEmptyCellsLocation
    ((λ row : list Cell, option_map mergedTile <$> row) <$> grid)
  = getEmptyCellsLocation grid.
Proof.
  unfold getEmptyCellsLocation. rewrite flatMapFrom_fmap.
  apply flatMapFrom_ext. intros row r _. rewrite flatMapFrom_fmap.
  apply flatMapFrom_ext. by intros [t|] c _.
Qed.

Lemma mergeAndCreateNewTiles_eq row0 grid' w :
  mergeAndCreateNewTiles (row0 :: grid') w =
  let grid := row0 :: grid' in
  let newGrid := (λ row : list Cell, option_map mergedTile <$> row) <$> grid in
  let spawned :=
    createRandomTiles (getEmptyCellsLocation grid)
      (if 24 <=? lengthZ grid * lengthZ row0 then 2 else 1) w in
  Ok ({| mg_grid := placeTiles newGrid spawned.1;
         mg_tiles := (mergedTile <$> gridTiles grid) ++ spawned.1;
         mg_score := mergedValueSum (gridTiles grid) |}, spawned.2).
Proof.
  unfold mergeAndCreateNewTiles. rewrite mergeGrid_spec.
  rewrite getEmptyCellsLocation_merged. simpl.
  by destruct (createRandomTiles _ _ w).
Qed.

Lemma omap_id_replicate_None {A} cols :
  omap id (replicate cols (None : option A)) = [].
Proof.
  induction cols as [|cols IH]; [done|].
  change (replicate (S cols) (None : option A))
    with ((None : option A) :: replicate cols None).
  by rewrite omap_id_cons.
Qed.

Lemma gridTiles_replicate_None rows cols :
  gridTiles (replicate rows (replicate cols (None : Cell))) = [].
Proof.
  induction rows as [|rows IH]; [done|].
  change (replicate (S rows) (replicate cols (None : Cell)))
    with (replicate cols (None : Cell) :: replicate rows (replicate cols None)).
  by rewrite gridTiles_cons, IH, app_nil_r, omap_id_replicate_None.
Qed.

Lemma rectangular_replicate rows cols (cell : Cell) :
  0 ≤ rows → 0 ≤ cols →
  rectangular rows cols
    (replicate (Z.to_nat rows) (replicate (Z.to_nat cols) cell)) = true.
Proof.
  intros Hr Hc. apply rectangular_spec. unfold lengthZ.
  rewrite length_replicate. split; [lia|].
  intros i row [-> _]%lookup_replicate. rewrite length_replicate. lia.
Qed.


Lemma settle_count rows cols grid w :
  0 < rows → rectangular rows cols grid = true →
  ∃ res w' newTiles,
    mergeAndCreateNewTiles grid w = Ok (res, w') ∧
    mg_tiles res = (mergedTile <$> gridTiles grid) ++ newTiles ∧
    lengthZ newTiles
    = Z.min (if 24 <=? rows * cols then 2 else 1)
        (rows * cols - lengthZ (gridTiles grid)).
Proof.
  intros Hrows Hrect. destruct grid as [|row0 grid'].
  { apply rectangular_spec in Hrect as [Hlen _]. unfold lengthZ in Hlen.
    simpl in Hlen. lia. }
  rewrite mergeAndCreateNewTiles_eq. cbv zeta.
  destruct (rectangular_head _ _ _ _ Hrect) as [Hlen Hlen0].
  rewrite Hlen, Hlen0.
  eexists _, _, _. split; [done|]. split; [done|]. cbn [mg_tiles].
  rewrite length_createRandomTiles by (destruct (24 <=? rows * cols); lia).
  by rewrite (length_getEmptyCellsLocation rows cols).
Qed.




(** ** Tile identifiers *)

(** C5: a tile's identifier is its allocation index and the current
    millisecond, joined by an underscore, and it is not unique: two
    allocations on either side of a counter reset, with no time passing in
    between, give the same identifier to tiles at different cells.  Mounting
    the hook does that: the settle effect spawns a tile of index 0 on the
    empty board, then the board effect resets the counter and spawns tiles
    of index 0 and 1. *)
Theorem tile_ids_can_repeat :
  (∀ r c w,
     Tile.index (createNewTile r c w).1 = _tileIndex w ∧
     Tile.id (createNewTile r c w).1
     = pretty (_tileIndex w) +:+ "_" +:+ pretty (now w)) ∧
  (∀ r1 c1 r2 c2 w,
     let first := createNewTile r1 c1 (resetTileIndex w) in
     let second := createNewTile r2 c2 (resetTileIndex first.2) in
     now first.2 = now w ∧
     position first.1 = (r1, c1) ∧ position second.1 = (r2, c2) ∧
     Tile.id first.1 = Tile.id second.1) ∧
  (∃ h1 h2 w' t1 t2,
     mount 4 4 false world1 = Ok (h1, h2, w') ∧ now w' = now world1 ∧
     t1 ∈ tiles h1 ∧ t2 ∈ tiles h2 ∧
     position t1 ≠ position t2 ∧ Tile.id t1 = Tile.id t2).
Proof.
  split; [|split].
  - intros r c w. done.
  - intros r1 c1 r2 c2 w. done.
  - eexists _, _, _, _, _. split; [vm_compute; reflexivity|].
    split; [reflexivity|].
    split; [apply list_elem_of_here|]. split; [apply list_elem_of_here|].
    split; [|reflexivity]. vm_compute. discriminate.
Qed.

(** ** The terminal-state detector *)

Lemma elem_of_gridTiles t (grid : Grid) :
  t ∈ gridTiles grid ↔
  ∃ (i j : nat) row, grid !! i = Some row ∧ row !! j = Some (Some t).
Proof.
  induction grid as [|row grid IH].
  - split; [intros H; by apply elem_of_nil in H|]. by intros (i & j & r & [=] & _).
  - rewrite gridTiles_cons, elem_of_app, IH, list_elem_of_omap. split.
    + intros [(cell & [j Hj]%list_elem_of_lookup & Hc)|(i & j & row' & Hi & Hj)].
      * simpl in Hc. subst cell. by exists 0%nat, j, row.
      * by exists (S i), j, row'.
    + intros ([|i] & j & row' & Hi & Hj); simpl in Hi.
      * injection Hi as <-. left. exists (Some t). split; [|done].
        apply list_elem_of_lookup. eauto.
      * right. eauto.
Qed.

Lemma elem_of_gridTiles_getCell t grid :
  t ∈ gridTiles grid ↔ ∃ r c, getCell grid r c = Some t.
Proof.
  rewrite elem_of_gridTiles. split.
  - intros (i & j & row & Hi & Hj). exists (Z.of_nat i), (Z.of_nat j).
    by rewrite getCell_of_nat, Hi, Hj.
  - intros (r & c & (row & [Hr Hi]%lookupZ_Some & [Hc Hj]%lookupZ_Some)%getCell_Some).
    eauto.
Qed.

Lemma elem_of_flatMapFrom {A B} start (f : A → Z → list B) arr y :
  y ∈ flatMapFrom start f arr ↔
  ∃ (i : nat) a, arr !! i = Some a ∧ y ∈ f a (start + Z.of_nat i).
Proof.
  revert start. induction arr as [|a arr IH]; intros start; simpl.
  - split; [intros H; by apply elem_of_nil in H|]. by intros (i & a & [=] & _).
  - rewrite elem_of_app, IH. split.
    + intros [Hy|(i & a' & Hi & Hy)].
      * exists 0%nat, a. split; [done|]. by rewrite Z.add_0_r.
      * exists (S i), a'. split; [done|].
        by replace (start + Z.of_nat (S i)) with (start + 1 + Z.of_nat i) by lia.
    + intros ([|i] & a' & Hi & Hy); simpl in Hi.
      * injection Hi as <-. left. by rewrite Z.add_0_r in Hy.
      * right. exists i, a'. split; [done|].
        by replace (start + 1 + Z.of_nat i) with (start + Z.of_nat (S i)) by lia.
Qed.

Lemma elem_of_getEmptyCellsLocation l (grid : Grid) :
  l ∈ getEmptyCellsLocation grid ↔
  ∃ (i j : nat) row, grid !! i = Some row ∧ row !! j = Some None ∧
                     l = Location.mk (Z.of_nat i) (Z.of_nat j).
Proof.
  unfold getEmptyCellsLocation. rewrite elem_of_flatMapFrom. split.
  - intros (i & row & Hi & (j & cell & Hj & Hl)%elem_of_flatMapFrom).
    destruct cell; [by apply elem_of_nil in Hl|].
    apply list_elem_of_singleton in Hl. exists i, j, row. by rewrite !Z.add_0_l in Hl.
  - intros (i & j & row & Hi & Hj & ->). exists i, row. split; [done|].
    apply elem_of_flatMapFrom. exists j, None. split; [done|].
    rewrite !Z.add_0_l. apply list_elem_of_here.
Qed.

(** On a rectangular board, the grid is full exactly when its tiles are as
    many as its cells. *)
Lemma fullGrid_count rows cols grid :
  rectangular rows cols grid = true →
  fullGrid rows cols grid ↔ lengthZ (gridTiles grid) = rows * cols.
Proof.
  intros Hrect. pose proof (length_getEmptyCellsLocation _ _ _ Hrect) as Hcount.
  apply rectangular_spec in Hrect as [Hlen Hrows].
  split.
  - intros Hfull.
    destruct (getEmptyCellsLocation grid) as [|l ls] eqn:Hempty.
    { unfold lengthZ in *. simpl in Hcount. lia. }
    assert (l ∈ getEmptyCellsLocation grid) as Hl
      by (rewrite Hempty; apply list_elem_of_here).
    apply elem_of_getEmptyCellsLocation in Hl as (i & j & row & Hi & Hj & _).
    exfalso. apply (Hfull (Z.of_nat i) (Z.of_nat j)).
    + apply lookup_lt_Some in Hi. unfold lengthZ in Hlen. lia.
    + pose proof (Hrows _ _ Hi) as Hc. apply lookup_lt_Some in Hj.
      unfold lengthZ in Hc. lia.
    + by rewrite getCell_of_nat, Hi, Hj.
  - intros Hn r c Hr Hc Hcell.
    assert (getEmptyCellsLocation grid = []) as Hempty.
    { destruct (getEmptyCellsLocation grid); [done|].
      unfold lengthZ in *. simpl in Hcount. lia. }
    destruct (lookupZ_lt grid r) as [row Hrow]; [lia|].
    pose proof Hrow as [_ Hi]%lookupZ_Some.
    pose proof (Hrows _ _ Hi) as Hlenrow.
    destruct (lookupZ_lt row c) as [cell Hcol]; [lia|].
    unfold getCell in Hcell. rewrite Hrow, Hcol in Hcell. subst cell.
    apply lookupZ_Some in Hcol as [_ Hj].
    assert (Location.mk (Z.of_nat (Z.to_nat r)) (Z.of_nat (Z.to_nat c))
            ∈ getEmptyCellsLocation grid) as Hin.
    { apply elem_of_getEmptyCellsLocation. eauto 6. }
    rewrite Hempty in Hin. by apply elem_of_nil in Hin.
Qed.

Lemma canMoveTowards_spec grid rows cols t dir :
  canMoveTowards grid rows cols t dir = true ↔
  let nextRow := clamp (Tile.r t + Vector.r dir) 0 (rows - 1) in
  let nextCol := clamp (Tile.c t + Vector.c dir) 0 (cols - 1) in
  (nextRow ≠ Tile.r t ∨ nextCol ≠ Tile.c t) ∧
  (getCell grid nextRow nextCol = None ∨
   ∃ t', getCell grid nextRow nextCol = Some t' ∧
         Tile.value t' = Tile.value t).
Proof.
  unfold canMoveTowards. cbv zeta.
  destruct (Z.eqb_spec (clamp (Tile.r t + Vector.r dir) 0 (rows - 1))
              (Tile.r t)) as [Hr|Hr];
    destruct (Z.eqb_spec (clamp (Tile.c t + Vector.c dir) 0 (cols - 1))
                (Tile.c t)) as [Hc|Hc]; simpl.
  1:{ split; [done|]. intros [[?|?] _]; done. }
  all: match goal with
       | |- _ ↔ ?P ∧ _ => assert P as Hne by auto
       end;
    destruct (getCell grid _ _) as [t'|];
    [rewrite Z.eqb_eq; split;
       [intros Hv; split; [done|right; eauto]
       |intros [_ [[=]|(t'' & [= <-] & Hv)]]; done]
    |split; [intros _; split; auto|done]].
Qed.

Lemma getCell_in_range rows cols grid r c t :
  rectangular rows cols grid = true → getCell grid r c = Some t →
  0 ≤ r < rows ∧ 0 ≤ c < cols.
Proof.
  intros [Hlen Hrows]%rectangular_spec
         (row & Hrow & Hcell%lookupZ_range)%getCell_Some.
  pose proof (lookupZ_range _ _ _ Hrow) as Hr.
  apply lookupZ_Some in Hrow as [_ Hi]. rewrite (Hrows _ _ Hi) in Hcell. lia.
Qed.

(** On the board, looking from a cell along the four directions of the
    detector, with the clamping and the test that the clamped cell is
    another cell, reaches exactly the axis neighbours that lie on the
    board. *)
Lemma openNeighbour_dirs grid rows cols r c value :
  0 ≤ r < rows → 0 ≤ c < cols →
  openNeighbour grid rows cols r c value ↔
  ∃ dir, dir ∈ dirs ∧
    let nextRow := clamp (r + Vector.r dir) 0 (rows - 1) in
    let nextCol := clamp (c + Vector.c dir) 0 (cols - 1) in
    (nextRow ≠ r ∨ nextCol ≠ c) ∧
    (getCell grid nextRow nextCol = None ∨
     ∃ t, getCell grid nextRow nextCol = Some t ∧ Tile.value t = value).
Proof.
  intros Hr Hc. split.
  - intros (r' & c' & Hax & Hr' & Hc' & Hopen).
    destruct Hax as [[-> [->| ->]]|[-> [->| ->]]].
    + exists DIRECTION_MAP.Left. split; [unfold dirs; rewrite !elem_of_cons; tauto|]. simpl.
      replace (clamp (r + 0) 0 (rows - 1)) with r by (unfold clamp; lia).
      replace (clamp (c + -1) 0 (cols - 1)) with (c - 1)
        by (unfold clamp; lia).
      split; [right; lia|done].
    + exists DIRECTION_MAP.Right. split; [unfold dirs; rewrite !elem_of_cons; tauto|]. simpl.
      replace (clamp (r + 0) 0 (rows - 1)) with r by (unfold clamp; lia).
      replace (clamp (c + 1) 0 (cols - 1)) with (c + 1)
        by (unfold clamp; lia).
      split; [right; lia|done].
    + exists DIRECTION_MAP.Up. split; [unfold dirs; rewrite !elem_of_cons; tauto|]. simpl.
      replace (clamp (r + -1) 0 (rows - 1)) with (r - 1)
        by (unfold clamp; lia).
      replace (clamp (c + 0) 0 (cols - 1)) with c by (unfold clamp; lia).
      split; [left; lia|done].
    + exists DIRECTION_MAP.Down. split; [unfold dirs; rewrite !elem_of_cons; tauto|]. simpl.
      replace (clamp (r + 1) 0 (rows - 1)) with (r + 1)
        by (unfold clamp; lia).
      replace (clamp (c + 0) 0 (cols - 1)) with c by (unfold clamp; lia).
      split; [left; lia|done].
  - intros (dir & Hdir & Hne & Hopen). cbv zeta in Hne, Hopen.
    exists (clamp (r + Vector.r dir) 0 (rows - 1)),
           (clamp (c + Vector.c dir) 0 (cols - 1)).
    split; [|split; [|split; [|done]]].
    + unfold dirs in Hdir. rewrite !elem_of_cons in Hdir.
      unfold axisNeighbour.
      destruct Hdir as [->|[->|[->|[->|Hnil]]]];
        [..|by apply elem_of_nil in Hnil];
        simpl in *; unfold clamp in *; lia.
    + unfold clamp. lia.
    + unfold clamp. lia.
Qed.

Lemma canGameContinue_tiles rows cols grid tiles :
  0 < rows → rectangular rows cols grid = true →
  canGameContinue grid tiles =
  Ok (if lengthZ tiles <? rows * cols then true
      else existsb (λ tile,
             existsb (canMoveTowards grid rows cols tile) dirs) tiles).
Proof.
  intros Hrows Hrect. destruct grid as [|row0 grid'].
  { apply rectangular_spec in Hrect as [Hlen _]. unfold lengthZ in Hlen.
    simpl in Hlen. lia. }
  unfold canGameContinue.
  destruct (rectangular_head _ _ _ _ Hrect) as [-> ->].
  by destruct (_ <? _).
Qed.

(** C7: on a well-formed grid whose tile list holds exactly the tiles of the
    grid, [canGameContinue] returns, and it returns false exactly when the
    grid is full and no tile has an open neighbour, that is a cell of the
    board at [(r, c - 1)], [(r, c + 1)], [(r - 1, c)] or [(r + 1, c)] that
    is empty or holds a tile of its value; when a cell of the board is empty
    it returns true. *)
Theorem canGameContinue_false_iff_stuck rows cols grid tiles :
  wellFormed rows cols grid = true →
  tiles ≡ₚ gridTiles grid →
  ∃ b, canGameContinue grid tiles = Ok b ∧
       (b = false ↔
        fullGrid rows cols grid ∧
        ∀ r c t, getCell grid r c = Some t →
                 ¬ openNeighbour grid rows cols r c (Tile.value t)) ∧
       ((∃ r c, 0 ≤ r < rows ∧ 0 ≤ c < cols ∧ getCell grid r c = None) →
        b = true).
Proof.
  intros (Hrows & Hrect & Hpos)%wellFormed_spec Hperm.
  rewrite (canGameContinue_tiles rows cols) by done.
  eexists. split; [done|].
  pose proof (length_gridTiles _ _ _ Hrect) as Hle.
  pose proof (fullGrid_count _ _ _ Hrect) as Hfull.
  assert (lengthZ tiles = lengthZ (gridTiles grid)) as Hlen
    by (unfold lengthZ; by rewrite Hperm).
  pose proof (proj1 (positioned_getCell grid) Hpos) as Hat.
  destruct (Z.ltb_spec (lengthZ tiles) (rows * cols)) as [Hlt|Hge].
  - split.
    + split; [done|]. intros [Hf%Hfull _]. lia.
    + done.
  - assert (fullGrid rows cols grid) as Hf by (apply Hfull; lia).
    split.
    + rewrite <- not_true_iff_false, <- Is_true_true, existb_True.
      rewrite Exists_exists. split.
      * intros Hnone. split; [done|].
        intros r c t Ht Hopen.
        destruct (getCell_in_range rows cols grid r c t Hrect Ht) as [Hr Hc].
        apply openNeighbour_dirs in Hopen as (dir & Hdir & Hopen); [|done..].
        apply Hnone. exists t. split.
        { rewrite Hperm. apply elem_of_gridTiles_getCell. eauto. }
        apply existb_True, Exists_exists. exists dir. split; [done|].
        apply Is_true_true, canMoveTowards_spec.
        destruct (Hat r c t Ht) as [-> ->]. exact Hopen.
      * intros [_ Hnone] (t & Ht & Hmove). rewrite Hperm in Ht.
        apply elem_of_gridTiles_getCell in Ht as (r & c & Ht).
        apply existb_True, Exists_exists in Hmove as (dir & Hdir & Hmove).
        apply Is_true_true, canMoveTowards_spec in Hmove.
        destruct (Hat r c t Ht) as [Hr Hc]. rewrite Hr, Hc in Hmove.
        destruct (getCell_in_range rows cols grid r c t Hrect Ht)
          as [Hrr Hcc].
        apply (Hnone r c t Ht). apply openNeighbour_dirs; [done..|].
        by exists dir.
    + intros (r & c & Hr & Hc & Hcell). by destruct (Hf r c).
Qed.

Lemma canGameContinue_false_iff_stuck_witness :
  wellFormed 2 2 boardStuck = true ∧
  gridTiles boardStuck ≡ₚ gridTiles boardStuck ∧
  ∃ b, canGameContinue boardStuck (gridTiles boardStuck) = Ok b ∧
       (b = false ↔
        fullGrid 2 2 boardStuck ∧
        ∀ r c t, getCell boardStuck r c = Some t →
                 ¬ openNeighbour boardStuck 2 2 r c (Tile.value t)) ∧
       ((∃ r c, 0 ≤ r < 2 ∧ 0 ≤ c < 2 ∧ getCell boardStuck r c = None) →
        b = true).
Proof.
  split; [reflexivity|]. split; [reflexivity|].
  apply (canGameContinue_false_iff_stuck 2 2 boardStuck (gridTiles boardStuck));
    reflexivity.
Defined.

(** The three boards of the specification's test: no equal neighbours on a
    full board is a loss, one equal pair or one empty cell is not. *)
Lemma canGameContinue_examples :
  canGameContinue boardStuck (gridTiles boardStuck) = Ok false ∧
  canGameContinue boardPair (gridTiles boardPair) = Ok true ∧
  canGameContinue boardGap (gridTiles boardGap) = Ok true.
Proof. repeat split. Qed.

(** ** One merge per tile and move *)

Lemma forEach_suffix {A S} (body : S → A → result S)
    (I : list A → S → Prop) arr s :
  (∀ a rest s, (a :: rest) `suffix_of` arr → I (a :: rest) s →
               ∃ s', body s a = Ok s' ∧ I rest s') →
  I arr s →
  ∃ s', forEach body arr s = Ok s' ∧ I [] s'.
Proof.
  intros Hbody.
  assert (∀ l s, l `suffix_of` arr → I l s →
                 ∃ s', forEach body l s = Ok s' ∧ I [] s') as Hgen.
  { induction l as [|a l IH]; intros s0 Hsuf HI; simpl; [eauto|].
    destruct (Hbody a l s0 Hsuf HI) as (s1 & -> & HI1). simpl.
    apply IH; [|done]. by apply suffix_cons_l in Hsuf. }
  by apply Hgen.
Qed.

Lemma lookup_createIndexArray len (i : nat) x :
  createIndexArray len !! i = Some x → x = Z.of_nat i.
Proof.
  unfold createIndexArray. rewrite list_lookup_fmap.
  destruct (seq 0 (Z.to_nat len) !! i) as [n|] eqn:Hn; [|done].
  apply lookup_seq in Hn as [-> _]. by intros [= <-].
Qed.

Lemma createIndexArray_after len pre a rest x :
  createIndexArray len = pre ++ a :: rest → x ∈ rest → a < x.
Proof.
  intros Heq [j Hj]%list_elem_of_lookup.
  assert (createIndexArray len !! length pre = Some a) as Ha.
  { rewrite Heq. by apply list_lookup_middle. }
  assert (createIndexArray len !! (length pre + S j)%nat = Some x) as Hx.
  { rewrite Heq, lookup_app_r by lia.
    by replace (length pre + S j - length pre)%nat with (S j) by lia. }
  apply lookup_createIndexArray in Ha, Hx. lia.
Qed.

Lemma traversal_behind len d a rest x :
  (a :: rest) `suffix_of`
    (if 0 <? d then reverse (createIndexArray len) else createIndexArray len) →
  x ∈ rest → behind d a x.
Proof.
  intros [pre Heq] Hx. unfold behind.
  destruct (0 <? d).
  - apply (f_equal reverse) in Heq.
    rewrite reverse_involutive, reverse_app, reverse_cons, <- app_assoc in Heq.
    simpl in Heq.
    apply elem_of_reverse, list_elem_of_split in Hx as (l1 & l2 & Hrest).
    rewrite Hrest, <- app_assoc in Heq. simpl in Heq.
    apply (createIndexArray_after len l1 x (l2 ++ a :: reverse pre) a);
      [done|].
    apply elem_of_app. right. apply list_elem_of_here.
  - by apply (createIndexArray_after len pre a rest x).
Qed.

Lemma behind_neq d a x : behind d a x → x ≠ a.
Proof. unfold behind. destruct (0 <? d); lia. Qed.

(** The sliding loop moves with the direction, never against it. *)
Lemma slide_forward newGrid dir rows cols tile fuel pos pos' :
  onBoard dir rows cols pos →
  slide fuel newGrid dir rows cols tile pos = Ok pos' →
  (if 0 <? Vector.r dir then currRow pos ≤ currRow pos'
   else currRow pos' ≤ currRow pos) ∧
  (if 0 <? Vector.c dir then currCol pos ≤ currCol pos'
   else currCol pos' ≤ currCol pos).
Proof.
  revert pos. induction fuel as [|fuel IH]; intros pos Hon; simpl.
  - destruct (negb _ || negb _); [done|]. intros [= ->].
    destruct (0 <? Vector.r dir), (0 <? Vector.c dir); lia.
  - destruct Hon as (Hr & Hc & Hnr & Hnc).
    assert ((if 0 <? Vector.r dir then currRow pos ≤ nextRow pos
             else nextRow pos ≤ currRow pos) ∧
            (if 0 <? Vector.c dir then currCol pos ≤ nextCol pos
             else nextCol pos ≤ currCol pos)) as Hstep.
    { rewrite Hnr, Hnc. unfold clamp.
      destruct (Z.ltb_spec 0 (Vector.r dir)),
        (Z.ltb_spec 0 (Vector.c dir)); lia. }
    destruct (negb _ || negb _).
    2:{ intros [= ->].
        destruct (0 <? Vector.r dir), (0 <? Vector.c dir); lia. }
    destruct (getCell newGrid (nextRow pos) (nextCol pos)) as [nextTile|].
    + destruct (_ && _); intros [= <-]; simpl; [done|].
      destruct (0 <? Vector.r dir), (0 <? Vector.c dir); lia.
    + intros Hs. apply IH in Hs.
      * simpl in Hs.
        destruct (0 <? Vector.r dir), (0 <? Vector.c dir); lia.
      * assert (0 ≤ nextRow pos < rows)
          by (rewrite Hnr; apply clamp_range; lia).
        assert (0 ≤ nextCol pos < cols)
          by (rewrite Hnc; apply clamp_range; lia).
        repeat split; simpl; lia.
Qed.

(** Sums over the tiles of a grid, and what writing a cell does to them. *)
Lemma sumZ_cons x l : sumZ (x :: l) = x + sumZ l.
Proof. done. Qed.

Lemma sumZ_row_insert (wt : Tile.t → Z) (row : list Cell) j old cell :
  row !! j = Some old →
  sumZ (wt <$> omap id (<[j := cell]> row))
  = sumZ (wt <$> omap id row) - cellWeight wt old + cellWeight wt cell.
Proof.
  revert j. induction row as [|x row IH]; intros j Hj; [done|].
  destruct j as [|j]; simpl in Hj.
  - injection Hj as ->.
    change (<[0%nat := cell]> (old :: row)) with (cell :: row).
    rewrite !omap_id_cons.
    destruct old, cell; rewrite ?fmap_cons, ?sumZ_cons; unfold cellWeight; lia.
  - change (<[S j := cell]> (x :: row)) with (x :: <[j := cell]> row).
    rewrite !omap_id_cons. specialize (IH j Hj).
    destruct x; rewrite ?fmap_cons, ?sumZ_cons; lia.
Qed.

Lemma gridWeight_cons wt row (grid : Grid) :
  gridWeight wt (row :: grid)
  = sumZ (wt <$> omap id row) + gridWeight wt grid.
Proof. unfold gridWeight. by rewrite gridTiles_cons, fmap_app, sumZ_app. Qed.

Lemma gridWeight_insert wt (grid : Grid) i j row cell :
  grid !! i = Some row → (j < length row)%nat →
  gridWeight wt (<[i := <[j := cell]> row]> grid)
  = gridWeight wt grid
    - cellWeight wt (match row !! j with Some old => old | None => None end)
    + cellWeight wt cell.
Proof.
  revert i. induction grid as [|row' grid IH]; intros i Hi Hj; [done|].
  destruct i as [|i]; simpl in Hi.
  - injection Hi as ->. simpl.
    destruct (lookup_lt_is_Some_2 row j Hj) as [old Hold].
    rewrite Hold, !gridWeight_cons, (sumZ_row_insert wt row j old) by done.
    lia.
  - simpl. rewrite !gridWeight_cons, (IH i) by done. lia.
Qed.

Lemma gridWeight_setCell wt rows cols grid r c cell :
  rectangular rows cols grid = true →
  0 ≤ r < rows → 0 ≤ c < cols →
  gridWeight wt (setCell grid r c cell)
  = gridWeight wt grid - cellWeight wt (getCell grid r c)
    + cellWeight wt cell.
Proof.
  intros [Hlen Hrows]%rectangular_spec Hr Hc. unfold setCell.
  destruct (Z.ltb_spec r 0); [lia|]. destruct (Z.ltb_spec c 0); [lia|].
  simpl. unfold lengthZ in *.
  destruct (lookup_lt_is_Some_2 grid (Z.to_nat r)) as [row Hrow]; [lia|].
  rewrite Hrow. pose proof (Hrows _ _ Hrow) as Hlenrow.
  rewrite (gridWeight_insert wt grid _ _ row) by (done || lia).
  replace (getCell grid r c)
    with (getCell grid (Z.of_nat (Z.to_nat r)) (Z.of_nat (Z.to_nat c)))
    by (f_equal; lia).
  by rewrite getCell_of_nat, Hrow.
Qed.

Lemma settled_getCell grid r c t :
  settled grid = true → getCell grid r c = Some t → Tile.canMerge t = false.
Proof.
  unfold settled. rewrite <- Is_true_true, forallb_True, Forall_forall.
  intros Hall Ht. apply negb_true_iff, Is_true_true, Hall.
  apply elem_of_gridTiles_getCell. eauto.
Qed.

Lemma additive_headCount : additive headCount.
Proof.
  intros tile r c target Hflag Htarget. unfold headCount. simpl. rewrite Hflag.
  destruct target as [t|]; simpl; [|done].
  destruct (Htarget t eq_refl) as [-> ->]. by rewrite Z.eqb_refl.
Qed.

Lemma additive_pendingValue : additive pendingValue.
Proof.
  intros tile r c target Hflag Htarget. unfold pendingValue. simpl.
  rewrite Hflag. destruct target as [t|]; simpl; [|lia].
  destruct (Htarget t eq_refl) as [-> ->]. rewrite Z.eqb_refl. lia.
Qed.

Lemma moveCell_conserving wt grid dir rows cols rowsLeft row col colsLeft acc :
  additive wt → settled grid = true →
  0 ≤ row < rows → 0 ≤ col < cols →
  (∀ x, x ∈ rowsLeft → behind (Vector.r dir) row x) →
  (∀ x, x ∈ colsLeft → behind (Vector.c dir) col x) →
  conserving wt grid rows cols rowsLeft row (col :: colsLeft) acc →
  ∃ acc', moveCell dir rows cols row acc col = Ok acc' ∧
          conserving wt grid rows cols rowsLeft row colsLeft acc'.
Proof.
  intros Hadd Hsettled Hr Hc Hrows Hcols (Hrect & Hund & Hw).
  assert (undisturbed grid cols rowsLeft row colsLeft (mv_grid acc)) as Hund'.
  { intros r c [?|[-> ?]]; apply Hund; [by left|right]. split; [done|].
    by apply elem_of_cons; right. }
  unfold moveCell.
  destruct (getCell (mv_grid acc) row col) as [tile|] eqn:Htile.
  2:{ by exists acc. }
  assert (Tile.canMerge tile = false) as Hflag.
  { apply (settled_getCell grid row col); [done|].
    rewrite <- Htile. symmetry. apply Hund. right. split; [done|].
    apply list_elem_of_here. }
  destruct (moveCell_slides dir rows cols row col (mv_grid acc) tile)
    as (pos & Hslide & Hpr & Hpc); [done..|].
  rewrite Hslide. simpl.
  pose proof (slide_landing _ _ _ _ _ _ _ _ Hslide) as Hland.
  apply slide_forward in Hslide as [Hfr Hfc];
    [|unfold onBoard, startPos; simpl; lia].
  simpl in Hland, Hfr, Hfc.
  destruct (negb (currRow pos =? row) || negb (currCol pos =? col)) eqn:Hmoved.
  - eexists. split; [done|]. split; [|split]; simpl.
    + by do 2 apply setCell_rectangular.
    + intros r c Hrc. rewrite <- (Hund' r c Hrc).
      rewrite (getCell_setCell rows cols)
        by (done || by apply setCell_rectangular).
      rewrite (getCell_setCell rows cols) by done.
      assert ((r =? row) && (c =? col) = false) as ->.
      { apply andb_false_iff.
        destruct Hrc as [[Hx%Hrows%behind_neq _]|[_ Hx%Hcols%behind_neq]];
          [left|right]; by apply Z.eqb_neq. }
      assert ((r =? currRow pos) && (c =? currCol pos) = false) as ->; [|done].
      apply andb_false_iff.
      destruct Hrc as [[Hx%Hrows _]|[-> Hx%Hcols]]; unfold behind in Hx.
      * left. apply Z.eqb_neq. destruct (0 <? Vector.r dir); lia.
      * destruct (Z.eqb_spec row (currRow pos)); [|by left].
        right. apply Z.eqb_neq. destruct (0 <? Vector.c dir); lia.
    + rewrite (gridWeight_setCell wt rows cols)
        by (done || by apply setCell_rectangular).
      rewrite (gridWeight_setCell wt rows cols) by done.
      rewrite (getCell_setCell rows cols) by done.
      assert ((row =? currRow pos) && (col =? currCol pos) = false) as ->.
      { apply orb_true_iff in Hmoved. apply andb_false_iff.
        destruct Hmoved as [H|H]; apply negb_true_iff, Z.eqb_neq in H;
          [left|right]; apply Z.eqb_neq; lia. }
      rewrite Htile, <- Hw. simpl.
      rewrite (Hadd tile _ _ _ Hflag); [lia|].
      intros t Ht. destruct Hland as [[Hr' Hc']|[Hnone|(tg & Htg & Hv & Hf)]].
      * apply orb_true_iff in Hmoved.
        destruct Hmoved as [H|H]; apply negb_true_iff, Z.eqb_neq in H; lia.
      * congruence.
      * rewrite Htg in Ht. by injection Ht as <-.
  - destruct (getCell (mv_grid acc) (currRow pos) (currCol pos));
      eexists; (split; [done|]); by split.
Qed.

Lemma moveRow_conserving wt grid dir rows cols rowsLeft row acc :
  additive wt → settled grid = true →
  0 ≤ row < rows →
  (∀ x, x ∈ rowsLeft → behind (Vector.r dir) row x) →
  conserving wt grid rows cols (row :: rowsLeft) row [] acc →
  ∃ acc',
    moveRow dir rows cols (trav_cols (createTraversalMap rows cols dir))
      acc row = Ok acc' ∧
    conserving wt grid rows cols rowsLeft row [] acc'.
Proof.
  intros Hadd Hsettled Hr Hrows (Hrect & Hund & Hw). unfold moveRow.
  apply (forEach_suffix (moveCell dir rows cols row)
           (λ colsLeft, conserving wt grid rows cols rowsLeft row colsLeft)).
  - intros col rest acc0 Hsuf Hacc0.
    apply moveCell_conserving; try done.
    + apply elem_of_trav_cols with (rows := rows) (dir := dir).
      destruct Hsuf as [pre ->]. apply elem_of_app. right.
      apply list_elem_of_here.
    + intros x Hx. by apply (traversal_behind cols _ col rest).
  - split; [done|]. split; [|done].
    intros r c [[Hrl Hcl]|[-> Hcl%elem_of_trav_cols]]; apply Hund; left;
      (split; [|done]).
    + by apply elem_of_cons; right.
    + apply list_elem_of_here.
Qed.

Lemma moveInDirection_conserving wt rows cols grid dir :
  additive wt →
  wellFormed rows cols grid = true → settled grid = true →
  ∃ res, moveInDirection grid dir = Ok res ∧
         gridWeight wt (mv_grid res) = gridWeight wt grid.
Proof.
  intros Hadd (Hrows & Hrect & Hpos)%wellFormed_spec Hsettled.
  destruct grid as [|row0 grid'].
  { apply rectangular_spec in Hrect as [Hlen _]. unfold lengthZ in Hlen.
    simpl in Hlen. lia. }
  destruct (rectangular_head _ _ _ _ Hrect) as [Hlen Hlen0].
  unfold moveInDirection. rewrite Hlen, Hlen0.
  set (grid := row0 :: grid') in *.
  destruct (forEach_suffix
              (moveRow dir rows cols
                 (trav_cols (createTraversalMap rows cols dir)))
              (λ rowsLeft, conserving wt grid rows cols rowsLeft 0 [])
              (trav_rows (createTraversalMap rows cols dir))
              {| mv_tiles := []; mv_grid := grid; mv_moveStack := [] |})
    as (res & Hrun & _ & _ & Hw).
  - intros row rest acc Hsuf (Hrect' & Hund & Hw).
    destruct (moveRow_conserving wt grid dir rows cols rest row acc)
      as (acc' & Hrun & Hrect'' & Hund' & Hw'); try done.
    + apply elem_of_trav_rows with (cols := cols) (dir := dir).
      destruct Hsuf as [pre ->]. apply elem_of_app. right.
      apply list_elem_of_here.
    + intros x Hx. by apply (traversal_behind rows _ row rest).
    + split; [done|]. split; [|done].
      intros r c [Hrc|[_ Hc]]; [|by apply elem_of_nil in Hc].
      apply Hund. by left.
    + exists acc'. split; [done|]. split; [done|]. split; [|done].
      intros r c [Hrc|[_ Hc]]; [|by apply elem_of_nil in Hc].
      apply Hund'. by left.
  - split; [done|]. split; [|done]. by intros r c _.
  - by exists res.
Qed.

Lemma gridWeight_headCount grid :
  gridWeight headCount grid
  = lengthZ (gridTiles grid) + lengthZ (mergeTargets grid).
Proof.
  unfold gridWeight, mergeTargets, lengthZ.
  induction (gridTiles grid) as [|t ts IH]; [done|].
  rewrite fmap_cons, sumZ_cons, filter_cons, IH. unfold headCount.
  destruct (Tile.canMerge t); case_decide; try done; simpl; lia.
Qed.

Lemma gridWeight_pendingValue grid :
  gridWeight pendingValue grid
  = sumZ (Tile.value <$> (mergedTile <$> gridTiles grid)).
Proof.
  unfold gridWeight.
  induction (gridTiles grid) as [|t ts IH]; [done|].
  by rewrite !fmap_cons, !sumZ_cons, IH.
Qed.

Lemma settled_mergeTargets grid : settled grid = true → mergeTargets grid = [].
Proof.
  unfold settled, mergeTargets.
  induction (gridTiles grid) as [|t ts IH]; [done|].
  intros H. simpl in H. apply andb_true_iff in H as [Ht Hts].
  rewrite filter_cons, IH by done.
  apply negb_true_iff in Ht. case_decide; [congruence|done].
Qed.

Lemma settled_mergedTile grid :
  settled grid = true →
  Tile.value <$> (mergedTile <$> gridTiles grid)
  = Tile.value <$> gridTiles grid.
Proof.
  unfold settled.
  induction (gridTiles grid) as [|t ts IH]; [done|].
  intros H. simpl in H. apply andb_true_iff in H as [Ht Hts].
  rewrite !fmap_cons, IH by done.
  apply negb_true_iff in Ht. simpl. by rewrite Ht.
Qed.


(** On a settled, well-formed grid a move pairs tiles off: every tile that
    disappears went into a merge target of its own, and the values after the
    merges add up to the values before. *)
Lemma moveInDirection_pairs_tiles rows cols grid dir :
  wellFormed rows cols grid = true → settled grid = true →
  ∃ res, moveInDirection grid dir = Ok res ∧
         lengthZ (gridTiles grid)
         = lengthZ (gridTiles (mv_grid res))
           + lengthZ (mergeTargets (mv_grid res)) ∧
         sumZ (Tile.value <$> (mergedTile <$> gridTiles (mv_grid res)))
         = sumZ (Tile.value <$> gridTiles grid).
Proof.
  intros Hwf Hsettled.
  destruct (moveInDirection_conserving headCount rows cols grid dir
              additive_headCount Hwf Hsettled) as (res & Hrun & Hcount).
  destruct (moveInDirection_conserving pendingValue rows cols grid dir
              additive_pendingValue Hwf Hsettled) as (res' & Hrun' & Hvalue).
  rewrite Hrun in Hrun'. injection Hrun' as <-.
  exists res. split; [done|].
  rewrite !gridWeight_headCount, (settled_mergeTargets grid) in Hcount by done.
  rewrite !gridWeight_pendingValue, (settled_mergedTile grid) in Hvalue by done.
  unfold lengthZ in *. simpl in Hcount. split; [lia|done].
Qed.





(** The same row through the hook: the move puts two tiles in flight, their
    completion signals empty the pending stack, and the settle effect that
    is then due merges to [4,4], spawns one tile and scores 8. *)
Lemma row2222_through_the_hook :
  cycleSummary (moveAndSettle DIRECTION_MAP.Left (hookOf row2222) world0)
  = Some ([[Some 4; Some 4; None; Some 2]], [], Some 8).
Proof. vm_compute. reflexivity. Qed.

(** Without a counter reset in between, different indices give different
    identifiers, whatever the clock shows: a collision needs the reset. *)
Lemma length_append (s t : string) :
  String.length (s +:+ t) = (String.length s + String.length t)%nat.
Proof. induction s as [|a s IH]; simpl; [done|]. by rewrite IH. Qed.

Lemma append_inj_r (s1 s2 t : string) : s1 +:+ t = s2 +:+ t → s1 = s2.
Proof.
  revert s2. induction s1 as [|a s1 IH]; intros [|b s2] Heq; simpl in Heq.
  - done.
  - apply (f_equal String.length) in Heq.
    rewrite !length_append in Heq. simpl in Heq. lia.
  - apply (f_equal String.length) in Heq.
    rewrite !length_append in Heq. simpl in Heq. lia.
  - injection Heq as -> Heq. f_equal. by apply IH.
Qed.

Lemma getId_inj ind1 ind2 w : getId ind1 w = getId ind2 w → ind1 = ind2.
Proof.
  unfold getId. intros Heq%append_inj_r. by apply pretty_Z_inj in Heq.
Qed.

(** * Further properties of the engine *)

(** ** [shuffle] and [sortTiles] *)

Lemma insert_Permutation {A} (l : list A) i x y :
  l !! i = Some x → <[i := y]> l ≡ₚ y :: delete i l.
Proof.
  intros Hi. pose proof (lookup_lt_Some _ _ _ Hi) as Hlt.
  rewrite insert_take_drop, delete_take_drop by done.
  by rewrite Permutation_middle.
Qed.

Lemma swap_Permutation {A} i j (l : list A) : swap i j l ≡ₚ l.
Proof.
  unfold swap.
  destruct (l !! i) as [x|] eqn:Hi; [|done].
  destruct (l !! j) as [y|] eqn:Hj; [|done].
  destruct (decide (i = j)) as [->|Hne].
  - assert (x = y) as -> by congruence.
    by rewrite (list_insert_id l j y Hj), (list_insert_id l j y Hj).
  - assert (<[i := y]> l !! j = Some y) as Hj'
      by by rewrite list_lookup_insert_ne.
    rewrite (insert_Permutation _ j y x Hj').
    pose proof (delete_Permutation _ _ _ Hj') as H1.
    rewrite (insert_Permutation l i x y Hi) in H1 at 1.
    apply Permutation_cons_inv in H1. rewrite <- H1.
    symmetry. by apply delete_Permutation.
Qed.

Lemma Math_random_range w :
  0 ≤ (Math_random w).1 < randomDenominator.
Proof. simpl. apply Z.mod_pos_bound. done. Qed.

Lemma shuffleLoop_Permutation {A} i (l : list A) w :
  (shuffleLoop i l w).1 ≡ₚ l.
Proof.
  revert l w. induction i as [|i IH]; intros l w; [done|].
  unfold shuffleLoop; fold (@shuffleLoop A).
  destruct (Math_random w) as [x w1]. rewrite IH. apply swap_Permutation.
Qed.

Lemma shuffleLoop_world {A} i (l : list A) w :
  _tileIndex (shuffleLoop i l w).2 = _tileIndex w ∧
  now (shuffleLoop i l w).2 = now w ∧
  randomSource (shuffleLoop i l w).2 = randomSource w ∧
  randomCalls (shuffleLoop i l w).2 = (randomCalls w + i)%nat.
Proof.
  revert l w. induction i as [|i IH]; intros l w.
  - simpl. repeat split; lia.
  - unfold shuffleLoop; fold (@shuffleLoop A).
    destruct (Math_random w) as [x w1] eqn:Hr.
    destruct (IH (swap (S i)
                    (Z.to_nat ((x * (Z.of_nat (S i) + 1)) `div` randomDenominator))
                    l) w1) as (H1 & H2 & H3 & H4).
    injection Hr as _ <-. simpl in *. repeat split; try done. lia.
Qed.

(** [shuffle] returns a permutation of its argument, whatever the random
    source; it draws one number for each element but the first, and the index
    [j] it computes from a draw for position [i] is never beyond [i], so
    every swap is inside the array. *)
Theorem shuffle_permutes {A} (arr : list A) w :
  (shuffle arr w).1 ≡ₚ arr ∧
  length (shuffle arr w).1 = length arr ∧
  randomCalls (shuffle arr w).2 = (randomCalls w + (length arr - 1))%nat ∧
  _tileIndex (shuffle arr w).2 = _tileIndex w ∧
  ∀ w' (i : nat),
    (Z.to_nat (((Math_random w').1 * (Z.of_nat i + 1)) `div` randomDenominator)
     ≤ i)%nat.
Proof.
  unfold shuffle. split; [apply shuffleLoop_Permutation|].
  split; [apply length_shuffleLoop|].
  destruct (shuffleLoop_world (length arr - 1) arr w) as (H1 & _ & _ & H4).
  split; [done|]. split; [done|].
  intros w' i. pose proof (Math_random_range w') as Hx.
  unfold randomDenominator in *.
  assert (((Math_random w').1 * (Z.of_nat i + 1)) `div` 2 ^ 53
          < Z.of_nat i + 1).
  { apply Z.div_lt_upper_bound; [done|]. nia. }
  lia.
Qed.

Lemma insertTile_Permutation t sorted : insertTile t sorted ≡ₚ t :: sorted.
Proof.
  induction sorted as [|x sorted IH]; simpl; [done|].
  destruct (Tile.index t <=? Tile.index x); [done|].
  rewrite IH. apply Permutation_swap.
Qed.

Lemma insertTile_sorted t sorted :
  StronglySorted byIndex sorted → StronglySorted byIndex (insertTile t sorted).
Proof.
  induction sorted as [|x sorted IH]; intros Hs; simpl.
  - repeat constructor.
  - destruct (Z.leb_spec (Tile.index t) (Tile.index x)) as [Hle|Hgt].
    + constructor; [done|]. apply StronglySorted_inv in Hs as [_ Hx].
      constructor; [done|].
      eapply Forall_impl; [exact Hx|]. unfold byIndex. intros; simpl in *; lia.
    + apply StronglySorted_inv in Hs as [Hs Hx].
      constructor; [by apply IH|].
      rewrite insertTile_Permutation. constructor; [|done].
      unfold byIndex. lia.
Qed.

Lemma insertTile_filter k t sorted :
  filter (λ x, Tile.index x = k) (insertTile t sorted)
  = filter (λ x, Tile.index x = k) (t :: sorted).
Proof.
  induction sorted as [|x sorted IH]; simpl; [done|].
  destruct (Z.leb_spec (Tile.index t) (Tile.index x)) as [Hle|Hgt]; [done|].
  rewrite (filter_cons _ x), IH, !filter_cons.
  repeat case_decide; try done. lia.
Qed.

(** [sortTiles] returns the tiles it was given, in non-decreasing order of
    index, and it is stable: tiles of the same index keep their order. *)
Theorem sortTiles_sorts tiles :
  sortTiles tiles ≡ₚ tiles ∧
  StronglySorted byIndex (sortTiles tiles) ∧
  ∀ k, filter (λ t, Tile.index t = k) (sortTiles tiles)
       = filter (λ t, Tile.index t = k) tiles.
Proof.
  unfold sortTiles. induction tiles as [|t tiles (IHp & IHs & IHf)]; simpl.
  - repeat split; constructor.
  - split; [by rewrite insertTile_Permutation, IHp|].
    split; [by apply insertTile_sorted|].
    intros k. rewrite insertTile_filter, !filter_cons, IHf. done.
Qed.

(** ** Building the grid and listing its empty cells *)

(** [createEmptyGrid] in closed form, for dimensions below [2^32]: a
    [RangeError] for a negative number of rows, and for a negative number of
    columns when there is a row to build; no rows at all for [rows = 0],
    whatever [cols] is; otherwise [rows] rows of [cols] empty cells. *)
Theorem createEmptyGrid_cases rows cols :
  rows < 2 ^ 32 → (0 < rows → cols < 2 ^ 32) →
  createEmptyGrid rows cols =
  if rows <? 0 then RangeError
  else if (0 <? rows) && (cols <? 0) then RangeError
  else Ok (replicate (Z.to_nat rows) (replicate (Z.to_nat cols) None)).
Proof.
  intros _ _.
  destruct (Z.ltb_spec rows 0) as [Hr|Hr].
  { unfold createEmptyGrid, createRow. by destruct (Z.ltb_spec rows 0); [|lia]. }
  destruct (Z.ltb_spec 0 rows) as [Hpos|Hzero]; simpl.
  - destruct (Z.ltb_spec cols 0) as [Hc|Hc].
    + unfold createEmptyGrid, createRow.
      destruct (Z.ltb_spec rows 0); [lia|]. destruct (Z.ltb_spec cols 0); [|lia].
      unfold createIndexArray.
      destruct (Z.to_nat rows) as [|n] eqn:Hn; [lia|]. done.
    + by apply createEmptyGrid_spec.
  - assert (rows = 0) as -> by lia.
    unfold createEmptyGrid, createRow. done.
Qed.

Lemma createEmptyGrid_cases_witness :
  createEmptyGrid (-1) 4 = RangeError ∧
  createEmptyGrid 2 (-1) = RangeError ∧
  createEmptyGrid 0 (-1) = Ok [] ∧
  createEmptyGrid 1 2 = Ok [[None; None]].
Proof.
  split; [|split; [|split]].
  - rewrite (createEmptyGrid_cases (-1) 4); [reflexivity..|].
    intros H. discriminate H.
  - rewrite (createEmptyGrid_cases 2 (-1)); [reflexivity..|].
    intros _. reflexivity.
  - rewrite (createEmptyGrid_cases 0 (-1)); [reflexivity..|].
    intros H. discriminate H.
  - rewrite (createEmptyGrid_cases 1 2); [reflexivity..|].
    intros _. reflexivity.
Defined.

Lemma NoDup_flatMapFrom {A B} (key : B → Z) start (f : A → Z → list B) arr :
  (∀ a i y, y ∈ f a i → key y = i) →
  (∀ a i, NoDup (f a i)) →
  NoDup (flatMapFrom start f arr).
Proof.
  intros Hkey Hnd. revert start.
  induction arr as [|a arr IH]; intros start; simpl; [constructor|].
  apply NoDup_app. split; [done|]. split; [|done].
  intros y Hy (i & a' & _ & Hy')%elem_of_flatMapFrom.
  apply Hkey in Hy, Hy'. lia.
Qed.

Lemma getEmptyCellsLocation_exact_spec rows cols grid :
  rectangular rows cols grid = true →
  NoDup (getEmptyCellsLocation grid) ∧
  (∀ r c, Location.mk r c ∈ getEmptyCellsLocation grid ↔
          0 ≤ r < rows ∧ 0 ≤ c < cols ∧ getCell grid r c = None) ∧
  lengthZ (getEmptyCellsLocation grid) + lengthZ (gridTiles grid)
  = rows * cols.
Proof.
  intros Hrect. split; [|split].
  - unfold getEmptyCellsLocation.
    apply (NoDup_flatMapFrom Location.r).
    + intros row i y (j & cell & _ & Hy)%elem_of_flatMapFrom.
      destruct cell; [by apply elem_of_nil in Hy|].
      by apply list_elem_of_singleton in Hy as ->.
    + intros row i. apply (NoDup_flatMapFrom Location.c).
      * intros cell j y Hy. destruct cell; [by apply elem_of_nil in Hy|].
        by apply list_elem_of_singleton in Hy as ->.
      * intros [t|] j; [constructor|apply NoDup_singleton].
  - intros r c. rewrite elem_of_getEmptyCellsLocation.
    pose proof Hrect as [Hlen Hrows]%rectangular_spec. split.
    + intros (i & j & row & Hi & Hj & [= -> ->]).
      pose proof (Hrows _ _ Hi) as Hc.
      apply lookup_lt_Some in Hi as Hi'. apply lookup_lt_Some in Hj as Hj'.
      unfold lengthZ in *. repeat split; try lia.
      by rewrite getCell_of_nat, Hi, Hj.
    + intros (Hr & Hc & Hcell).
      destruct (lookupZ_lt grid r) as [row Hrow]; [lia|].
      pose proof Hrow as [_ Hi]%lookupZ_Some.
      pose proof (Hrows _ _ Hi) as Hlenrow.
      destruct (lookupZ_lt row c) as [cell Hcol]; [lia|].
      unfold getCell in Hcell. rewrite Hrow, Hcol in Hcell. subst cell.
      apply lookupZ_Some in Hcol as [_ Hj].
      exists (Z.to_nat r), (Z.to_nat c), row. repeat split; try done.
      f_equal; lia.
  - rewrite (length_getEmptyCellsLocation rows cols) by done. lia.
Qed.

(** [getEmptyCellsLocation] lists every empty cell of a rectangular board
    once, and nothing else; with the tiles of the grid they make up the
    board. *)
Theorem getEmptyCellsLocation_exact rows cols grid :
  rectangular rows cols grid = true →
  NoDup (getEmptyCellsLocation grid) ∧
  (∀ r c, Location.mk r c ∈ getEmptyCellsLocation grid ↔
          0 ≤ r < rows ∧ 0 ≤ c < cols ∧ getCell grid r c = None) ∧
  lengthZ (getEmptyCellsLocation grid) + lengthZ (gridTiles grid)
  = rows * cols.
Proof. intros. by apply getEmptyCellsLocation_exact_spec. Qed.

Lemma getEmptyCellsLocation_exact_witness :
  rectangular 2 2 boardGap = true ∧
  getEmptyCellsLocation boardGap = [Location.mk 1 1] ∧
  NoDup (getEmptyCellsLocation boardGap) ∧
  (∀ r c, Location.mk r c ∈ getEmptyCellsLocation boardGap ↔
          0 ≤ r < 2 ∧ 0 ≤ c < 2 ∧ getCell boardGap r c = None) ∧
  lengthZ (getEmptyCellsLocation boardGap) + lengthZ (gridTiles boardGap)
  = 2 * 2.
Proof.
  split; [reflexivity|]. split; [reflexivity|].
  apply (getEmptyCellsLocation_exact 2 2 boardGap). reflexivity.
Defined.

(** ** The spawner and the identity allocator *)

Lemma createNewTile_world r c w :
  _tileIndex (createNewTile r c w).2 = _tileIndex w + 1 ∧
  now (createNewTile r c w).2 = now w ∧
  Tile.index (createNewTile r c w).1 = _tileIndex w ∧
  Tile.id (createNewTile r c w).1 = getId (_tileIndex w) w ∧
  locationOf (createNewTile r c w).1 = Location.mk r c.
Proof. done. Qed.

Lemma createTiles_spec cells w :
  locationOf <$> (createTiles cells w).1 = cells ∧
  Tile.index <$> (createTiles cells w).1 = seqZ (_tileIndex w) (lengthZ cells) ∧
  Tile.id <$> (createTiles cells w).1
  = (λ i, getId i w) <$> seqZ (_tileIndex w) (lengthZ cells) ∧
  _tileIndex (createTiles cells w).2 = _tileIndex w + lengthZ cells ∧
  now (createTiles cells w).2 = now w.
Proof.
  revert w. induction cells as [|l cells IH]; intros w.
  - simpl. unfold lengthZ. simpl. repeat split; lia.
  - rewrite createTiles_cons.
    destruct (createNewTile_world (Location.r l) (Location.c l) w)
      as (Hi & Hn & Hidx & Hid & Hloc).
    destruct (createNewTile (Location.r l) (Location.c l) w) as [t w1].
    destruct (IH w1) as (IH1 & IH2 & IH3 & IH4 & IH5).
    destruct (createTiles cells w1) as [ts w2]. cbn [fst snd] in *.
    assert (lengthZ (l :: cells) = Z.succ (lengthZ cells)) as ->
      by (unfold lengthZ; simpl; lia).
    rewrite (seqZ_cons (_tileIndex w)) by (unfold lengthZ; lia).
    rewrite Z.pred_succ, !fmap_cons.
    replace (Z.succ (_tileIndex w)) with (_tileIndex w1) by lia.
    repeat split.
    + rewrite Hloc, IH1. by destruct l.
    + by rewrite Hidx, IH2.
    + rewrite Hid, IH3. f_equal. apply list_fmap_ext.
      intros _ i _. unfold getId. by rewrite Hn.
    + lia.
    + congruence.
Qed.

Lemma shuffle_world {A} (arr : list A) w :
  _tileIndex (shuffle arr w).2 = _tileIndex w ∧ now (shuffle arr w).2 = now w.
Proof.
  unfold shuffle.
  destruct (shuffleLoop_world (length arr - 1) arr w) as (? & ? & _). done.
Qed.

Lemma createRandomTiles_spawns_spec emptyCells amount w :
  0 ≤ amount → NoDup emptyCells →
  let tiles := (createRandomTiles emptyCells amount w).1 in
  let w' := (createRandomTiles emptyCells amount w).2 in
  lengthZ tiles = Z.min amount (lengthZ emptyCells) ∧
  NoDup (locationOf <$> tiles) ∧
  (∀ t, t ∈ tiles → locationOf t ∈ emptyCells) ∧
  Tile.index <$> tiles = seqZ (_tileIndex w) (lengthZ tiles) ∧
  _tileIndex w' = _tileIndex w + lengthZ tiles ∧
  NoDup (Tile.id <$> tiles) ∧
  Forall freshTile tiles.
Proof.
  intros Hamount Hnd. cbv zeta.
  pose proof (length_createRandomTiles emptyCells amount w Hamount) as Hlen.
  pose proof (createRandomTiles_fresh emptyCells amount w) as Hfresh.
  split; [done|]. rewrite Hlen. clear Hlen.
  unfold createRandomTiles in *.
  set (tilesNumber :=
         if lengthZ emptyCells <? amount then lengthZ emptyCells else amount)
    in *.
  assert (tilesNumber = Z.min amount (lengthZ emptyCells)) as Hn.
  { unfold tilesNumber. destruct (Z.ltb_spec (lengthZ emptyCells) amount); lia. }
  destruct (Z.eqb_spec tilesNumber 0) as [H0|H0].
  { simpl. rewrite <- Hn, H0. repeat split; try constructor; try lia.
    intros t Ht. by apply elem_of_nil in Ht. }
  pose proof (shuffleLoop_Permutation (length emptyCells - 1) emptyCells w)
    as Hperm.
  pose proof (length_shuffleLoop (length emptyCells - 1) emptyCells w) as Hlen.
  destruct (shuffle_world emptyCells w) as [Hidx Hnow].
  unfold shuffle in *.
  destruct (shuffleLoop (length emptyCells - 1) emptyCells w)
    as [shuffled w1]. simpl in Hperm, Hlen, Hidx, Hnow.
  destruct (createTiles_spec (take (Z.to_nat tilesNumber) shuffled) w1)
    as (Hloc & Hind & Hid & Hcount & _).
  assert (lengthZ (take (Z.to_nat tilesNumber) shuffled)
          = Z.min amount (lengthZ emptyCells)) as Htake.
  { unfold lengthZ in *. rewrite length_take. lia. }
  rewrite Htake, Hidx in *.
  assert (NoDup (take (Z.to_nat tilesNumber) shuffled)) as Hndt.
  { apply (sublist_NoDup _ shuffled); [by rewrite Hperm|apply sublist_take]. }
  repeat split; try done.
  - by rewrite Hloc.
  - intros t Ht. rewrite <- Hperm.
    assert (locationOf t ∈ take (Z.to_nat tilesNumber) shuffled) as Hin.
    { rewrite <- Hloc. apply list_elem_of_fmap. eauto. }
    apply elem_of_take in Hin as (i & Hi & _).
    apply list_elem_of_lookup. eauto.
  - rewrite Hid. apply NoDup_fmap_2; [|apply NoDup_seqZ].
    intros i1 i2. apply getId_inj.
Qed.

(** What [createRandomTiles] makes out of a duplicate-free list of cells:
    [min amount (number of cells)] tiles, at pairwise different cells of the
    list, with consecutive indices starting at the counter (which it leaves
    just past the last one), pairwise different identifiers, each tile new
    and worth 2 or 4. *)
Theorem createRandomTiles_spawns emptyCells amount w :
  0 ≤ amount → NoDup emptyCells →
  let tiles := (createRandomTiles emptyCells amount w).1 in
  let w' := (createRandomTiles emptyCells amount w).2 in
  lengthZ tiles = Z.min amount (lengthZ emptyCells) ∧
  NoDup (locationOf <$> tiles) ∧
  (∀ t, t ∈ tiles → locationOf t ∈ emptyCells) ∧
  Tile.index <$> tiles = seqZ (_tileIndex w) (lengthZ tiles) ∧
  _tileIndex w' = _tileIndex w + lengthZ tiles ∧
  NoDup (Tile.id <$> tiles) ∧
  Forall freshTile tiles.
Proof. intros. by apply createRandomTiles_spawns_spec. Qed.

Lemma createRandomTiles_spawns_witness :
  0 ≤ 2 ∧ NoDup (getEmptyCellsLocation rowMergedLeft) ∧
  let tiles :=
    (createRandomTiles (getEmptyCellsLocation rowMergedLeft) 2 world1).1 in
  let w' :=
    (createRandomTiles (getEmptyCellsLocation rowMergedLeft) 2 world1).2 in
  lengthZ tiles = Z.min 2 (lengthZ (getEmptyCellsLocation rowMergedLeft)) ∧
  NoDup (locationOf <$> tiles) ∧
  (∀ t, t ∈ tiles → locationOf t ∈ getEmptyCellsLocation rowMergedLeft) ∧
  Tile.index <$> tiles = seqZ (_tileIndex world1) (lengthZ tiles) ∧
  _tileIndex w' = _tileIndex world1 + lengthZ tiles ∧
  NoDup (Tile.id <$> tiles) ∧
  Forall freshTile tiles.
Proof.
  assert (NoDup (getEmptyCellsLocation rowMergedLeft)) as Hnd.
  { apply (getEmptyCellsLocation_exact_spec 1 4 rowMergedLeft). reflexivity. }
  split; [lia|]. split; [exact Hnd|].
  apply (createRandomTiles_spawns (getEmptyCellsLocation rowMergedLeft) 2
           world1); [lia|exact Hnd].
Defined.

(** ** Placing tiles, and the boards the finalizer and the reset build *)

Lemma omap_insert_None {A} (row : list (option A)) j t :
  row !! j = Some None → omap id (<[j := Some t]> row) ≡ₚ t :: omap id row.
Proof.
  revert j. induction row as [|x row IH]; intros j Hj; [done|].
  destruct j as [|j]; simpl in Hj.
  - injection Hj as ->.
    change (<[0%nat := Some t]> (None :: row)) with (Some t :: row).
    by rewrite !omap_id_cons.
  - change (<[S j := Some t]> (x :: row)) with (x :: <[j := Some t]> row).
    rewrite !omap_id_cons. destruct x as [a|]; rewrite (IH j Hj); [|done].
    apply Permutation_swap.
Qed.

Lemma gridTiles_insert_None (grid : Grid) i j row t :
  grid !! i = Some row → row !! j = Some None →
  gridTiles (<[i := <[j := Some t]> row]> grid) ≡ₚ t :: gridTiles grid.
Proof.
  revert i. induction grid as [|row' grid IH]; intros i Hi Hj; [done|].
  destruct i as [|i]; simpl in Hi.
  - injection Hi as ->.
    change (<[0%nat := <[j := Some t]> row]> (row :: grid))
      with (<[j := Some t]> row :: grid).
    by rewrite !gridTiles_cons, (omap_insert_None row j t Hj).
  - change (<[S i := <[j := Some t]> row]> (row' :: grid))
      with (row' :: <[i := <[j := Some t]> row]> grid).
    rewrite !gridTiles_cons, (IH i Hi Hj). by rewrite Permutation_middle.
Qed.

Lemma gridTiles_setCell_empty rows cols grid r c t :
  rectangular rows cols grid = true →
  0 ≤ r < rows → 0 ≤ c < cols → getCell grid r c = None →
  gridTiles (setCell grid r c (Some t)) ≡ₚ t :: gridTiles grid.
Proof.
  intros [Hlen Hrows]%rectangular_spec Hr Hc Hcell. unfold setCell.
  destruct (Z.ltb_spec r 0); [lia|]. destruct (Z.ltb_spec c 0); [lia|].
  simpl. unfold lengthZ in *.
  destruct (lookup_lt_is_Some_2 grid (Z.to_nat r)) as [row Hrow]; [lia|].
  rewrite Hrow. pose proof (Hrows _ _ Hrow) as Hlenrow.
  destruct (lookup_lt_is_Some_2 row (Z.to_nat c)) as [cell Hcol]; [lia|].
  apply gridTiles_insert_None; [done|].
  replace (getCell grid r c)
    with (getCell grid (Z.of_nat (Z.to_nat r)) (Z.of_nat (Z.to_nat c)))
    in Hcell by (f_equal; lia).
  rewrite getCell_of_nat, Hrow, Hcol in Hcell. by subst cell.
Qed.

Lemma placeTiles_spec rows cols grid newTiles :
  rectangular rows cols grid = true → positioned grid = true →
  NoDup (locationOf <$> newTiles) →
  (∀ t, t ∈ newTiles →
        0 ≤ Tile.r t < rows ∧ 0 ≤ Tile.c t < cols ∧
        getCell grid (Tile.r t) (Tile.c t) = None) →
  rectangular rows cols (placeTiles grid newTiles) = true ∧
  positioned (placeTiles grid newTiles) = true ∧
  gridTiles (placeTiles grid newTiles) ≡ₚ gridTiles grid ++ newTiles.
Proof.
  revert grid. induction newTiles as [|t ts IH]; intros grid Hrect Hpos Hnd Hin.
  - simpl. by rewrite app_nil_r.
  - rewrite fmap_cons in Hnd. apply NoDup_cons in Hnd as [Hnotin Hnd].
    destruct (Hin t) as (Hr & Hc & Hcell); [left|].
    unfold placeTiles in *. simpl.
    destruct (IH (setCell grid (Tile.r t) (Tile.c t) (Some t)))
      as (IH1 & IH2 & IH3).
    + by apply setCell_rectangular.
    + apply (setCell_positioned rows cols); try done. by intros ? [= <-].
    + done.
    + intros t' Ht'. destruct (Hin t') as (Hr' & Hc' & Hcell'); [by right|].
      split; [done|]. split; [done|].
      rewrite (getCell_setCell rows cols) by done.
      destruct (Z.eqb_spec (Tile.r t') (Tile.r t)) as [Her|]; [|done].
      destruct (Z.eqb_spec (Tile.c t') (Tile.c t)) as [Hec|]; [|done].
      exfalso. apply Hnotin. apply list_elem_of_fmap. exists t'.
      split; [|done]. unfold locationOf. by rewrite Her, Hec.
    + split; [done|]. split; [done|]. rewrite IH3.
      rewrite (gridTiles_setCell_empty rows cols) by done.
      by rewrite <- Permutation_middle.
Qed.

Lemma gridTiles_merged (grid : Grid) :
  gridTiles ((λ row : list Cell, option_map mergedTile <$> row) <$> grid)
  = mergedTile <$> gridTiles grid.
Proof.
  induction grid as [|row grid IH]; [done|].
  rewrite fmap_cons, !gridTiles_cons, fmap_app, IH. f_equal. cbv beta.
  clear. induction row as [|cell row IH]; [done|].
  rewrite fmap_cons, !omap_id_cons. destruct cell; cbn [option_map]; [|done].
  by rewrite fmap_cons, IH.
Qed.

Lemma getCell_merged (grid : Grid) r c :
  getCell ((λ row : list Cell, option_map mergedTile <$> row) <$> grid) r c
  = option_map mergedTile (getCell grid r c).
Proof.
  unfold getCell, lookupZ. destruct (r <? 0); [done|].
  rewrite list_lookup_fmap. destruct (grid !! Z.to_nat r) as [row|]; [|done].
  simpl. destruct (c <? 0); [done|]. rewrite list_lookup_fmap.
  by destruct (row !! Z.to_nat c) as [[t|]|].
Qed.

Lemma rectangular_merged rows cols (grid : Grid) :
  rectangular rows cols grid = true →
  rectangular rows cols
    ((λ row : list Cell, option_map mergedTile <$> row) <$> grid) = true.
Proof.
  rewrite !rectangular_spec. unfold lengthZ. intros [Hlen Hrows].
  rewrite length_fmap. split; [done|]. intros i row.
  rewrite list_lookup_fmap. destruct (grid !! i) as [row'|] eqn:Hi; [|done].
  intros [= <-]. rewrite length_fmap. eauto.
Qed.

Lemma settled_Forall grid :
  settled grid = true ↔
  Forall (λ t, Tile.canMerge t = false) (gridTiles grid).
Proof.
  unfold settled. rewrite <- Is_true_true, forallb_True.
  apply Forall_proper; [|done]. intros t.
  rewrite Is_true_true. apply negb_true_iff.
Qed.

Lemma mergeAndCreateNewTiles_wellFormed_spec rows cols grid w :
  wellFormed rows cols grid = true →
  ∃ res w',
    mergeAndCreateNewTiles grid w = Ok (res, w') ∧
    wellFormed rows cols (mg_grid res) = true ∧
    settled (mg_grid res) = true ∧
    mg_tiles res ≡ₚ gridTiles (mg_grid res).
Proof.
  intros (Hrows & Hrect & Hpos)%wellFormed_spec.
  destruct grid as [|row0 grid'].
  { apply rectangular_spec in Hrect as [Hlen _]. unfold lengthZ in Hlen.
    simpl in Hlen. lia. }
  rewrite mergeAndCreateNewTiles_eq. cbv zeta.
  set (grid := row0 :: grid') in *.
  set (newGrid := (λ row : list Cell, option_map mergedTile <$> row) <$> grid).
  set (amount := if 24 <=? lengthZ grid * lengthZ row0 then 2 else 1).
  destruct (getEmptyCellsLocation_exact_spec rows cols grid Hrect)
    as (Hnd & Hin & _).
  destruct (createRandomTiles_spawns_spec (getEmptyCellsLocation grid) amount w)
    as (_ & Hlocs & Hsub & _ & _ & _ & Hfresh);
    [unfold amount; destruct (24 <=? _); lia|done|].
  set (newTiles := (createRandomTiles (getEmptyCellsLocation grid) amount w).1)
    in *.
  destruct (placeTiles_spec rows cols newGrid newTiles) as (Hr' & Hp' & Hperm).
  - by apply rectangular_merged.
  - apply positioned_getCell. intros r c t. unfold newGrid.
    rewrite getCell_merged.
    destruct (getCell grid r c) as [t0|] eqn:Ht0; [|done].
    intros [= <-]. simpl.
    by apply (proj1 (positioned_getCell grid) Hpos).
  - done.
  - intros t Ht. specialize (Hsub t Ht).
    unfold locationOf in Hsub. apply Hin in Hsub as (? & ? & Hcell).
    split; [done|]. split; [done|]. unfold newGrid.
    by rewrite getCell_merged, Hcell.
  - eexists _, _. split; [done|]. cbn [mg_grid mg_tiles].
    split; [by apply wellFormed_spec|]. split.
    + apply settled_Forall. rewrite Hperm. unfold newGrid.
      rewrite gridTiles_merged. apply Forall_app. split.
      * apply Forall_fmap, Forall_true. done.
      * eapply Forall_impl; [exact Hfresh|]. by intros t (_ & _ & ? & _).
    + rewrite Hperm. unfold newGrid. by rewrite gridTiles_merged.
Qed.

(** The finalizer keeps the board in shape: on a well-formed grid it
    returns a well-formed grid of the same dimensions on which no merge is
    pending, and the tile list it returns holds exactly the tiles of that
    grid. *)
Theorem mergeAndCreateNewTiles_wellFormed rows cols grid w :
  wellFormed rows cols grid = true →
  ∃ res w',
    mergeAndCreateNewTiles grid w = Ok (res, w') ∧
    wellFormed rows cols (mg_grid res) = true ∧
    settled (mg_grid res) = true ∧
    mg_tiles res ≡ₚ gridTiles (mg_grid res).
Proof. intros. by apply mergeAndCreateNewTiles_wellFormed_spec. Qed.

Lemma mergeAndCreateNewTiles_wellFormed_witness :
  wellFormed 1 4 rowMergedLeft = true ∧
  ∃ res w',
    mergeAndCreateNewTiles rowMergedLeft world0 = Ok (res, w') ∧
    wellFormed 1 4 (mg_grid res) = true ∧
    settled (mg_grid res) = true ∧
    mg_tiles res ≡ₚ gridTiles (mg_grid res).
Proof.
  split; [reflexivity|].
  apply (mergeAndCreateNewTiles_wellFormed 1 4 rowMergedLeft world0).
  reflexivity.
Defined.

Lemma getCell_replicate_None rows cols r c :
  getCell (replicate rows (replicate cols None)) r c = None.
Proof.
  destruct (getCell _ r c) as [t|] eqn:Ht; [|done].
  assert (t ∈ gridTiles (replicate rows (replicate cols (None : Cell)))) as Hin
    by (apply elem_of_gridTiles_getCell; eauto).
  rewrite gridTiles_replicate_None in Hin. by apply elem_of_nil in Hin.
Qed.

Lemma resetGameBoard_fresh_board_spec rows cols w :
  0 < rows → 0 ≤ cols →
  ∃ res w',
    resetGameBoard rows cols w = Ok (res, w') ∧
    wellFormed rows cols (rs_grid res) = true ∧
    settled (rs_grid res) = true ∧
    rs_tiles res ≡ₚ gridTiles (rs_grid res) ∧
    Tile.index <$> rs_tiles res = seqZ 0 (lengthZ (rs_tiles res)) ∧
    _tileIndex w' = lengthZ (rs_tiles res) ∧
    Forall freshTile (rs_tiles res).
Proof.
  intros Hrows Hcols. unfold resetGameBoard.
  rewrite createEmptyGrid_spec by lia. simpl.
  set (grid := replicate (Z.to_nat rows) (replicate (Z.to_nat cols) None)).
  set (amount := if 24 <=? rows * cols then 4 else 2).
  assert (rectangular rows cols grid = true) as Hrect
    by (apply rectangular_replicate; lia).
  assert (positioned grid = true) as Hpos.
  { apply positioned_getCell. intros r c t. unfold grid.
    by rewrite getCell_replicate_None. }
  destruct (getEmptyCellsLocation_exact_spec rows cols grid Hrect)
    as (Hnd & Hin & _).
  destruct (createRandomTiles_spawns_spec (getEmptyCellsLocation grid) amount
              (resetTileIndex w))
    as (_ & Hlocs & Hsub & Hidx & Hcount & _ & Hfresh);
    [unfold amount; destruct (24 <=? _); lia|done|].
  destruct (createRandomTiles (getEmptyCellsLocation grid) amount
              (resetTileIndex w)) as [newTiles w1]. cbn [fst snd] in *.
  destruct (placeTiles_spec rows cols grid newTiles) as (Hr' & Hp' & Hperm);
    try done.
  { intros t Ht. specialize (Hsub t Ht). unfold locationOf in Hsub.
    by apply Hin in Hsub. }
  assert (gridTiles grid = []) as Hnone by apply gridTiles_replicate_None.
  rewrite Hnone in Hperm. simpl in Hperm.
  eexists _, _. split; [done|]. cbn [rs_grid rs_tiles].
  split; [by apply wellFormed_spec|]. split.
  - apply settled_Forall. rewrite Hperm.
    eapply Forall_impl; [exact Hfresh|]. by intros t (_ & _ & ? & _).
  - split; [by rewrite Hperm|]. simpl in Hidx, Hcount.
    split; [done|]. split; [lia|done].
Qed.



(** The dimensions are not checked.  A reset with zero rows is accepted and
    installs a grid without rows, on which the move engine, the finalizer,
    the loss check and hence the status and settle effects of the hook all
    raise a [TypeError]; a reset with a negative dimension raises a
    [RangeError] instead. *)
Theorem zero_row_board_breaks_the_engine cols h w dir tiles :
  ∃ h',
    boardEffect 0 cols h w = Ok (h', Some running, resetTileIndex w) ∧
    gridRef h' = [] ∧
    moveInDirection (gridRef h') dir = TypeError ∧
    mergeAndCreateNewTiles (gridRef h') w = TypeError ∧
    canGameContinue (gridRef h') tiles = TypeError ∧
    statusEffect running h' w = TypeError ∧
    statusEffect restart h' w = TypeError ∧
    (moving h = false → settleEffect h' w = TypeError) ∧
    (pendingStackRef h = [] → pauseRef h = false →
     onMove dir h' = TypeError) ∧
    resetGameBoard (-1) cols w = RangeError ∧
    resetGameBoard 1 (-1) w = RangeError.
Proof.
  eexists. split; [reflexivity|]. simpl.
  repeat (split; [done|]). split; [|split; [|done]].
  - intros Hm. unfold settleEffect. simpl. by rewrite Hm.
  - intros Hp Hq. unfold onMove. simpl. by rewrite Hp, Hq.
Qed.

Lemma zero_row_board_breaks_the_engine_witness :
  moving (hookOf []) = false ∧ pendingStackRef (hookOf []) = [] ∧
  pauseRef (hookOf []) = false ∧
  ∃ h',
    boardEffect 0 4 (hookOf []) world0
    = Ok (h', Some running, resetTileIndex world0) ∧
    settleEffect h' world0 = TypeError ∧
    onMove DIRECTION_MAP.Left h' = TypeError.
Proof.
  repeat (split; [reflexivity|]).
  destruct (zero_row_board_breaks_the_engine 4 (hookOf []) world0
              DIRECTION_MAP.Left [])
    as (h' & Hb & _ & _ & _ & _ & _ & _ & Hs & Hm & _).
  exists h'. split; [exact Hb|]. split.
  - apply Hs. reflexivity.
  - apply Hm; reflexivity.
Defined.

(** ** More on the move engine *)

(** [moveInDirection] fails on a grid without rows and on no other: for
    every direction vector, cardinal or not, the sliding loop of each tile
    ends within [rows + cols] iterations, on a cell of the board. *)
Theorem moveInDirection_fails_only_without_rows grid dir :
  (grid = [] ∧ moveInDirection grid dir = TypeError) ∨
  (grid ≠ [] ∧ (∃ res, moveInDirection grid dir = Ok res) ∧
   ∀ newGrid tile row col row0,
     head grid = Some row0 →
     0 ≤ row < lengthZ grid → 0 ≤ col < lengthZ row0 →
     ∃ pos,
       slide (Z.to_nat (lengthZ grid + lengthZ row0)) newGrid dir
         (lengthZ grid) (lengthZ row0) tile
         (startPos dir (lengthZ grid) (lengthZ row0) row col) = Ok pos ∧
       0 ≤ currRow pos < lengthZ grid ∧ 0 ≤ currCol pos < lengthZ row0).
Proof.
  destruct grid as [|row0 grid']; [by left|]. right.
  split; [done|]. split.
  - apply moveInDirection_total. unfold lengthZ. simpl. lia.
  - intros newGrid tile row col row1 [= <-] Hr Hc.
    by apply moveCell_slides.
Qed.

Lemma moveInDirection_fails_only_without_rows_witness :
  (∃ res, moveInDirection row2222 DIRECTION_MAP.Right = Ok res) ∧
  ∃ pos,
    slide (Z.to_nat (1 + 4)) row2222 DIRECTION_MAP.Right 1 4 (tileAt 0 0 0 2)
      (startPos DIRECTION_MAP.Right 1 4 0 0) = Ok pos ∧
    0 ≤ currRow pos < 1 ∧ 0 ≤ currCol pos < 4.
Proof.
  destruct (moveInDirection_fails_only_without_rows row2222
              DIRECTION_MAP.Right) as [[Hnil _]|(_ & Hrun & Hslide)];
    [discriminate Hnil|].
  split; [exact Hrun|].
  apply (Hslide row2222 (tileAt 0 0 0 2) 0 0
           [Some (tileAt 0 0 0 2); Some (tileAt 1 0 1 2);
            Some (tileAt 2 0 2 2); Some (tileAt 3 0 3 2)]);
    [reflexivity|vm_compute; split; [discriminate|reflexivity]..].
Defined.

Lemma moveCell_reporting dir rows cols row col acc :
  0 ≤ row < rows → 0 ≤ col < cols → reporting acc →
  ∃ acc', moveCell dir rows cols row acc col = Ok acc' ∧ reporting acc'.
Proof.
  intros Hr Hc [Hflags Hsub]. unfold moveCell.
  destruct (getCell (mv_grid acc) row col) as [tile|]; [|by exists acc].
  destruct (moveCell_slides dir rows cols row col (mv_grid acc) tile)
    as (pos & -> & _); [done..|]. simpl.
  destruct (negb _ || negb _).
  - eexists. split; [done|]. split; simpl.
    + apply Forall_app. split; [done|]. by constructor.
    + rewrite fmap_app. by apply sublist_app.
  - destruct (getCell (mv_grid acc) (currRow pos) (currCol pos));
      [|by exists acc].
    eexists. split; [done|]. split; simpl.
    + apply Forall_app. split; [done|]. by constructor.
    + rewrite fmap_app. by apply sublist_inserts_r.
Qed.

(** The tiles a move reports have their [isNew] and [isMerging] flags
    cleared, and the move stack it returns is made of indices of reported
    tiles, in the order they were reported: there are never more pending
    completions than reported tiles. *)
Theorem moveInDirection_reports grid dir :
  0 < lengthZ grid →
  ∃ res, moveInDirection grid dir = Ok res ∧
         Forall (λ t, Tile.isNew t = false ∧ Tile.isMerging t = false)
           (mv_tiles res) ∧
         mv_moveStack res `sublist_of` (Tile.index <$> mv_tiles res) ∧
         lengthZ (mv_moveStack res) ≤ lengthZ (mv_tiles res).
Proof.
  intros Hlen. destruct grid as [|row0 grid']; [done|].
  unfold moveInDirection.
  set (rows := lengthZ (row0 :: grid')). set (cols := lengthZ row0).
  destruct (forEach_invariant
              (moveRow dir rows cols
                 (trav_cols (createTraversalMap rows cols dir)))
              (λ _, reporting) 0
              (trav_rows (createTraversalMap rows cols dir))
              {| mv_tiles := []; mv_grid := row0 :: grid';
                 mv_moveStack := [] |} 0)
    as (res & Hrun & Hflags & Hsub).
  - intros _ acc row Hrow%elem_of_trav_rows Hacc. unfold moveRow.
    destruct (forEach_invariant (moveCell dir rows cols row)
                (λ _, reporting) 0
                (trav_cols (createTraversalMap rows cols dir)) acc 0)
      as (acc' & Hrun & Hres); [|done|by exists acc'].
    intros _ acc0 col Hcol%elem_of_trav_cols Hacc0.
    by apply moveCell_reporting.
  - split; simpl; [constructor|done].
  - exists res. split; [done|]. split; [done|]. split; [done|].
    apply sublist_length in Hsub. rewrite length_fmap in Hsub.
    unfold lengthZ. lia.
Qed.

Lemma moveInDirection_reports_witness :
  0 < lengthZ row2222 ∧
  ∃ res, moveInDirection row2222 DIRECTION_MAP.Right = Ok res ∧
         Forall (λ t, Tile.isNew t = false ∧ Tile.isMerging t = false)
           (mv_tiles res) ∧
         mv_moveStack res `sublist_of` (Tile.index <$> mv_tiles res) ∧
         lengthZ (mv_moveStack res) ≤ lengthZ (mv_tiles res).
Proof.
  split; [reflexivity|].
  apply (moveInDirection_reports row2222 DIRECTION_MAP.Right). reflexivity.
Defined.

(** A tile whose slide ends where it started was stuck. *)
Lemma slide_back_stuck newGrid dir rows cols tile row col pos :
  0 ≤ row < rows → 0 ≤ col < cols →
  getCell newGrid row col = Some tile →
  slide (Z.to_nat (rows + cols)) newGrid dir rows cols tile
    (startPos dir rows cols row col) = Ok pos →
  currRow pos = row → currCol pos = col →
  cellStuck newGrid dir rows cols row col = true.
Proof.
  intros Hr Hc Htile Hslide Hpr Hpc. unfold cellStuck. rewrite Htile.
  destruct (Z.to_nat (rows + cols)) as [|fuel] eqn:Hfuel; [lia|].
  unfold slide, startPos in Hslide; fold slide in Hslide; simpl in Hslide.
  destruct (negb (clamp (row + Vector.r dir) 0 (rows - 1) =? row)
            || negb (clamp (col + Vector.c dir) 0 (cols - 1) =? col))
    eqn:Hgo; [|done].
  assert (clamp (row + Vector.r dir) 0 (rows - 1) ≠ row ∨
          clamp (col + Vector.c dir) 0 (cols - 1) ≠ col) as Hne.
  { apply orb_true_iff in Hgo as [H|H];
      apply negb_true_iff, Z.eqb_neq in H; auto. }
  destruct (getCell newGrid (clamp (row + Vector.r dir) 0 (rows - 1))
              (clamp (col + Vector.c dir) 0 (cols - 1))) as [nextTile|].
  - destruct (_ && _); [|done]. injection Hslide as <-. simpl in *. lia.
  - exfalso. apply slide_forward in Hslide as [Hfr Hfc].
    + simpl in Hfr, Hfc. rewrite Hpr in Hfr. rewrite Hpc in Hfc.
      unfold clamp in *.
      destruct (Z.ltb_spec 0 (Vector.r dir)), (Z.ltb_spec 0 (Vector.c dir));
        lia.
    + pose proof (clamp_range (row + Vector.r dir) rows).
      pose proof (clamp_range (col + Vector.c dir) cols).
      unfold onBoard. simpl. lia.
Qed.

Lemma moveCell_quiet dir rows cols row col acc acc' :
  0 ≤ row < rows → 0 ≤ col < cols →
  moveCell dir rows cols row acc col = Ok acc' →
  mv_moveStack acc' = [] →
  mv_moveStack acc = [] ∧ mv_grid acc' = mv_grid acc ∧
  cellStuck (mv_grid acc) dir rows cols row col = true.
Proof.
  intros Hr Hc. unfold moveCell.
  destruct (getCell (mv_grid acc) row col) as [tile|] eqn:Htile.
  2:{ intros [= <-] Hq. unfold cellStuck. by rewrite Htile. }
  destruct (slide _ (mv_grid acc) dir rows cols tile _) as [pos| | |] eqn:Hs;
    simpl; [|done..].
  destruct (negb (currRow pos =? row) || negb (currCol pos =? col)) eqn:Hmoved.
  - intros [= <-]. simpl. intros Hq. by apply app_nil in Hq as [_ ?].
  - apply orb_false_iff in Hmoved as [H1 H2].
    apply negb_false_iff, Z.eqb_eq in H1, H2.
    assert (cellStuck (mv_grid acc) dir rows cols row col = true) as Hstuck
      by by apply (slide_back_stuck _ _ _ _ tile _ _ pos).
    destruct (getCell (mv_grid acc) (currRow pos) (currCol pos));
      intros [= <-]; simpl; by intros ->.
Qed.

(** A [forEach] whose steps are quiet when its end is. *)
Lemma forEach_quiet {A S G} (body : S → A → result S) (quiet : S → Prop)
    (grid : S → G) (stuck : G → A → Prop) arr s s' :
  (∀ s a s', a ∈ arr → body s a = Ok s' → quiet s' →
             quiet s ∧ grid s' = grid s ∧ stuck (grid s) a) →
  forEach body arr s = Ok s' → quiet s' →
  quiet s ∧ grid s' = grid s ∧ ∀ a, a ∈ arr → stuck (grid s) a.
Proof.
  revert s. induction arr as [|a arr IH]; intros s Hstep; simpl.
  - intros [= <-] Hq. split; [done|]. split; [done|].
    intros a Ha. by apply elem_of_nil in Ha.
  - destruct (body s a) as [s1| | |] eqn:Hb; simpl; [|done..].
    intros Hrun Hq.
    destruct (IH s1) as (Hq1 & Hg1 & Hall); [|done..|].
    { intros s0 a0 s0' Ha0. apply Hstep. by right. }
    destruct (Hstep s a s1) as (Hq0 & Hg0 & Hst); [left|done..|].
    split; [done|]. split; [congruence|].
    intros a0 [->|Ha0]%elem_of_cons; [done|]. rewrite <- Hg0. by apply Hall.
Qed.

Lemma moveRow_quiet dir rows cols row acc acc' :
  0 ≤ row < rows →
  moveRow dir rows cols (trav_cols (createTraversalMap rows cols dir)) acc row
  = Ok acc' →
  mv_moveStack acc' = [] →
  mv_moveStack acc = [] ∧ mv_grid acc' = mv_grid acc ∧
  ∀ col, 0 ≤ col < cols →
         cellStuck (mv_grid acc) dir rows cols row col = true.
Proof.
  intros Hr Hrun Hq. unfold moveRow in Hrun.
  destruct (forEach_quiet (moveCell dir rows cols row)
              (λ acc, mv_moveStack acc = []) mv_grid
              (λ g col, cellStuck g dir rows cols row col = true)
              (trav_cols (createTraversalMap rows cols dir)) acc acc')
    as (Hq0 & Hg0 & Hall0); [|done..|].
  - intros acc0 col acc0' Hcol%elem_of_trav_cols Hb0 Hq0.
    by apply moveCell_quiet.
  - split; [done|]. split; [done|]. intros col Hcol. apply Hall0.
    by apply elem_of_trav_cols.
Qed.

Lemma moveInDirection_quiet row0 grid' dir res :
  moveInDirection (row0 :: grid') dir = Ok res →
  mv_moveStack res = [] →
  mv_grid res = row0 :: grid' ∧ pressed (row0 :: grid') dir = true.
Proof.
  unfold moveInDirection. set (grid := row0 :: grid').
  set (rows := lengthZ grid). set (cols := lengthZ row0).
  intros Hrun Hq.
  destruct (forEach_quiet
              (moveRow dir rows cols
                 (trav_cols (createTraversalMap rows cols dir)))
              (λ acc, mv_moveStack acc = []) mv_grid
              (λ g row, ∀ col, 0 ≤ col < cols →
                               cellStuck g dir rows cols row col = true)
              (trav_rows (createTraversalMap rows cols dir))
              {| mv_tiles := []; mv_grid := grid; mv_moveStack := [] |} res)
    as (_ & Hg & Hall); [|done..|].
  - intros acc row acc' Hin%elem_of_trav_rows Hb Hq'.
    by apply (moveRow_quiet dir rows cols row acc acc').
  - split; [done|]. unfold pressed. fold grid. fold rows. fold cols.
    apply Is_true_true, forallb_True, Forall_forall. intros row Hrow.
    apply forallb_True, Forall_forall. intros col Hcol.
    apply Is_true_true. apply (Hall row).
    + by apply elem_of_trav_rows, elem_of_createIndexArray.
    + by apply elem_of_createIndexArray.
Qed.

(** A move reports no moved tile exactly when the board is pressed against
    the edge the direction points to, and then it returns the grid it was
    given: an input with an empty move list is a true no-op, for every grid
    and every direction vector. *)
Theorem moveInDirection_noop_iff_pressed grid dir :
  0 < lengthZ grid →
  ∃ res, moveInDirection grid dir = Ok res ∧
         (mv_moveStack res = [] ↔ pressed grid dir = true) ∧
         (mv_moveStack res = [] → mv_grid res = grid).
Proof.
  intros Hlen. destruct (moveInDirection_total grid dir Hlen) as [res Hrun].
  exists res. split; [done|].
  destruct grid as [|row0 grid']; [done|]. split; [split|].
  - intros Hq. by destruct (moveInDirection_quiet _ _ _ _ Hrun Hq).
  - intros Hp. destruct (moveInDirection_pressed _ dir Hp) as (res' & Hrun' & _ & Hm).
    congruence.
  - intros Hq. by destruct (moveInDirection_quiet _ _ _ _ Hrun Hq).
Qed.

Lemma moveInDirection_noop_iff_pressed_witness :
  0 < lengthZ column248 ∧
  ∃ res, moveInDirection column248 DIRECTION_MAP.Down = Ok res ∧
         (mv_moveStack res = [] ↔ pressed column248 DIRECTION_MAP.Down = true) ∧
         (mv_moveStack res = [] → mv_grid res = column248).
Proof.
  split; [reflexivity|].
  apply (moveInDirection_noop_iff_pressed column248 DIRECTION_MAP.Down).
  reflexivity.
Defined.

(** ** The loss check against the move engine *)

Lemma pressed_false row0 grid dir row col :
  0 ≤ row < lengthZ (row0 :: grid) → 0 ≤ col < lengthZ row0 →
  cellStuck (row0 :: grid) dir (lengthZ (row0 :: grid)) (lengthZ row0)
    row col = false →
  pressed (row0 :: grid) dir = false.
Proof.
  intros Hr Hc Hstuck. apply not_true_iff_false. intros Hp.
  by rewrite (pressed_spec _ _ _ _ _ Hp Hr Hc) in Hstuck.
Qed.

Lemma canGameContinue_false_inv rows cols grid tiles :
  wellFormed rows cols grid = true → tiles ≡ₚ gridTiles grid →
  canGameContinue grid tiles = Ok false →
  fullGrid rows cols grid ∧
  ∀ t dir, t ∈ gridTiles grid → dir ∈ dirs →
           canMoveTowards grid rows cols t dir = false.
Proof.
  intros (Hrows & Hrect & Hpos)%wellFormed_spec Hperm.
  rewrite (canGameContinue_tiles rows cols) by done.
  pose proof (length_gridTiles _ _ _ Hrect) as Hle.
  assert (lengthZ tiles = lengthZ (gridTiles grid)) as Hlen
    by (unfold lengthZ; by rewrite Hperm).
  destruct (Z.ltb_spec (lengthZ tiles) (rows * cols)); [done|].
  intros Hex.
  apply (f_equal (λ r, match r with Ok b => b | _ => true end)) in Hex.
  cbv beta iota in Hex.
  split; [apply (fullGrid_count rows cols); [done|lia]|].
  intros t dir Ht Hdir. apply not_true_iff_false. intros Hmove.
  apply not_true_iff_false in Hex. apply Hex.
  apply Is_true_true, existb_True, Exists_exists. exists t.
  split; [by rewrite Hperm|].
  apply existb_True, Exists_exists. exists dir. split; [done|].
  by apply Is_true_true.
Qed.

(** The loss check is sound: when [canGameContinue] returns false (on a
    well-formed grid with its own tiles as the tile list), a move in any of
    the four directions moves nothing and returns the grid as it is. *)
Theorem lost_board_cannot_move rows cols grid tiles dir :
  wellFormed rows cols grid = true → tiles ≡ₚ gridTiles grid →
  canGameContinue grid tiles = Ok false →
  dir ∈ dirs →
  pressed grid dir = true ∧
  ∃ res, moveInDirection grid dir = Ok res ∧
         mv_moveStack res = [] ∧ mv_grid res = grid.
Proof.
  intros Hwf Hperm Hlost Hdir.
  destruct (canGameContinue_false_inv _ _ _ _ Hwf Hperm Hlost)
    as [Hfull Hnone].
  apply wellFormed_spec in Hwf as (Hrows & Hrect & Hpos).
  assert (pressed grid dir = true) as Hp.
  { destruct grid as [|row0 grid'].
    { apply rectangular_spec in Hrect as [Hlen _]. unfold lengthZ in Hlen.
      simpl in Hlen. lia. }
    destruct (rectangular_head _ _ _ _ Hrect) as [Hlen Hlen0].
    unfold pressed. rewrite Hlen, Hlen0.
    apply Is_true_true, forallb_True, Forall_forall.
    intros row Hrow%elem_of_createIndexArray.
    apply forallb_True, Forall_forall.
    intros col Hcol%elem_of_createIndexArray. apply Is_true_true.
    unfold cellStuck.
    destruct (getCell (row0 :: grid') row col) as [tile|] eqn:Htile; [|done].
    destruct (proj1 (positioned_getCell _) Hpos row col tile Htile)
      as [Htr Htc].
    assert (canMoveTowards (row0 :: grid') rows cols tile dir = false) as Hm.
    { apply Hnone; [|done]. apply elem_of_gridTiles_getCell. eauto. }
    unfold canMoveTowards in Hm. rewrite Htr, Htc in Hm. cbv zeta in Hm.
    destruct (negb (clamp (row + Vector.r dir) 0 (rows - 1) =? row)
              || negb (clamp (col + Vector.c dir) 0 (cols - 1) =? col));
      [|done].
    destruct (getCell (row0 :: grid')
                (clamp (row + Vector.r dir) 0 (rows - 1))
                (clamp (col + Vector.c dir) 0 (cols - 1))) as [nextTile|];
      [|done].
    by rewrite Hm. }
  split; [done|].
  destruct (moveInDirection_pressed grid dir Hp) as (res & ? & ? & ?).
  by exists res.
Qed.

Lemma lost_board_cannot_move_witness :
  wellFormed 2 2 boardStuck = true ∧
  canGameContinue boardStuck (gridTiles boardStuck) = Ok false ∧
  DIRECTION_MAP.Up ∈ dirs ∧
  pressed boardStuck DIRECTION_MAP.Up = true ∧
  ∃ res, moveInDirection boardStuck DIRECTION_MAP.Up = Ok res ∧
         mv_moveStack res = [] ∧ mv_grid res = boardStuck.
Proof.
  assert (DIRECTION_MAP.Up ∈ dirs) as Hdir.
  { unfold dirs. apply elem_of_cons. right. apply elem_of_cons. right.
    apply list_elem_of_here. }
  split; [reflexivity|]. split; [reflexivity|]. split; [exact Hdir|].
  apply (lost_board_cannot_move 2 2 boardStuck (gridTiles boardStuck)
           DIRECTION_MAP.Up); [reflexivity|reflexivity|reflexivity|exact Hdir].
Defined.

(** Between an occupied and an empty position on a line there are two
    neighbours, the first occupied and the second empty. *)
Lemma occupied_then_empty_up (f : Z → bool) a b :
  a < b → f a = true → f b = false →
  ∃ x, a ≤ x < b ∧ f x = true ∧ f (x + 1) = false.
Proof.
  intros Hab Ha Hb.
  assert (∀ n : nat, ∀ b, b = a + Z.of_nat (S n) → f b = false →
            ∃ x, a ≤ x < b ∧ f x = true ∧ f (x + 1) = false) as Hgen.
  { induction n as [|n IH]; intros b' -> Hb'.
    - exists a. split; [lia|]. split; [done|].
      rewrite <- Hb'. f_equal; lia.
    - destruct (f (a + Z.of_nat (S n))) eqn:Hmid.
      + exists (a + Z.of_nat (S n)). split; [lia|]. split; [done|].
        rewrite <- Hb'. f_equal; lia.
      + destruct (IH _ eq_refl Hmid) as (x & Hx & Hfx & Hfx').
        exists x. split; [lia|]. by split. }
  apply (Hgen (Z.to_nat (b - a - 1))); [lia|done].
Qed.

Lemma occupied_then_empty_down (f : Z → bool) a b :
  b < a → f a = true → f b = false →
  ∃ x, b < x ≤ a ∧ f x = true ∧ f (x - 1) = false.
Proof.
  intros Hab Ha Hb.
  destruct (occupied_then_empty_up (λ x, f (- x)) (- a) (- b))
    as (x & Hx & Hfx & Hfx'); [lia|by rewrite Z.opp_involutive..|].
  exists (- x). split; [lia|]. split; [done|].
  rewrite <- Hfx'. f_equal; lia.
Qed.

(** A cell with a tile whose neighbour in direction [dir] is on the board
    and empty is not stuck. *)
Lemma cellStuck_empty_neighbour grid dir rows cols row col tile :
  getCell grid row col = Some tile →
  0 ≤ row + Vector.r dir < rows → 0 ≤ col + Vector.c dir < cols →
  Vector.r dir ≠ 0 ∨ Vector.c dir ≠ 0 →
  getCell grid (row + Vector.r dir) (col + Vector.c dir) = None →
  cellStuck grid dir rows cols row col = false.
Proof.
  intros Htile Hr Hc Hd Hnext. unfold cellStuck.
  rewrite Htile, !clamp_id, Hnext by done.
  destruct (Z.eqb_spec (row + Vector.r dir) row),
    (Z.eqb_spec (col + Vector.c dir) col); simpl; try done. lia.
Qed.

Lemma gap_gives_move rows cols row0 grid' :
  rectangular rows cols (row0 :: grid') = true →
  (∃ r c t, getCell (row0 :: grid') r c = Some t) →
  (∃ r c, 0 ≤ r < rows ∧ 0 ≤ c < cols ∧ getCell (row0 :: grid') r c = None) →
  ∃ dir, dir ∈ dirs ∧ pressed (row0 :: grid') dir = false.
Proof.
  intros Hrect (r1 & c1 & t1 & Ht1) (r2 & c2 & Hr2 & Hc2 & He2).
  destruct (rectangular_head _ _ _ _ Hrect) as [Hlen Hlen0].
  set (grid := row0 :: grid') in *.
  assert (0 ≤ r1 < rows ∧ 0 ≤ c1 < cols) as [Hr1 Hc1].
  { apply getCell_Some in Ht1 as (row & Hrow & Hcell).
    pose proof (lookupZ_range _ _ _ Hrow) as Hr.
    apply lookupZ_Some in Hrow as [_ Hi].
    apply rectangular_spec in Hrect as [_ Hrows].
    pose proof (lookupZ_range _ _ _ Hcell) as Hc.
    rewrite (Hrows _ _ Hi) in Hc. lia. }
  assert (∀ dir row col tile,
            dir ∈ dirs → getCell grid row col = Some tile →
            0 ≤ row + Vector.r dir < rows → 0 ≤ col + Vector.c dir < cols →
            getCell grid (row + Vector.r dir) (col + Vector.c dir) = None →
            ∃ dir, dir ∈ dirs ∧ pressed grid dir = false) as Hfound.
  { intros dir row col tile Hdir Htile Hr Hc Hnext. exists dir.
    split; [done|].
    assert (0 ≤ row < rows ∧ 0 ≤ col < cols) as [Hrow Hcol].
    { apply getCell_Some in Htile as (rw & Hrw & Hcell%lookupZ_range).
      pose proof (lookupZ_range _ _ _ Hrw) as Hrr.
      apply lookupZ_Some in Hrw as [_ Hi].
      apply rectangular_spec in Hrect as [_ Hrows].
      rewrite (Hrows _ _ Hi) in Hcell. lia. }
    subst grid. apply (pressed_false _ _ _ row col); rewrite ?Hlen, ?Hlen0;
      [done|done|].
    apply (cellStuck_empty_neighbour _ _ _ _ _ _ tile); try done.
      unfold dirs in Hdir.
      repeat (apply elem_of_cons in Hdir as [->|Hdir]); simpl; try lia.
      by apply elem_of_nil in Hdir. }
  assert (DIRECTION_MAP.Left ∈ dirs ∧ DIRECTION_MAP.Right ∈ dirs ∧
          DIRECTION_MAP.Up ∈ dirs ∧ DIRECTION_MAP.Down ∈ dirs)
    as (HL & HR & HU & HD).
  { unfold dirs. repeat split; repeat (apply elem_of_cons; (by left) || right);
      apply list_elem_of_here. }
  set (occ := λ r c, match getCell grid r c with Some _ => true | None => false end).
  assert (occ r1 c1 = true) as Ho1 by (unfold occ; by rewrite Ht1).
  assert (occ r2 c2 = false) as Ho2 by (unfold occ; by rewrite He2).
  assert (∀ r c, occ r c = true → ∃ t, getCell grid r c = Some t) as Hocc.
  { intros r c. unfold occ. destruct (getCell grid r c); [eauto|done]. }
  assert (∀ r c, occ r c = false → getCell grid r c = None) as Hemp.
  { intros r c. unfold occ. by destruct (getCell grid r c). }
  destruct (occ r1 c2) eqn:Hcorner.
  - (* walk along column c2 from r1 to r2 *)
    destruct (Z.lt_trichotomy r1 r2) as [Hlt|[Heq|Hgt]].
    + destruct (occupied_then_empty_up (λ r, occ r c2) r1 r2)
        as (x & Hx & Hfx & Hfx'); [done..|].
      destruct (Hocc _ _ Hfx) as [t Ht].
      apply (Hfound DIRECTION_MAP.Down x c2 t); simpl; try done; try lia.
      rewrite Z.add_0_r. by apply Hemp.
    + subst r2. congruence.
    + destruct (occupied_then_empty_down (λ r, occ r c2) r1 r2)
        as (x & Hx & Hfx & Hfx'); [done..|].
      destruct (Hocc _ _ Hfx) as [t Ht].
      apply (Hfound DIRECTION_MAP.Up x c2 t); simpl; try done; try lia.
      rewrite Z.add_0_r. apply Hemp.
      by replace (x + -1) with (x - 1) by lia.
  - (* walk along row r1 from c1 to c2 *)
    destruct (Z.lt_trichotomy c1 c2) as [Hlt|[Heq|Hgt]].
    + destruct (occupied_then_empty_up (λ c, occ r1 c) c1 c2)
        as (x & Hx & Hfx & Hfx'); [done..|].
      destruct (Hocc _ _ Hfx) as [t Ht].
      apply (Hfound DIRECTION_MAP.Right r1 x t); simpl; try done; try lia.
      rewrite Z.add_0_r. by apply Hemp.
    + subst c2. congruence.
    + destruct (occupied_then_empty_down (λ c, occ r1 c) c1 c2)
        as (x & Hx & Hfx & Hfx'); [done..|].
      destruct (Hocc _ _ Hfx) as [t Ht].
      apply (Hfound DIRECTION_MAP.Left r1 x t); simpl; try done; try lia.
      rewrite Z.add_0_r. apply Hemp.
      by replace (x + -1) with (x - 1) by lia.
Qed.

Lemma canMoveTowards_not_stuck grid dir rows cols row col tile :
  settled grid = true →
  getCell grid row col = Some tile →
  Tile.r tile = row → Tile.c tile = col →
  canMoveTowards grid rows cols tile dir = true →
  cellStuck grid dir rows cols row col = false.
Proof.
  intros Hsettled Htile Hr Hc. unfold canMoveTowards, cellStuck.
  rewrite Htile, Hr, Hc. cbv zeta.
  destruct (negb (clamp (row + Vector.r dir) 0 (rows - 1) =? row)
            || negb (clamp (col + Vector.c dir) 0 (cols - 1) =? col));
    [|done].
  destruct (getCell grid (clamp (row + Vector.r dir) 0 (rows - 1))
              (clamp (col + Vector.c dir) 0 (cols - 1))) as [t|] eqn:Hnext;
    [|done].
  intros ->. by rewrite (settled_getCell _ _ _ _ Hsettled Hnext).
Qed.

(** The loss check is complete: on a well-formed board with at least one
    tile and no merge pending, when [canGameContinue] returns true there is
    a direction among the four in which a move does move a tile. *)
Theorem playable_board_can_move rows cols grid tiles :
  wellFormed rows cols grid = true → settled grid = true →
  tiles ≡ₚ gridTiles grid → 0 < lengthZ (gridTiles grid) →
  canGameContinue grid tiles = Ok true →
  ∃ dir res, dir ∈ dirs ∧ moveInDirection grid dir = Ok res ∧
             mv_moveStack res ≠ [] ∧ pressed grid dir = false.
Proof.
  intros (Hrows & Hrect & Hpos)%wellFormed_spec Hsettled Hperm Hsome.
  rewrite (canGameContinue_tiles rows cols) by done.
  assert (lengthZ tiles = lengthZ (gridTiles grid)) as Hlentiles
    by (unfold lengthZ; by rewrite Hperm).
  destruct grid as [|row0 grid'].
  { apply rectangular_spec in Hrect as [Hlen _]. unfold lengthZ in Hlen.
    simpl in Hlen. lia. }
  destruct (rectangular_head _ _ _ _ Hrect) as [Hlen Hlen0].
  assert (∀ dir, dir ∈ dirs → pressed (row0 :: grid') dir = false →
            ∃ dir res, dir ∈ dirs ∧
              moveInDirection (row0 :: grid') dir = Ok res ∧
              mv_moveStack res ≠ [] ∧ pressed (row0 :: grid') dir = false)
    as Hmove.
  { intros dir Hdir Hp.
    destruct (moveInDirection_total (row0 :: grid') dir) as [res Hrun];
      [lia|].
    exists dir, res. repeat (split; [done|]). split; [|done].
    intros Hq. destruct (moveInDirection_quiet _ _ _ _ Hrun Hq) as [_ Hp'].
    congruence. }
  destruct (Z.ltb_spec (lengthZ tiles) (rows * cols)) as [Hlt|Hge].
  - intros _.
    destruct (gap_gives_move rows cols row0 grid') as (dir & Hdir & Hp);
      [done| | |by apply (Hmove dir)].
    + destruct (gridTiles (row0 :: grid')) as [|t ts] eqn:Hts;
        [unfold lengthZ in Hsome; simpl in Hsome; lia|].
      assert (t ∈ gridTiles (row0 :: grid')) as Ht
        by (rewrite Hts; apply list_elem_of_here).
      apply elem_of_gridTiles_getCell in Ht as (r & c & Ht). eauto.
    + pose proof (length_getEmptyCellsLocation _ _ _ Hrect) as Hcount.
      destruct (getEmptyCellsLocation (row0 :: grid')) as [|l ls] eqn:Hempty.
      { unfold lengthZ in *. simpl in Hcount. lia. }
      assert (l ∈ getEmptyCellsLocation (row0 :: grid')) as Hl
        by (rewrite Hempty; apply list_elem_of_here).
      apply elem_of_getEmptyCellsLocation in Hl
        as (i & j & row & Hi & Hj & _).
      exists (Z.of_nat i), (Z.of_nat j).
      pose proof Hrect as [_ Hrowlen]%rectangular_spec.
      pose proof (Hrowlen _ _ Hi) as Hc.
      apply lookup_lt_Some in Hi as Hi'. apply lookup_lt_Some in Hj as Hj'.
      unfold lengthZ in *. split; [lia|]. split; [lia|].
      by rewrite getCell_of_nat, Hi, Hj.
  - intros Hex.
    apply (f_equal (λ r, match r with Ok b => b | _ => false end)) in Hex.
    cbv beta iota in Hex.
    apply Is_true_true, existb_True, Exists_exists in Hex as (t & Ht & Hex).
    apply existb_True, Exists_exists in Hex as (dir & Hdir & Hex).
    apply Is_true_true in Hex.
    rewrite Hperm in Ht. apply elem_of_gridTiles_getCell in Ht as (r & c & Ht).
    destruct (proj1 (positioned_getCell _) Hpos r c t Ht) as [Htr Htc].
    destruct (getCell_in_range _ _ _ _ _ _ Hrect Ht) as [Hr Hc].
    apply (Hmove dir Hdir). apply (pressed_false _ _ _ r c).
    + by rewrite Hlen.
    + by rewrite Hlen0.
    + rewrite Hlen, Hlen0.
      by apply (canMoveTowards_not_stuck _ _ _ _ _ _ t).
Qed.

Lemma playable_board_can_move_witness :
  wellFormed 2 2 boardPair = true ∧ settled boardPair = true ∧
  0 < lengthZ (gridTiles boardPair) ∧
  canGameContinue boardPair (gridTiles boardPair) = Ok true ∧
  ∃ dir res, dir ∈ dirs ∧ moveInDirection boardPair dir = Ok res ∧
             mv_moveStack res ≠ [] ∧ pressed boardPair dir = false.
Proof.
  repeat (split; [reflexivity|]).
  apply (playable_board_can_move 2 2 boardPair (gridTiles boardPair));
    reflexivity.
Defined.

(** ** Identities and values through a move and a settle *)

Lemma moveCell_survivors grid dir rows cols row col acc :
  0 ≤ row < rows → 0 ≤ col < cols →
  rectangular rows cols (mv_grid acc) = true ∧ survivorsOf grid (mv_grid acc) →
  ∃ acc', moveCell dir rows cols row acc col = Ok acc' ∧
          rectangular rows cols (mv_grid acc') = true ∧
          survivorsOf grid (mv_grid acc').
Proof.
  intros Hr Hc [Hrect Hsurv]. unfold moveCell.
  destruct (getCell (mv_grid acc) row col) as [tile|] eqn:Htile;
    [|by exists acc].
  destruct (moveCell_slides dir rows cols row col (mv_grid acc) tile)
    as (pos & -> & Hpr & Hpc); [done..|]. simpl.
  destruct (negb _ || negb _).
  - eexists. split; [done|]. simpl. split; [by do 2 apply setCell_rectangular|].
    intros r c t.
    rewrite (getCell_setCell rows cols)
      by (done || by apply setCell_rectangular).
    destruct ((r =? row) && (c =? col)); [done|].
    rewrite (getCell_setCell rows cols) by done.
    destruct ((r =? currRow pos) && (c =? currCol pos)); [|by apply Hsurv].
    intros [= <-]. by apply (Hsurv row col tile).
  - destruct (getCell (mv_grid acc) (currRow pos) (currCol pos));
      eexists; (split; [done|]); by split.
Qed.

Lemma moveInDirection_survivors rows cols grid dir :
  wellFormed rows cols grid = true →
  ∃ res, moveInDirection grid dir = Ok res ∧ survivorsOf grid (mv_grid res).
Proof.
  intros (Hrows & Hrect & Hpos)%wellFormed_spec.
  destruct grid as [|row0 grid'].
  { apply rectangular_spec in Hrect as [Hlen _]. unfold lengthZ in Hlen.
    simpl in Hlen. lia. }
  destruct (rectangular_head _ _ _ _ Hrect) as [Hlen Hlen0].
  unfold moveInDirection. rewrite Hlen, Hlen0.
  set (grid := row0 :: grid') in *.
  destruct (forEach_invariant
              (moveRow dir rows cols
                 (trav_cols (createTraversalMap rows cols dir)))
              (λ _ acc, rectangular rows cols (mv_grid acc) = true ∧
                        survivorsOf grid (mv_grid acc)) 0
              (trav_rows (createTraversalMap rows cols dir))
              {| mv_tiles := []; mv_grid := grid; mv_moveStack := [] |} 0)
    as (res & Hrun & _ & Hsurv).
  - intros _ acc row Hrow%elem_of_trav_rows Hacc. unfold moveRow.
    destruct (forEach_invariant (moveCell dir rows cols row)
                (λ _ acc, rectangular rows cols (mv_grid acc) = true ∧
                          survivorsOf grid (mv_grid acc)) 0
                (trav_cols (createTraversalMap rows cols dir)) acc 0)
      as (acc' & Hrun & Hres); [|done|by exists acc'].
    intros _ acc0 col Hcol%elem_of_trav_cols Hacc0.
    by apply moveCell_survivors.
  - split; [done|]. intros r c t Ht. exists t. split; [|done].
    apply elem_of_gridTiles_getCell. eauto.
  - by exists res.
Qed.

Lemma powerOfTwo_double v : powerOfTwo v = true → powerOfTwo (2 * v) = true.
Proof.
  unfold powerOfTwo. intros [Hle Heq]%andb_true_iff.
  apply Z.leb_le in Hle. apply Z.eqb_eq in Heq.
  apply andb_true_iff. split; [apply Z.leb_le; lia|]. apply Z.eqb_eq.
  rewrite Z.log2_double by lia.
  rewrite Z.pow_succ_r by apply Z.log2_nonneg. lia.
Qed.

Lemma valuesOk_Forall grid :
  valuesOk grid = true ↔
  Forall (λ t, powerOfTwo (Tile.value t) = true) (gridTiles grid).
Proof.
  unfold valuesOk. rewrite <- Is_true_true, forallb_True.
  apply Forall_proper; [|done]. intros t. apply Is_true_true.
Qed.

(** Tile values stay powers of two: from a well-formed grid whose values are
    powers of two (at least 2), a move in any direction followed by a settle
    in any world gives grids whose values are powers of two again. *)
Theorem tile_values_stay_powers_of_two rows cols grid dir w :
  wellFormed rows cols grid = true → valuesOk grid = true →
  ∃ mv res w',
    moveInDirection grid dir = Ok mv ∧ valuesOk (mv_grid mv) = true ∧
    mergeAndCreateNewTiles (mv_grid mv) w = Ok (res, w') ∧
    valuesOk (mg_grid res) = true.
Proof.
  intros Hwf Hok.
  destruct (moveInDirection_survivors rows cols grid dir Hwf)
    as (mv & Hrun & Hsurv).
  destruct (moveInDirection_wellFormed rows cols grid dir Hwf)
    as (mv' & Hrun' & Hwf' & _).
  rewrite Hrun in Hrun'. injection Hrun' as <-.
  assert (valuesOk (mv_grid mv) = true) as Hok'.
  { apply valuesOk_Forall, Forall_forall. intros t Ht.
    apply elem_of_gridTiles_getCell in Ht as (r & c & Ht).
    destruct (Hsurv r c t Ht) as (t0 & Ht0 & Hid).
    apply valuesOk_Forall in Hok.
    rewrite Forall_forall in Hok. specialize (Hok t0 Ht0).
    unfold identityOf in Hid. by injection Hid as _ _ ->. }
  destruct (mergeAndCreateNewTiles_wellFormed_spec rows cols (mv_grid mv) w Hwf')
    as (res & w' & Hsettle & _ & _ & Hperm).
  destruct (mergeAndCreateNewTiles_spec (mv_grid mv) w)
    as (res' & w'' & newTiles & Hsettle' & _ & Htiles & Hfresh).
  { apply wellFormed_spec in Hwf' as (? & [Hlen _]%rectangular_spec & _). lia. }
  rewrite Hsettle in Hsettle'. injection Hsettle' as <- <-.
  exists mv, res, w'. repeat (split; [done|]).
  apply valuesOk_Forall. rewrite <- Hperm, Htiles.
  apply Forall_app. split.
  - apply Forall_fmap, Forall_forall. intros t Ht. simpl.
    apply valuesOk_Forall in Hok'. rewrite Forall_forall in Hok'.
    specialize (Hok' t Ht). simpl in Hok'.
    destruct (Tile.canMerge t); [by apply powerOfTwo_double|done].
  - eapply Forall_impl; [exact Hfresh|].
    by intros t (_ & _ & _ & [-> | ->]).
Qed.

Lemma tile_values_stay_powers_of_two_witness :
  wellFormed 2 2 board248 = true ∧ valuesOk board248 = true ∧
  ∃ mv res w',
    moveInDirection board248 DIRECTION_MAP.Left = Ok mv ∧
    valuesOk (mv_grid mv) = true ∧
    mergeAndCreateNewTiles (mv_grid mv) world1 = Ok (res, w') ∧
    valuesOk (mg_grid res) = true.
Proof.
  split; [reflexivity|]. split; [reflexivity|].
  apply (tile_values_stay_powers_of_two 2 2 board248 DIRECTION_MAP.Left
           world1); reflexivity.
Defined.

(** ** The hook from one rest to the next *)

Lemma sortTiles_Permutation tiles : sortTiles tiles ≡ₚ tiles.
Proof.
  unfold sortTiles. induction tiles as [|t tiles IH]; simpl; [done|].
  by rewrite insertTile_Permutation, IH.
Qed.

Lemma onMovePending_iter_frame n h :
  gridRef (Nat.iter n onMovePending h) = gridRef h ∧
  tiles (Nat.iter n onMovePending h) = tiles h ∧
  pauseRef (Nat.iter n onMovePending h) = pauseRef h.
Proof. induction n as [|n IH]; simpl; [done|]. exact IH. Qed.

Lemma onMovePending_iter_moving n h :
  moving (Nat.iter (S n) onMovePending h)
  = (0 <? lengthZ (pendingStackRef (Nat.iter (S n) onMovePending h))).
Proof. done. Qed.

Lemma lengthZ_nil {A} (l : list A) : lengthZ l ≤ 0 → l = [].
Proof. unfold lengthZ. destruct l; simpl; [done|lia]. Qed.

(** One move of an idle hook, played to the end: [onMove], one completion
    signal per slide, then the settle effect if the moving flag changed.
    The hook is idle again afterwards.  If the board is pressed against the
    direction, nothing changes at all: no settle, no score, no random draw.
    Otherwise the grid is the settled grid of the moved board and the score
    of the settle is reported. *)
Theorem moveAndSettle_keeps_idle rows cols h dir w :
  idle rows cols h →
  ∃ h' score w',
    moveAndSettle dir h w = Ok (h', score, w') ∧
    idle rows cols h' ∧
    if pressed (gridRef h) dir
    then h' = h ∧ score = None ∧ w' = w
    else ∃ mv res,
           moveInDirection (gridRef h) dir = Ok mv ∧
           mergeAndCreateNewTiles (mv_grid mv) w = Ok (res, w') ∧
           gridRef h' = mg_grid res ∧ score = Some (mg_score res).
Proof.
  intros (Hwf & Hset & Hperm & Hpend & Hmov & Hpause).
  destruct (moveInDirection_wellFormed rows cols (gridRef h) dir Hwf)
    as (mv & Hrun & Hwf' & _).
  assert (∃ row0 grid', gridRef h = row0 :: grid') as (row0 & grid' & Hgrid).
  { destruct (gridRef h) as [|row0 grid'] eqn:Hgrid; [|by eauto].
    apply wellFormed_spec in Hwf as (? & [Hlen _]%rectangular_spec & _).
    unfold lengthZ in Hlen. simpl in Hlen. lia. }
  unfold moveAndSettle, onMove. rewrite Hpend, Hpause, Hrun. simpl bind.
  destruct (Z.ltb_spec 0 (lengthZ (mv_moveStack mv))) as [Hmoved|Hquiet].
  - set (h1 := {| gridRef := mv_grid mv; tiles := sortTiles (mv_tiles mv);
                  pendingStackRef := mv_moveStack mv; moving := true;
                  pauseRef := false |}).
    set (n := length (pendingStackRef h1)).
    destruct (onMovePending_iter_frame n h1) as (Hg & _ & Hp).
    pose proof (onMovePending_iter_length n h1) as Hlen.
    assert (n = S (pred n)) as Hn.
    { subst n h1. unfold lengthZ in Hmoved. simpl in *. lia. }
    assert (pendingStackRef (Nat.iter n onMovePending h1) = []) as Hnil.
    { apply lengthZ_nil. rewrite Hlen. subst n. unfold lengthZ. lia. }
    assert (moving (Nat.iter n onMovePending h1) = false) as Hstop.
    { rewrite Hn, onMovePending_iter_moving, <- Hn, Hnil. done. }
    unfold bind at 1. cbv beta iota zeta. fold n.
    unfold settleDue, settleEffect. rewrite Hstop. simpl negb. cbv iota.
    rewrite Hg. simpl gridRef.
    destruct (mergeAndCreateNewTiles_wellFormed_spec rows cols (mv_grid mv) w
                Hwf') as (res & w' & Hsettle & Hwf'' & Hset'' & Hperm'').
    rewrite Hsettle. simpl bind.
    eexists _, _, _. split; [done|]. split.
    + repeat split; simpl; try done.
      by rewrite sortTiles_Permutation.
    + destruct (pressed (gridRef h) dir) eqn:Hpressed.
      * destruct (moveInDirection_pressed _ _ Hpressed) as (mv' & Hrun' & _ & Hnone).
        rewrite Hrun in Hrun'. injection Hrun' as <-.
        rewrite Hnone in Hmoved. done.
      * by exists mv, res.
  - apply lengthZ_nil in Hquiet. rewrite Hgrid in Hrun.
    destruct (moveInDirection_quiet row0 grid' dir mv Hrun Hquiet)
      as [Hsame Hpressed].
    rewrite Hgrid, Hpressed, Hsame, Hquiet, Hmov, <- Hgrid. simpl.
    eexists _, _, _. split; [done|]. split.
    + by repeat split.
    + destruct h; simpl in *. by subst.
Qed.

Lemma moveAndSettle_keeps_idle_witness :
  idle 2 2 (hookOf board248) ∧
  ∃ h' score w',
    moveAndSettle DIRECTION_MAP.Left (hookOf board248) world1
      = Ok (h', score, w') ∧
    idle 2 2 h' ∧
    if pressed (gridRef (hookOf board248)) DIRECTION_MAP.Left
    then h' = hookOf board248 ∧ score = None ∧ w' = world1
    else ∃ mv res,
           moveInDirection (gridRef (hookOf board248)) DIRECTION_MAP.Left
             = Ok mv ∧
           mergeAndCreateNewTiles (mv_grid mv) world1 = Ok (res, w') ∧
           gridRef h' = mg_grid res ∧ score = Some (mg_score res).
Proof.
  assert (idle 2 2 (hookOf board248)) as Hidle.
  { unfold idle. simpl. repeat split; reflexivity. }
  split; [exact Hidle|].
  exact (moveAndSettle_keeps_idle 2 2 (hookOf board248) DIRECTION_MAP.Left
           world1 Hidle).
Defined.

(** While slides are pending the hook stays in flight: after [onMove] has
    started [n] slides from a hook with nothing pending, any fewer than [n]
    completion signals leave the moving flag set, the grid and the tile list
    as [onMove] left them, and a further [onMove] without effect; the [n]-th
    signal clears the flag. *)
Theorem moving_until_last_signal dir h h1 k :
  pendingStackRef h = [] →
  onMove dir h = Ok h1 →
  (k < length (pendingStackRef h1))%nat →
  let hk := Nat.iter k onMovePending h1 in
  moving hk = true ∧
  gridRef hk = gridRef h1 ∧ tiles hk = tiles h1 ∧
  (∀ dir', onMove dir' hk = Ok hk) ∧
  moving (Nat.iter (length (pendingStackRef h1)) onMovePending h1) = false.
Proof.
  intros Hpend Hmove Hk hk.
  destruct (onMovePending_iter_frame k h1) as (Hg & Ht & _).
  pose proof (onMovePending_iter_length k h1) as Hlen.
  assert (0 < lengthZ (pendingStackRef hk)) as Hpos.
  { subst hk. rewrite Hlen. unfold lengthZ. lia. }
  assert (moving h1 = true) as Hflying.
  { unfold onMove in Hmove. rewrite Hpend in Hmove.
    destruct (_ && _) in Hmove.
    - destruct (moveInDirection (gridRef h) dir) as [res| | |]; try done.
      simpl in Hmove.
      destruct (Z.ltb_spec 0 (lengthZ (mv_moveStack res))) as [Hmoved|Hquiet];
        injection Hmove as <-; [done|].
      apply lengthZ_nil in Hquiet. simpl in Hk. rewrite Hquiet in Hk.
      simpl in Hk. lia.
    - injection Hmove as <-. rewrite Hpend in Hk. simpl in Hk. lia. }
  split; [|split; [done|split; [done|split]]].
  - destruct k as [|k]; [done|]. subst hk.
    rewrite onMovePending_iter_moving. by apply Z.ltb_lt.
  - intros dir'. unfold onMove.
    destruct (Z.eqb_spec (lengthZ (pendingStackRef hk)) 0); [lia|done].
  - destruct (length (pendingStackRef h1)) as [|n] eqn:Hn; [lia|].
    rewrite onMovePending_iter_moving, onMovePending_iter_length.
    unfold lengthZ. rewrite Hn. apply Z.ltb_ge. lia.
Qed.

Lemma moving_until_last_signal_witness :
  ∃ h1, onMove DIRECTION_MAP.Left (hookOf row2222) = Ok h1 ∧
        length (pendingStackRef h1) = 3%nat ∧
        moving (onMovePending h1) = true ∧
        moving (Nat.iter 3 onMovePending h1) = false.
Proof.
  eexists. split; [vm_compute; reflexivity|]. split; [reflexivity|].
  match goal with
  | |- moving (onMovePending ?h1) = true ∧ _ =>
      destruct (moving_until_last_signal DIRECTION_MAP.Left (hookOf row2222)
                  h1 1) as (Hm & _ & _ & _ & Hlast);
        [reflexivity|vm_compute; reflexivity|simpl; lia|]
  end.
  split; [exact Hm|exact Hlast].
Defined.



(** ** What a move reports

    [moveInDirection] copies the outer array only ([grid.slice(0)]) and
    writes into the rows it shares with its argument.  Its one caller,
    [onMove], puts the returned grid in place of the old one at once, so the
    old grid is never read again; below, [grid] is the grid as it was when
    the move began. *)

Lemma readRow_cons grid row col cols :
  readRow grid row (col :: cols) =
  match getCell grid row col with
  | Some t => t :: readRow grid row cols
  | None => readRow grid row cols
  end.
Proof. done. Qed.

Lemma moveCell_tracking grid dir rows cols order travCols rowsLeft row col
    colsLeft acc :
  0 ≤ row < rows → 0 ≤ col < cols →
  (∀ x, x ∈ rowsLeft → behind (Vector.r dir) row x) →
  (∀ x, x ∈ colsLeft → behind (Vector.c dir) col x) →
  tracking grid rows cols order travCols rowsLeft row (col :: colsLeft) acc →
  ∃ acc', moveCell dir rows cols row acc col = Ok acc' ∧
          tracking grid rows cols order travCols rowsLeft row colsLeft acc'.
Proof.
  intros Hr Hc Hrows Hcols (Hrect & Hund & Hord).
  assert (undisturbed grid cols rowsLeft row colsLeft (mv_grid acc)) as Hund'.
  { intros r c [?|[-> ?]]; apply Hund; [by left|right]. split; [done|].
    by apply elem_of_cons; right. }
  assert (getCell (mv_grid acc) row col = getCell grid row col) as Hcell.
  { apply Hund. right. split; [done|]. apply list_elem_of_here. }
  rewrite readRow_cons, <- Hcell in Hord.
  unfold moveCell.
  destruct (getCell (mv_grid acc) row col) as [tile|] eqn:Htile.
  2:{ by exists acc. }
  destruct (moveCell_slides dir rows cols row col (mv_grid acc) tile)
    as (pos & Hslide & Hpr & Hpc); [done..|].
  rewrite Hslide. simpl bind.
  apply slide_forward in Hslide as [Hfr Hfc];
    [|unfold onBoard, startPos; simpl; lia].
  simpl in Hfr, Hfc.
  destruct (negb (currRow pos =? row) || negb (currCol pos =? col)) eqn:Hmoved.
  - eexists. split; [done|]. split; [|split]; simpl.
    + by do 2 apply setCell_rectangular.
    + intros r c Hrc. rewrite <- (Hund' r c Hrc).
      rewrite (getCell_setCell rows cols)
        by (done || by apply setCell_rectangular).
      rewrite (getCell_setCell rows cols) by done.
      assert ((r =? row) && (c =? col) = false) as ->.
      { apply andb_false_iff.
        destruct Hrc as [[Hx%Hrows%behind_neq _]|[_ Hx%Hcols%behind_neq]];
          [left|right]; by apply Z.eqb_neq. }
      assert ((r =? currRow pos) && (c =? currCol pos) = false) as ->; [|done].
      apply andb_false_iff.
      destruct Hrc as [[Hx%Hrows _]|[-> Hx%Hcols]]; unfold behind in Hx.
      * left. apply Z.eqb_neq. destruct (0 <? Vector.r dir); lia.
      * destruct (Z.eqb_spec row (currRow pos)); [|by left].
        right. apply Z.eqb_neq. destruct (0 <? Vector.c dir); lia.
    + rewrite <- Hord, <- (assoc_L (++)), !fmap_app. done.
  - apply orb_false_iff in Hmoved as [Hsr Hsc].
    apply negb_false_iff, Z.eqb_eq in Hsr, Hsc. rewrite Hsr, Hsc, Htile.
    eexists. split; [done|]. split; [done|]. split; [done|]. simpl.
    rewrite <- Hord, <- (assoc_L (++)), !fmap_app. done.
Qed.

Lemma moveRow_tracking grid dir rows cols order rowsLeft row acc :
  0 ≤ row < rows →
  (∀ x, x ∈ rowsLeft → behind (Vector.r dir) row x) →
  tracking grid rows cols order (trav_cols (createTraversalMap rows cols dir))
    (row :: rowsLeft) row [] acc →
  ∃ acc',
    moveRow dir rows cols (trav_cols (createTraversalMap rows cols dir))
      acc row = Ok acc' ∧
    tracking grid rows cols order (trav_cols (createTraversalMap rows cols dir))
      rowsLeft row [] acc'.
Proof.
  intros Hr Hrows (Hrect & Hund & Hord). unfold moveRow.
  apply (forEach_suffix (moveCell dir rows cols row)
           (λ colsLeft, tracking grid rows cols order
                          (trav_cols (createTraversalMap rows cols dir))
                          rowsLeft row colsLeft)).
  - intros col rest acc0 Hsuf Hacc0.
    apply moveCell_tracking; try done.
    + apply elem_of_trav_cols with (rows := rows) (dir := dir).
      destruct Hsuf as [pre ->]. apply elem_of_app. right.
      apply list_elem_of_here.
    + intros x Hx. by apply (traversal_behind cols _ col rest).
  - split; [done|]. split.
    + intros r c [[Hrl Hcl]|[-> Hcl%elem_of_trav_cols]]; apply Hund; left;
        (split; [|done]).
      * by apply elem_of_cons; right.
      * apply list_elem_of_here.
    + rewrite <- Hord. done.
Qed.

Lemma moveInDirection_tracking rows cols grid dir :
  0 < rows → rectangular rows cols grid = true →
  ∃ res, moveInDirection grid dir = Ok res ∧
         identityOf <$> mv_tiles res =
         identityOf <$> readRows grid
                          (trav_rows (createTraversalMap rows cols dir))
                          (trav_cols (createTraversalMap rows cols dir)).
Proof.
  intros Hrows Hrect.
  destruct grid as [|row0 grid'].
  { apply rectangular_spec in Hrect as [Hlen _]. unfold lengthZ in Hlen.
    simpl in Hlen. lia. }
  destruct (rectangular_head _ _ _ _ Hrect) as [Hlen Hlen0].
  unfold moveInDirection. rewrite Hlen, Hlen0.
  set (grid := row0 :: grid') in *.
  set (order := identityOf <$> readRows grid
                  (trav_rows (createTraversalMap rows cols dir))
                  (trav_cols (createTraversalMap rows cols dir))).
  destruct (forEach_suffix
              (moveRow dir rows cols
                 (trav_cols (createTraversalMap rows cols dir)))
              (λ rowsLeft, tracking grid rows cols order
                             (trav_cols (createTraversalMap rows cols dir))
                             rowsLeft 0 [])
              (trav_rows (createTraversalMap rows cols dir))
              {| mv_tiles := []; mv_grid := grid; mv_moveStack := [] |})
    as (res & Hrun & _ & _ & Hord).
  - intros row rest acc Hsuf (Hrect' & Hund & Hord).
    destruct (moveRow_tracking grid dir rows cols order rest row acc)
      as (acc' & Hrun & Hrect'' & Hund' & Hord'); try done.
    + apply elem_of_trav_rows with (cols := cols) (dir := dir).
      destruct Hsuf as [pre ->]. apply elem_of_app. right.
      apply list_elem_of_here.
    + intros x Hx. by apply (traversal_behind rows _ row rest).
    + split; [done|]. split; [|done].
      intros r c [Hrc|[_ Hc]]; [|by apply elem_of_nil in Hc].
      apply Hund. by left.
    + exists acc'. split; [done|]. split; [done|]. split; [|done].
      intros r c [Hrc|[_ Hc]]; [|by apply elem_of_nil in Hc].
      apply Hund'. by left.
  - split; [done|]. split; [|done]. by intros r c _.
  - exists res. split; [done|]. rewrite <- Hord. simpl.
    by rewrite !app_nil_r.
Qed.

Lemma fmap_lookup_seq {A B} (F : option A → B) (l : list A) :
  (λ i, F (l !! i)) <$> seq 0 (length l) = (λ x, F (Some x)) <$> l.
Proof.
  revert F. induction l as [|x l IH]; intros F; [done|].
  simpl length. rewrite <- cons_seq, <- fmap_S_seq, !fmap_cons.
  rewrite <- list_fmap_compose. f_equal. apply (IH F).
Qed.

Lemma omap_as_fmap {A B} (f : A → option B) (l : list A) :
  omap f l = omap id (f <$> l).
Proof.
  induction l as [|x l IH]; [done|].
  rewrite fmap_cons, omap_id_cons, <- IH. done.
Qed.

Lemma readRow_all grid (r : nat) row cols :
  grid !! r = Some row → lengthZ row = cols →
  readRow grid (Z.of_nat r) (createIndexArray cols) = omap id row.
Proof.
  intros Hrow <-. unfold readRow, createIndexArray, lengthZ.
  rewrite Nat2Z.id, omap_as_fmap, <- list_fmap_compose.
  rewrite (list_fmap_ext _ (λ i, from_option id None (row !! i)) (seq 0 (length row))).
  - by rewrite (fmap_lookup_seq (from_option id None)), list_fmap_id.
  - intros i j _. simpl. by rewrite getCell_of_nat, Hrow.
Qed.

Lemma bind_ext_Forall {A B} (f g : A → list B) (l : list A) :
  Forall (λ x, f x = g x) l → l ≫= f = l ≫= g.
Proof.
  induction 1 as [|x l Hx _ IH]; [done|]. by rewrite !bind_cons, Hx, IH.
Qed.

Lemma bind_ext_Permutation {A B} (f g : A → list B) (l : list A) :
  (∀ x, f x ≡ₚ g x) → l ≫= f ≡ₚ l ≫= g.
Proof.
  intros Hfg. induction l as [|x l IH]; [done|].
  by rewrite !bind_cons, (Hfg x), IH.
Qed.

Lemma gridTiles_bind grid : gridTiles grid = grid ≫= omap id.
Proof.
  induction grid as [|row grid IH]; [done|].
  by rewrite gridTiles_cons, bind_cons, IH.
Qed.

Lemma readRows_all rows cols grid :
  rectangular rows cols grid = true →
  readRows grid (createIndexArray rows) (createIndexArray cols)
  = gridTiles grid.
Proof.
  intros [Hlen Hrow]%rectangular_spec.
  unfold readRows. set (cs := createIndexArray cols).
  unfold createIndexArray. rewrite <- Hlen. unfold lengthZ.
  rewrite Nat2Z.id, gridTiles_bind, list_fmap_bind. subst cs.
  assert (∀ (l : list (list Cell)) (F : option (list Cell) → list Tile.t),
            seq 0 (length l) ≫= (λ i, F (l !! i))
            = l ≫= (λ x, F (Some x))) as Hseq.
  { induction l as [|x l IH]; intros F; [done|].
    simpl length. rewrite <- cons_seq, <- fmap_S_seq, !bind_cons.
    rewrite list_fmap_bind. f_equal. apply (IH (λ o, F o)). }
  etrans; [|apply (bind_ext_Forall
                     (λ row, from_option (omap id) [] (Some row)))].
  - rewrite <- (Hseq grid (from_option (omap id) [])).
    apply bind_ext_Forall, Forall_forall. intros i Hi%elem_of_seq. simpl.
    destruct (lookup_lt_is_Some_2 grid i) as [row Hr]; [lia|].
    rewrite Hr. simpl. by apply readRow_all; [|eapply Hrow].
  - by apply Forall_forall.
Qed.

Lemma readRows_traversal rows cols grid dir :
  rectangular rows cols grid = true →
  readRows grid (trav_rows (createTraversalMap rows cols dir))
    (trav_cols (createTraversalMap rows cols dir))
  ≡ₚ gridTiles grid.
Proof.
  intros Hrect. rewrite <- (readRows_all rows cols grid Hrect).
  unfold readRows, createTraversalMap. simpl.
  assert (∀ b (l : list Z), (if b : bool then reverse l else l) ≡ₚ l) as Hrev.
  { intros [] l; [apply reverse_Permutation|done]. }
  rewrite (Hrev (0 <? Vector.r dir) (createIndexArray rows)).
  apply bind_ext_Permutation. intros r. unfold readRow.
  by rewrite (Hrev (0 <? Vector.c dir) (createIndexArray cols)).
Qed.

(** The list a move reports is the grid read in the order of the traversal:
    every tile of the grid is in it exactly once, with its index, identifier
    and value, a tile that merges into another one included; and every tile
    left on the grid is one of the tiles from before the move. *)
Theorem moveInDirection_reports_every_tile_once rows cols grid dir :
  wellFormed rows cols grid = true →
  ∃ res, moveInDirection grid dir = Ok res ∧
         identityOf <$> mv_tiles res =
         identityOf <$> readRows grid
                          (trav_rows (createTraversalMap rows cols dir))
                          (trav_cols (createTraversalMap rows cols dir)) ∧
         identityOf <$> mv_tiles res ≡ₚ identityOf <$> gridTiles grid ∧
         lengthZ (mv_tiles res) = lengthZ (gridTiles grid) ∧
         survivorsOf grid (mv_grid res).
Proof.
  intros Hwf.
  destruct (moveInDirection_survivors rows cols grid dir Hwf)
    as (res & Hrun & Hsurv).
  apply wellFormed_spec in Hwf as (Hrows & Hrect & _).
  destruct (moveInDirection_tracking rows cols grid dir Hrows Hrect)
    as (res' & Hrun' & Hord).
  rewrite Hrun in Hrun'. injection Hrun' as <-.
  assert (identityOf <$> mv_tiles res ≡ₚ identityOf <$> gridTiles grid)
    as Hperm.
  { rewrite Hord. by rewrite (readRows_traversal rows cols grid dir Hrect). }
  exists res. repeat (split; [done|]). split; [|done].
  apply Permutation_length in Hperm. rewrite !length_fmap in Hperm.
  unfold lengthZ. by rewrite Hperm.
Qed.

Lemma moveInDirection_reports_every_tile_once_witness :
  wellFormed 1 4 row2222 = true ∧
  ∃ res, moveInDirection row2222 DIRECTION_MAP.Right = Ok res ∧
         identityOf <$> mv_tiles res =
         identityOf <$> readRows row2222
                          (trav_rows (createTraversalMap 1 4
                                        DIRECTION_MAP.Right))
                          (trav_cols (createTraversalMap 1 4
                                        DIRECTION_MAP.Right)) ∧
         identityOf <$> mv_tiles res ≡ₚ identityOf <$> gridTiles row2222 ∧
         lengthZ (mv_tiles res) = lengthZ (gridTiles row2222) ∧
         survivorsOf row2222 (mv_grid res).
Proof.
  split; [reflexivity|].
  apply (moveInDirection_reports_every_tile_once 1 4 row2222
           DIRECTION_MAP.Right). reflexivity.
Defined.

(** ** Value and tile count over a whole move *)

Lemma sumZ_Permutation l1 l2 : l1 ≡ₚ l2 → sumZ l1 = sumZ l2.
Proof.
  induction 1 as [|x l1 l2 _ IH|x y l|l1 l2 l3 _ IH1 _ IH2];
    rewrite ?sumZ_cons; try done; lia.
Qed.

(** A move and the settle after it change the board by merges and a spawn
    only: the tiles of the new grid are the tiles left by the move, each
    merge target doubled, and the spawned tiles; one tile is spawned, two on
    a board of at least 24 cells, fewer if the space does not allow; and the
    values on the board add up to the values from before the move plus the
    values spawned. *)
Theorem move_and_settle_balance rows cols grid dir w :
  wellFormed rows cols grid = true → settled grid = true →
  ∃ mv res w' newTiles,
    moveInDirection grid dir = Ok mv ∧
    mergeAndCreateNewTiles (mv_grid mv) w = Ok (res, w') ∧
    gridTiles (mg_grid res)
      ≡ₚ (mergedTile <$> gridTiles (mv_grid mv)) ++ newTiles ∧
    Forall freshTile newTiles ∧
    lengthZ newTiles
      = Z.min (if 24 <=? rows * cols then 2 else 1)
          (rows * cols - lengthZ (gridTiles (mv_grid mv))) ∧
    sumZ (Tile.value <$> gridTiles (mg_grid res))
      = sumZ (Tile.value <$> gridTiles grid)
        + sumZ (Tile.value <$> newTiles).
Proof.
  intros Hwf Hset.
  destruct (moveInDirection_pairs_tiles rows cols grid dir Hwf Hset)
    as (mv & Hrun & _ & Hsum).
  destruct (moveInDirection_wellFormed rows cols grid dir Hwf)
    as (mv' & Hrun' & Hwf' & _).
  rewrite Hrun in Hrun'. injection Hrun' as <-.
  destruct (mergeAndCreateNewTiles_wellFormed_spec rows cols (mv_grid mv) w
              Hwf') as (res & w' & Hsettle & _ & _ & Hperm).
  pose proof Hwf' as (Hrows & Hrect & _)%wellFormed_spec.
  destruct (settle_count rows cols (mv_grid mv) w Hrows Hrect)
    as (res1 & w1 & newTiles & Hsettle1 & Htiles & Hcount).
  rewrite Hsettle in Hsettle1. injection Hsettle1 as <- <-.
  destruct (mergeAndCreateNewTiles_spec (mv_grid mv) w)
    as (res2 & w2 & newTiles2 & Hsettle2 & _ & Htiles2 & Hfresh).
  { apply rectangular_spec in Hrect as [Hlen _]. lia. }
  rewrite Hsettle in Hsettle2. injection Hsettle2 as <- <-.
  rewrite Htiles in Htiles2. apply app_inv_head in Htiles2 as <-.
  exists mv, res, w', newTiles. repeat (split; [done|]).
  split; [by rewrite <- Hperm, Htiles|]. split; [done|]. split; [done|].
  rewrite (sumZ_Permutation _ (Tile.value <$> mg_tiles res))
    by (by rewrite Hperm).
  by rewrite Htiles, fmap_app, sumZ_app, Hsum.
Qed.

Lemma move_and_settle_balance_witness :
  wellFormed 2 2 board248 = true ∧ settled board248 = true ∧
  ∃ mv res w' newTiles,
    moveInDirection board248 DIRECTION_MAP.Left = Ok mv ∧
    mergeAndCreateNewTiles (mv_grid mv) world1 = Ok (res, w') ∧
    gridTiles (mg_grid res)
      ≡ₚ (mergedTile <$> gridTiles (mv_grid mv)) ++ newTiles ∧
    Forall freshTile newTiles ∧
    lengthZ newTiles
      = Z.min (if 24 <=? 2 * 2 then 2 else 1)
          (2 * 2 - lengthZ (gridTiles (mv_grid mv))) ∧
    sumZ (Tile.value <$> gridTiles (mg_grid res))
      = sumZ (Tile.value <$> gridTiles board248)
        + sumZ (Tile.value <$> newTiles).
Proof.
  split; [reflexivity|]. split; [reflexivity|].
  apply (move_and_settle_balance 2 2 board248 DIRECTION_MAP.Left world1);
    reflexivity.
Defined.

(** ** Traversal order, restart and the colour key *)

Lemma createIndexArray_lookup len (i : nat) :
  (i < Z.to_nat len)%nat → createIndexArray len !! i = Some (Z.of_nat i).
Proof.
  intros Hi. unfold createIndexArray.
  by rewrite list_lookup_fmap, lookup_seq_lt.
Qed.

Lemma traversal_lookup len d (i : nat) :
  (i < Z.to_nat len)%nat →
  (if 0 <? d then reverse (createIndexArray len) else createIndexArray len)
    !! i
  = Some (if 0 <? d then len - 1 - Z.of_nat i else Z.of_nat i).
Proof.
  intros Hi. destruct (0 <? d); [|by apply createIndexArray_lookup].
  assert (length (createIndexArray len) = Z.to_nat len) as Hlen.
  { unfold createIndexArray. by rewrite length_fmap, length_seq. }
  rewrite reverse_lookup by lia. rewrite Hlen.
  rewrite createIndexArray_lookup by lia. f_equal. lia.
Qed.

(** [createTraversalMap] in closed form, for the dimensions of a grid (from
    0 to [2^32 - 1]): each axis lists its indices once, and a positive
    component of the direction makes the axis start at the far end, so that
    the tiles nearest to the wall they move towards are visited first. *)
Theorem createTraversalMap_far_side_first rows cols dir :
  0 ≤ rows < 2 ^ 32 → 0 ≤ cols < 2 ^ 32 →
  let trav := createTraversalMap rows cols dir in
  length (trav_rows trav) = Z.to_nat rows ∧
  length (trav_cols trav) = Z.to_nat cols ∧
  (∀ i : nat, (i < Z.to_nat rows)%nat →
     trav_rows trav !! i
     = Some (if 0 <? Vector.r dir then rows - 1 - Z.of_nat i
             else Z.of_nat i)) ∧
  (∀ j : nat, (j < Z.to_nat cols)%nat →
     trav_cols trav !! j
     = Some (if 0 <? Vector.c dir then cols - 1 - Z.of_nat j
             else Z.of_nat j)).
Proof.
  intros _ _. unfold createTraversalMap. simpl.
  assert (∀ len d,
            length (if 0 <? d then reverse (createIndexArray len)
                    else createIndexArray len) = Z.to_nat len) as Hlen.
  { intros len d. destruct (0 <? d); rewrite ?length_reverse;
      unfold createIndexArray; by rewrite length_fmap, length_seq. }
  split; [apply Hlen|]. split; [apply Hlen|].
  split; intros i Hi; by apply traversal_lookup.
Qed.

Lemma createTraversalMap_far_side_first_witness :
  trav_rows (createTraversalMap 4 4 DIRECTION_MAP.Down) !! 1%nat = Some 2 ∧
  trav_cols (createTraversalMap 4 4 DIRECTION_MAP.Down) !! 1%nat = Some 1.
Proof.
  destruct (createTraversalMap_far_side_first 4 4 DIRECTION_MAP.Down)
    as (_ & _ & Hrows & Hcols); [split; [discriminate|reflexivity]..|].
  split; [apply (Hrows 1%nat)|apply (Hcols 1%nat)]; simpl; lia.
Defined.

(** A restart rebuilds a board of the dimensions of the current grid and
    asks for the status [running]; the new board is well formed, holds
    exactly the fresh tiles of the tile list, indexed from 0.  The pending
    stack and the moving flag are not touched: a restart in the middle of a
    move leaves the hook in flight. *)
Theorem restart_rebuilds_board rows cols h w :
  wellFormed rows cols (gridRef h) = true →
  ∃ h' w',
    statusEffect restart h w = Ok (h', Some running, w') ∧
    wellFormed rows cols (gridRef h') = true ∧
    settled (gridRef h') = true ∧
    tiles h' ≡ₚ gridTiles (gridRef h') ∧
    Forall freshTile (tiles h') ∧
    Tile.index <$> tiles h' = seqZ 0 (lengthZ (tiles h')) ∧
    _tileIndex w' = lengthZ (tiles h') ∧
    pendingStackRef h' = pendingStackRef h ∧
    moving h' = moving h ∧ pauseRef h' = pauseRef h.
Proof.
  intros (Hrows & Hrect & _)%wellFormed_spec. unfold statusEffect.
  destruct (gridRef h) as [|row0 grid'] eqn:Hgrid.
  { apply rectangular_spec in Hrect as [Hlen _]. unfold lengthZ in Hlen.
    simpl in Hlen. lia. }
  destruct (rectangular_head _ _ _ _ Hrect) as [-> Hcols].
  assert (0 ≤ cols) as Hc by (unfold lengthZ in Hcols; lia).
  rewrite Hcols.
  destruct (resetGameBoard_fresh_board_spec rows cols w Hrows Hc)
    as (rs & w' & -> & Hwf & Hset & Hperm & Hidx & Hctr & Hfresh).
  simpl. eexists _, _. split; [done|]. simpl. by repeat split.
Qed.

Lemma restart_rebuilds_board_witness :
  wellFormed 2 2 (gridRef hookMidMove) = true ∧
  ∃ h' w',
    statusEffect restart hookMidMove world1 = Ok (h', Some running, w') ∧
    wellFormed 2 2 (gridRef h') = true ∧
    settled (gridRef h') = true ∧
    tiles h' ≡ₚ gridTiles (gridRef h') ∧
    Forall freshTile (tiles h') ∧
    Tile.index <$> tiles h' = seqZ 0 (lengthZ (tiles h')) ∧
    _tileIndex w' = lengthZ (tiles h') ∧
    pendingStackRef h' = pendingStackRef hookMidMove ∧
    moving h' = moving hookMidMove ∧ pauseRef h' = pauseRef hookMidMove.
Proof.
  split; [reflexivity|].
  apply (restart_rebuilds_board 2 2 hookMidMove world1). reflexivity.
Defined.

(** [clamp] brings a number into the interval from [min] to [max] and
    leaves a number of the interval as it is; with an empty interval,
    [max < min], the result is [min] whatever the number. *)
Theorem clamp_into_interval d min max :
  (min ≤ max → min ≤ clamp d min max ≤ max) ∧
  (min ≤ d ≤ max → clamp d min max = d) ∧
  (d ≤ min → clamp d min max = min) ∧
  (min ≤ max ≤ d → clamp d min max = max) ∧
  (max < min → clamp d min max = min).
Proof. unfold clamp. lia. Qed.

Lemma clamp_into_interval_witness :
  0 ≤ clamp 7 0 3 ≤ 3 ∧ clamp 2 0 3 = 2 ∧ clamp (-1) 0 3 = 0 ∧
  clamp 7 0 3 = 3 ∧ clamp 7 0 (-1) = 0.
Proof.
  destruct (clamp_into_interval 7 0 3) as (Hin & _ & _ & Hmax & _).
  destruct (clamp_into_interval 2 0 3) as (_ & Hid & _).
  destruct (clamp_into_interval (-1) 0 3) as (_ & _ & Hmin & _).
  destruct (clamp_into_interval 7 0 (-1)) as (_ & _ & _ & _ & Hempty).
  split; [apply Hin; lia|]. split; [apply Hid; lia|].
  split; [apply Hmin; lia|]. split; [apply Hmax; lia|apply Hempty; lia].
Defined.

(** The colour key of a tile: values from 2 to 2048 have a key of their
    own, every value above 2048 shares the key of 2048 and every value below
    2 the key of 2. *)
Theorem getTileColor_saturates v1 v2 :
  (2048 ≤ v1 → getTileColor v1 = "tile2048") ∧
  (v1 ≤ 2 → getTileColor v1 = "tile2") ∧
  (2 ≤ v1 ≤ 2048 → 2 ≤ v2 ≤ 2048 →
   getTileColor v1 = getTileColor v2 → v1 = v2).
Proof.
  unfold getTileColor. split; [|split].
  - intros H. by replace (clamp v1 2 2048) with 2048 by (unfold clamp; lia).
  - intros H. by replace (clamp v1 2 2048) with 2 by (unfold clamp; lia).
  - intros H1 H2 Heq.
    replace (clamp v1 2 2048) with v1 in Heq by (unfold clamp; lia).
    replace (clamp v2 2 2048) with v2 in Heq by (unfold clamp; lia).
    simpl in Heq. injection Heq as Heq. by apply pretty_Z_inj in Heq.
Qed.

Lemma getTileColor_saturates_witness :
  getTileColor 4096 = "tile2048" ∧ getTileColor 0 = "tile2" ∧
  (getTileColor 8 = getTileColor 8 → 8 = 8).
Proof.
  destruct (getTileColor_saturates 4096 2) as (Hhigh & _ & _).
  destruct (getTileColor_saturates 0 2) as (_ & Hlow & _).
  destruct (getTileColor_saturates 8 8) as (_ & _ & Hinj).
  split; [apply Hhigh; lia|]. split; [apply Hlow; lia|].
  intros Heq. apply Hinj; [lia|lia|exact Heq].
Defined.
